(** * OptionChainDemo: a shallow embedding of [main.cpp]

    The program keeps one [OptionChain] (a vector of option contracts and a
    vector of observers), drifts every premium by a pseudo-random percentage
    and redraws a one-line quote through the observer it notifies.

    Conventions of the embedding.
    - [double] is a parameter of the model, together with the operations the
      source applies to it ([DoubleOps]).  Everything that does not depend on
      arithmetic is proved for every instance.  Two instances are given.
      With exact rational arithmetic ([Q]) the numeric statements of the
      specification (a payoff formula, bounds on a premium) are statements
      about numbers.  With IEEE binary64 (Rocq's primitive floats and their
      specification) the program runs as compiled and every operation also
      rounds.  The numeric statements are proved in both.
    - [int] values are [Z]; the source's [%] truncates towards zero
      ([Z.rem]).
    - [rand()] reads a global generator: the world records the sequence it
      will return and how many values have been drawn.
    - [std::cout] is the list of items inserted so far; a call of the
      virtual [Observer::update] is recorded in the same trace.
    - [std::cin] is what has been typed so far, as a list of turns: the
      character of the menu and, for a trade, the five values read.  Every
      extraction is taken to succeed (a quantity is then an [int]); when
      all has been read the program waits for more.  A failed or ended
      read, after which the source loops without end, is not modelled.
    - [std::unique_ptr<Option>] is [option Option] where the source tests it
      for null (the factory's result); the registry stores the pointees. *)

From Stdlib Require Import ZArith QArith Qminmax Qpower Lqa Lia.
From Stdlib Require Import List String Ascii Bool.
From Stdlib Require Import Floats Uint63.
Import ListNotations.

(** ** The arithmetic of [double] *)

Declare Scope dbl_scope.
Delimit Scope dbl_scope with dbl.

Class DoubleOps (double : Type) : Type := {
  of_int : Z -> double;                (* int -> double conversion; 0.0, 1.0, 100.0 *)
  dadd : double -> double -> double;   (* a + b *)
  dsub : double -> double -> double;   (* a - b *)
  dmul : double -> double -> double;   (* a * b *)
  ddiv : double -> double -> double;   (* a / b *)
  dlt : double -> double -> bool       (* a < b *)
}.

Infix "+" := dadd : dbl_scope.
Infix "-" := dsub : dbl_scope.
Infix "*" := dmul : dbl_scope.
Infix "/" := ddiv : dbl_scope.
Infix "<?" := dlt : dbl_scope.

(** Exact arithmetic: a [double] is a rational number. *)
#[export] Instance Q_ops : DoubleOps Q := {
  of_int := inject_Z;
  dadd := Qplus;
  dsub := Qminus;
  dmul := Qmult;
  ddiv := Qdiv;
  dlt := fun a b => match Qcompare a b with Lt => true | _ => false end
}.

(** IEEE 754 binary64.  An [int] is converted exactly. *)
Definition float_of_int (z : Z) : float :=
  if (z <? 0)%Z
  then PrimFloat.opp (PrimFloat.of_uint63 (Uint63.of_Z (- z)))
  else PrimFloat.of_uint63 (Uint63.of_Z z).

#[export] Instance binary64_ops : DoubleOps float := {
  of_int := float_of_int;
  dadd := PrimFloat.add;
  dsub := PrimFloat.sub;
  dmul := PrimFloat.mul;
  ddiv := PrimFloat.div;
  dlt := PrimFloat.ltb
}.

Section Model.

Context {double : Type} {ops : DoubleOps double}.

Local Open Scope string_scope.
Local Open Scope dbl_scope.
Local Open Scope list_scope.

(** [std::max(a, b)] is [(a < b) ? b : a]. *)
Definition std_max (a b : double) : double := if a <? b then b else a.

(** ** class Option, CallOption, PutOption *)

(** The dynamic type of an [Option] object. *)
Inductive OptionKind : Type := Call | Put.

Record Option : Type := mkOption {
  kind : OptionKind;
  strikePrice : double;
  premium : double;
  expiryDate : string
}.

Definition CallOption (strike prem : double) (expiry : string) : Option :=
  mkOption Call strike prem expiry.

Definition PutOption (strike prem : double) (expiry : string) : Option :=
  mkOption Put strike prem expiry.

Definition setPremium (o : Option) (prem : double) : Option :=
  mkOption (kind o) (strikePrice o) prem (expiryDate o).

Definition getPremium (o : Option) : double := premium o.
Definition getStrikePrice (o : Option) : double := strikePrice o.
Definition getExpiryDate (o : Option) : string := expiryDate o.

(** [double calculatePayoff(double marketPrice) const], dispatched on the
    dynamic type. *)
Definition calculatePayoff (o : Option) (marketPrice : double) : double :=
  match kind o with
  | Call => std_max (of_int 0) (marketPrice - strikePrice o) - premium o
  | Put => std_max (of_int 0) (strikePrice o - marketPrice) - premium o
  end.

(** ** Output *)

(** What is inserted into [std::cout]. *)
Inductive token : Type :=
| TStr (s : string)
| TDouble (d : double)
| TInt (n : Z)
| TEndl.

(** [void displayInfo() const]: the items it inserts, in order. *)
Definition displayInfo (o : Option) : list token :=
  match kind o with
  | Call =>
      [TStr "Call Option - Strike Price: "; TDouble (strikePrice o);
       TStr ", Premium: "; TDouble (premium o);
       TStr ", Expiry: "; TStr (expiryDate o); TEndl]
  | Put =>
      [TStr "Put Option - Strike Price: "; TDouble (strikePrice o);
       TStr ", Premium: "; TDouble (premium o);
       TStr ", Expiry: "; TStr (expiryDate o); TEndl]
  end.

(** ** class OptionFactory *)

(** [createOption]: [None] is the null pointer. *)
Definition createOption (type : string) (strike prem : double)
  (expiry : string) : option Option :=
  if String.eqb type "Call" then Some (CallOption strike prem expiry)
  else if String.eqb type "Put" then Some (PutOption strike prem expiry)
  else None.

(** ** The program state *)

(** An [Observer*]: the address of a [RealTimeDisplay] object. *)
Definition ptr : Type := nat.

(** What the program does that can be observed: a call of
    [Observer::update] on the object at an address, and an insertion into
    [std::cout]. *)
Inductive event : Type :=
| Update (observer : ptr)
| Cout (t : token).

Record OptionChain : Type := mkChain {
  options : list Option;      (* std::vector<std::unique_ptr<Option>> *)
  observers : list ptr        (* std::vector<Observer*> *)
}.

(** [main] owns the only [OptionChain]; the [OptionChain*] members of
    [RealTimeDisplay], [MarketSimulator] and [TradeCommand] all hold its
    address, so the chain is part of the world and those objects carry no
    other data. *)
Record World : Type := mkWorld {
  chain : OptionChain;
  trace : list event;
  rand_seq : nat -> Z;        (* the values rand() returns, in order *)
  rand_calls : nat            (* how many of them have been drawn *)
}.

(** [rand()] returns a value between 0 and RAND_MAX. *)
Definition rand_ok (w : World) : Prop := forall n, (0 <= rand_seq w n)%Z.

(** Statements are state transformers that return a value. *)
Definition Prog (A : Type) : Type := World -> A * World.

Definition ret {A} (a : A) : Prog A := fun w => (a, w).

Definition bind {A B} (m : Prog A) (k : A -> Prog B) : Prog B :=
  fun w => let (a, w') := m w in k a w'.

Notation "x <- m ;; k" := (bind m (fun x => k))
  (at level 61, m at next level, right associativity).
Notation "m ;; k" := (bind m (fun _ => k))
  (at level 61, right associativity).

(** The world after a statement. *)
Definition exec {A} (m : Prog A) (w : World) : World := snd (m w).

Definition get_chain : Prog OptionChain := fun w => (chain w, w).

Definition put_chain (c : OptionChain) : Prog unit :=
  fun w => (tt, mkWorld c (trace w) (rand_seq w) (rand_calls w)).

Definition emit (es : list event) : Prog unit :=
  fun w => (tt, mkWorld (chain w) (trace w ++ es) (rand_seq w) (rand_calls w)).

(** [std::cout << t1 << t2 << ...]. *)
Definition cout (ts : list token) : Prog unit := emit (map Cout ts).

Definition rand : Prog Z :=
  fun w => (rand_seq w (rand_calls w),
            mkWorld (chain w) (trace w) (rand_seq w) (S (rand_calls w))).

(** [for (auto x : xs) body(x);] *)
Fixpoint for_each {A} (body : A -> Prog unit) (xs : list A) : Prog unit :=
  match xs with
  | [] => ret tt
  | x :: rest => body x ;; for_each body rest
  end.

(** [for (auto& x : xs) body(x);] where the body updates [x] in place:
    the elements after the loop. *)
Fixpoint for_each_ref {A} (body : A -> Prog A) (xs : list A) : Prog (list A) :=
  match xs with
  | [] => ret []
  | x :: rest =>
      x' <- body x ;;
      rest' <- for_each_ref body rest ;;
      ret (x' :: rest')
  end.

(** ** ANSI escape codes *)

Definition ESC : string := String (ascii_of_nat 27) EmptyString.
Definition NL : string := String (ascii_of_nat 10) EmptyString.
Definition CLEAR_SCREEN : string := String.append ESC "[2J".
Definition CLEAR_LINE : string := String.append ESC "[K".
Definition MOVE_CURSOR (x y : string) : string :=
  String.append ESC
    (String.append "[" (String.append x (String.append ";" (String.append y "H")))).

(** ** class OptionChain *)

Definition addOption (option : Option) : Prog unit :=
  c <- get_chain ;;
  put_chain (mkChain (options c ++ [option]) (observers c)).

Definition registerObserver (observer : ptr) : Prog unit :=
  c <- get_chain ;;
  put_chain (mkChain (options c) (observers c ++ [observer])).

Definition displaySingleQuote : Prog unit :=
  c <- get_chain ;;
  match options c with
  | [] => ret tt
  | first :: _ => cout (displayInfo first)
  end.

(** ** class RealTimeDisplay : public Observer *)

(** The constructor, for the object at address [this]. *)
Definition RealTimeDisplay (this : ptr) : Prog unit := registerObserver this.

(** [void update() override]: the only implementation of
    [Observer::update], so the virtual call always arrives here. *)
Definition update (this : ptr) : Prog unit :=
  emit [Update this] ;;
  cout [TStr (MOVE_CURSOR "1" "1"); TStr CLEAR_SCREEN] ;;
  cout [TStr (String.append "Latest Option Quote:" NL)] ;;
  displaySingleQuote ;;
  cout [TStr (String.append "--------------------------------" NL)] ;;
  cout [TStr (MOVE_CURSOR "15" "1")].

(** ** class OptionChain, continued *)

Definition notifyObservers : Prog unit :=
  c <- get_chain ;;
  for_each update (observers c).

(** The body of the loop of [updateOptionPrices], for one contract. *)
Definition drift (option : Option) : Prog Option :=
  r <- rand ;;
  let newPremium :=
    getPremium option * (of_int 1 + of_int (Z.rem r 10 - 5) / of_int 100) in
  ret (setPremium option newPremium).

Definition updateOptionPrices : Prog unit :=
  c <- get_chain ;;
  options' <- for_each_ref drift (options c) ;;
  put_chain (mkChain options' (observers c)) ;;
  notifyObservers.

(** ** class Trade, Strategy, SimpleTradeStrategy *)

(** These classes are not reached from [main]. *)
Record Trade : Type := mkTrade {
  trade_option : Option;      (* the member [option] *)
  quantity : Z
}.

Definition executeTrade (t : Trade) (marketPrice : double) : Prog unit :=
  cout (displayInfo (trade_option t)) ;;
  let payoff := calculatePayoff (trade_option t) marketPrice in
  cout [TStr "Quantity: "; TInt (quantity t);
        TStr ", Payoff: "; TDouble (payoff * of_int (quantity t)); TEndl].

Definition executeStrategy (trades : list Trade) (marketPrice : double)
  : Prog unit :=
  for_each (fun trade => executeTrade trade marketPrice) trades.

(** ** class MarketSimulator *)

Definition updateMarket : Prog unit := updateOptionPrices.

(** ** class TradeCommand *)

(** The five values [execute] extracts from [std::cin]. *)
Record TradeInput : Type := mkTradeInput {
  in_optionType : string;
  in_strikePrice : double;
  in_premium : double;
  in_expiry : string;
  in_quantity : Z
}.

Definition execute (input : TradeInput) : Prog unit :=
  cout [TEndl] ;;
  cout [TStr "Enter option type (Call/Put): "] ;;
  cout [TStr "Enter strike price: "] ;;
  cout [TStr "Enter premium: "] ;;
  cout [TStr "Enter expiry date (YYYY-MM-DD): "] ;;
  cout [TStr "Enter quantity: "] ;;
  match createOption (in_optionType input) (in_strikePrice input)
          (in_premium input) (in_expiry input) with
  | Some option =>
      addOption option ;;
      cout [TStr "Trade executed successfully."; TEndl]
  | None =>
      cout [TStr "Invalid option type. Trade not executed."; TEndl]
  end.

(** ** main *)

(** The state [main] starts from: an empty chain, nothing written. *)
Definition start (seq : nat -> Z) : World := mkWorld (mkChain [] []) [] seq 0.

(** [chain.addOption(OptionFactory::createOption(...))].  Both tags [main]
    passes are recognised, so the pointer it adds is never null. *)
Definition addCreated (created : option Option) : Prog unit :=
  match created with
  | Some option => addOption option
  | None => ret tt
  end.

(** [main] up to its loop; [display] is the address of the local
    [RealTimeDisplay]. *)
Definition main_init (display : ptr) : Prog unit :=
  addCreated (createOption "Call" (of_int 100) (of_int 5) "2024-12-31") ;;
  addCreated (createOption "Put" (of_int 100) (of_int 4) "2024-12-31") ;;
  RealTimeDisplay display.

(** One turn of the loop of [main], for the character and, when a trade is
    entered, the values read. *)
Definition main_turn (display : ptr) (choice : ascii) (input : TradeInput)
  : Prog unit :=
  cout [TStr (MOVE_CURSOR "15" "1"); TStr CLEAR_LINE] ;;
  cout [TStr (String.append "Choose an action:" NL)] ;;
  cout [TStr (String.append "1. Get updated quote" NL)] ;;
  cout [TStr (String.append "2. Enter a trade" NL)] ;;
  cout [TStr (String.append "3. Exit" NL)] ;;
  cout [TStr "Enter your choice (1/2/3): "] ;;
  if Ascii.eqb choice "1" then updateMarket ;; update display
  else if Ascii.eqb choice "2" then execute input
  else ret tt.

(** The menu [main] writes at the start of every turn, before it reads the
    choice. *)
Definition show_menu : Prog unit :=
  cout [TStr (MOVE_CURSOR "15" "1"); TStr CLEAR_LINE] ;;
  cout [TStr (String.append "Choose an action:" NL)] ;;
  cout [TStr (String.append "1. Get updated quote" NL)] ;;
  cout [TStr (String.append "2. Enter a trade" NL)] ;;
  cout [TStr (String.append "3. Exit" NL)] ;;
  cout [TStr "Enter your choice (1/2/3): "].

(** What is typed during one turn: the character [std::cin >> choice]
    reads and, when it is '2', the five values [execute] reads (they are not
    read otherwise).  Every extraction is taken to succeed. *)
Definition Turn : Type := (ascii * TradeInput)%type.

(** The loop [do { ... } while (choice != '3')] of [main], on the turns
    typed so far.  It returns [true] when the loop has ended, and [false]
    when everything typed has been read: the menu is on the screen and the
    program waits in [std::cin >> choice].  This is the program as long as
    every extraction succeeds and the input has not ended: after a failed
    or ended read [std::cin] stays in error, [choice] keeps its value and
    the loop never ends, which the model does not represent.  A run that
    has returned is a run all of whose extractions succeeded. *)
Fixpoint main_loop (display : ptr) (turns : list Turn) : Prog bool :=
  match turns with
  | [] => show_menu ;; ret false
  | (choice, input) :: rest =>
      main_turn display choice input ;;
      if Ascii.eqb choice "3" then ret true else main_loop display rest
  end.

(** [int main()]: [true] when it has returned. *)
Definition main (display : ptr) (turns : list Turn) : Prog bool :=
  main_init display ;;
  main_loop display turns.

(** The calls of [Observer::update] in a trace, in order. *)
Fixpoint update_calls (es : list event) : list ptr :=
  match es with
  | [] => []
  | Update o :: rest => o :: update_calls rest
  | Cout _ :: rest => update_calls rest
  end.

(** What one [update()] adds to the trace when the registry holds [os]. *)
Definition frame (os : list Option) (this : ptr) : list event :=
  Update this ::
  map Cout
    ([TStr (MOVE_CURSOR "1" "1"); TStr CLEAR_SCREEN;
      TStr (String.append "Latest Option Quote:" NL)]
     ++ match os with [] => [] | first :: _ => displayInfo first end
     ++ [TStr (String.append "--------------------------------" NL);
         TStr (MOVE_CURSOR "15" "1")]).

(** ** Closed forms used by the proofs *)

(** The factor one draw [r] of [rand()] multiplies a premium by. *)
Definition factor (r : Z) : double :=
  of_int 1 + of_int (Z.rem r 10 - 5) / of_int 100.

(** The registry after the loop of [updateOptionPrices], when the [n]-th
    and later values of [seq] are drawn. *)
Fixpoint drifted (seq : nat -> Z) (n : nat) (os : list Option) : list Option :=
  match os with
  | [] => []
  | o :: rest => setPremium o (premium o * factor (seq n)) :: drifted seq (S n) rest
  end.

(** [n] calls of [updateOptionPrices] in a row. *)
Definition updates (n : nat) (w : World) : World :=
  Nat.iter n (exec updateOptionPrices) w.


(** What the menu of one turn adds to [std::cout]. *)
Definition menu_text : list token :=
  [TStr (MOVE_CURSOR "15" "1"); TStr CLEAR_LINE;
   TStr (String.append "Choose an action:" NL);
   TStr (String.append "1. Get updated quote" NL);
   TStr (String.append "2. Enter a trade" NL);
   TStr (String.append "3. Exit" NL);
   TStr "Enter your choice (1/2/3): "].

(** What [execute] writes before it looks at the values read. *)
Definition prompts : list token :=
  [TEndl;
   TStr "Enter option type (Call/Put): ";
   TStr "Enter strike price: ";
   TStr "Enter premium: ";
   TStr "Enter expiry date (YYYY-MM-DD): ";
   TStr "Enter quantity: "].

(** What [executeTrade] writes for one trade. *)
Definition trade_report (t : Trade) (marketPrice : double) : list token :=
  displayInfo (trade_option t) ++
  [TStr "Quantity: "; TInt (quantity t); TStr ", Payoff: ";
   TDouble (calculatePayoff (trade_option t) marketPrice * of_int (quantity t));
   TEndl].

(** The values of a trade with another quantity. *)
Definition with_quantity (input : TradeInput) (q : Z) : TradeInput :=
  mkTradeInput (in_optionType input) (in_strikePrice input) (in_premium input)
    (in_expiry input) q.

(** The contracts the factory builds from the trades entered before the
    first '3', in the order they are entered. *)
Fixpoint entered (turns : list Turn) : list Option :=
  match turns with
  | [] => []
  | (choice, input) :: rest =>
      if Ascii.eqb choice "3" then []
      else
        (if Ascii.eqb choice "2" then
           match createOption (in_optionType input) (in_strikePrice input)
                   (in_premium input) (in_expiry input) with
           | Some option => [option]
           | None => []
           end
         else []) ++ entered rest
  end.

(** How many times '1' is chosen before the first '3'. *)
Fixpoint quotes (turns : list Turn) : nat :=
  match turns with
  | [] => 0
  | (choice, _) :: rest =>
      if Ascii.eqb choice "3" then 0
      else ((if Ascii.eqb choice "1" then 1 else 0) + quotes rest)%nat
  end.

End Model.

Arguments Option double : clear implicits.
Arguments token double : clear implicits.
Arguments event double : clear implicits.
Arguments OptionChain double : clear implicits.
Arguments World double : clear implicits.
Arguments TradeInput double : clear implicits.
Arguments Trade double : clear implicits.
Arguments Prog double A : clear implicits.
Arguments Turn double : clear implicits.

(** ** Concrete runs *)

(** A generator that always returns [x]: with 9 every drift is +4%, with 0
    every drift is -5%. *)
Definition always (x : Z) : nat -> Z := fun _ => x.

(** The world of [main] when its loop starts; the display lives at
    address 1. *)
Definition main_world64 : World float :=
  exec (main_init 1%nat) (start (always 9)).

(** What a user may type at the trade prompts. *)
Definition short_put {double : Type} {ops : DoubleOps double}
  : TradeInput double :=
  mkTradeInput "Put"%string (of_int 100) (of_int (-4)) "2024-12-31"%string 1%Z.

Definition straddle : TradeInput float :=
  mkTradeInput "Straddle"%string (of_int 100) (of_int 4) "2024-12-31"%string 1%Z.

(** A registry whose only contract was entered with a negative premium, in
    exact arithmetic and in binary64. *)
Definition short_world : World Q := exec (execute short_put) (start (always 9)).
Definition short_world64 : World float :=
  exec (execute short_put) (start (always 9)).

(** A registry whose only contract was entered with the premium 1. *)
Definition unit_call : TradeInput float :=
  mkTradeInput "Call"%string (of_int 100) (of_int 1) "2024-12-31"%string 1%Z.

Definition unit_world64 : World float :=
  exec (execute unit_call) (start (always 9)).

(** The registry of the 100-update scenario. *)
Definition call_world64 (seq : nat -> Z) : World float :=
  exec (addCreated (createOption "Call"%string (of_int 100) (of_int 5)
                      "2024-12-31"%string))
    (start seq).

(** The world of [main] after [chain.registerObserver(&display)] is called
    once more: the display is registered twice. *)
Definition twice_world64 : World float :=
  exec (registerObserver 1%nat) main_world64.

(** A value an [int] of 32 bits holds: what [std::cin >> quantity] can
    extract. *)
Definition is_int (z : Z) : Prop := (- 2 ^ 31 <= z < 2 ^ 31)%Z.

(** A market price that is not a number. *)
Definition nan_price : float := PrimFloat.div 0 0.

(** What a user may type in a run of [main]: a quote, a trade, and a
    character the menu does not offer. *)
Definition session : list (Turn float) :=
  [("1"%char, straddle); ("2"%char, short_put); ("x"%char, straddle)].

(** The premium of the scenario's call after [n] updates that all draw
    [x]. *)
Definition constant_run (x : Z) (n : nat) : float :=
  Nat.iter n (fun p => dmul p (factor x)) (of_int 5).

(** The least and the greatest premium the scenario's call can have after
    100 updates: [0.0296026...] and [252.52474092134818]. *)
Definition least_premium_100 : float := 0x1.e5027f386e56bp-6.
Definition greatest_premium_100 : float := 0x1.f90caad790207p+7.

(** ** Reading binary64 values *)

(** Not a NaN and not below zero: +0, a positive number or +infinity. *)
Definition nonneg_sf (x : spec_float) : Prop :=
  match x with
  | S754_zero false | S754_finite false _ _ | S754_infinity false => True
  | _ => False
  end.

(** The number a mantissa and an exponent stand for. *)
Definition val (m : positive) (e : Z) : Q := inject_Z (Zpos m) * 2 ^ e.

Definition SF2Q (x : spec_float) : Q :=
  match x with
  | S754_finite s m e => if s then - val m e else val m e
  | _ => 0
  end.

(** The rational number a finite [double] holds. *)
Definition float_value (p : float) : Q := SF2Q (Prim2SF p).

(** A normal [double] (53 significant bits) whose exponent is far from
    both ends of the format, so that one drift neither overflows nor
    underflows. *)
Definition normal (p : float) : Prop :=
  exists s m e, Prim2SF p = S754_finite s m e /\
                (2 ^ 52 <= Zpos m < 2 ^ 53)%Z /\ (-1000 <= e <= 900)%Z.

(** Zero or [normal]. *)
Definition in_range (p : float) : Prop :=
  (exists s, Prim2SF p = S754_zero s) \/ normal p.

(** Rounding to nearest moves a normal result by less than 2^-52 of it. *)
Definition rel_err : Q := 1 # 4503599627370496.

(** The doubles [1.0 + (-5)/100.0] and [1.0 + 4/100.0]. *)
Definition least_factor : Q := 8556839292003942 # 9007199254740992.
Definition greatest_factor : Q := 4683743612465316 # 4503599627370496.

(** How far one drift can move a premium in binary64, rounding included. *)
Definition drift_min : Q := least_factor * (1 - rel_err).
Definition drift_max : Q := greatest_factor * (1 + rel_err).

(** The rounding allowed to one update, 2^-51, and to the hundred updates
    of the scenario, 2^-44. *)
Definition step_tolerance : Q := 1 # 2251799813685248.
Definition tolerance : Q := 1 # 17592186044416.

(** ** Rounding a product to binary64 *)

(** Where the bits shifted out lie in their interval: [r] is what was
    shifted out of [N] by [sh] places. *)
Definition loc_of_rem (r sh : Z) : location :=
  if (r =? 0)%Z then loc_Exact else loc_Inexact (2 * r ?= 2 ^ sh)%Z.

(** The integer the first shift and the rounding to nearest even leave. *)
Definition rne (N sh : Z) : Z :=
  round_nearest_even (N / 2 ^ sh)%Z (loc_of_rem (N mod 2 ^ sh)%Z sh).

(** What the second shift and the range check make of the rounded
    integer [m2] at exponent [c]. *)
Definition finish (s : bool) (m2 c : Z) : spec_float :=
  match m2 with
  | Z0 => S754_zero s
  | Zpos p =>
      if (m2 =? 2 ^ 53)%Z
      then if (c + 1 <=? 971)%Z then S754_finite s (2 ^ 52)%positive (c + 1)%Z
           else S754_infinity s
      else if (c <=? 971)%Z then S754_finite s p c else S754_infinity s
  | Zneg _ => S754_nan
  end.

(** The integer [binary_round] keeps of [N] when the exponent moves up by
    [sh]: an exact left shift when [sh <= 0], a rounding otherwise. *)
Definition shifted (N sh : Z) : Z :=
  if (sh <=? 0)%Z then (N * 2 ^ (- sh))%Z else rne N sh.

(** A double as a multiple of the least double [2^-1074]; the infinities
    lie beyond every finite double. *)
Definition key (x : spec_float) : Z :=
  match x with
  | S754_zero _ | S754_nan => 0%Z
  | S754_finite s m e => cond_Zopp s (Zpos m * 2 ^ (e + 1074))%Z
  | S754_infinity s => cond_Zopp s (2 ^ 2200)%Z
  end.

(** The doubles the literals [0.95] and [1.04] denote. *)
Definition double_0_95 : float := 0x1.e666666666666p-1.
Definition double_1_04 : float := 0x1.0a3d70a3d70a4p+0.

(** * Tactics *)

(** Runs a straight-line statement. *)
Ltac run := unfold exec, bind, ret, get_chain, put_chain, cout, emit; simpl.

(** Decides an inequality between two closed rationals. *)
Ltac by_computation := apply Qle_bool_iff; vm_compute; reflexivity.

(** Decides an inequality between two closed integers. *)
Ltac Zle_computed := apply Z.leb_le; vm_compute; reflexivity.

(** * Properties that hold for every arithmetic *)

Section Structure.

Context {double : Type} {ops : DoubleOps double}.

Local Open Scope string_scope.
Local Open Scope list_scope.

Lemma world_eta (w : World double) :
  mkWorld (chain w) (trace w) (rand_seq w) (rand_calls w) = w.
Proof. destruct w; reflexivity. Qed.

Lemma chain_eta (c : OptionChain double) :
  mkChain (options c) (observers c) = c.
Proof. destruct c; reflexivity. Qed.

(** *** The factory *)

Lemma createOption_other (type : string) (K P : double) (E : string) :
  type <> "Call" -> type <> "Put" -> createOption type K P E = None.
Proof.
  intros HC HP. unfold createOption.
  apply String.eqb_neq in HC. apply String.eqb_neq in HP.
  rewrite HC, HP. reflexivity.
Qed.

(** *** The registry *)

Lemma addOption_run (o : Option double) (w : World double) :
  exec (addOption o) w =
  mkWorld (mkChain (options (chain w) ++ [o]) (observers (chain w)))
    (trace w) (rand_seq w) (rand_calls w).
Proof. reflexivity. Qed.

Lemma displaySingleQuote_run (w : World double) :
  exec displaySingleQuote w =
  mkWorld (chain w)
    (trace w ++ map (@Cout double)
       match options (chain w) with [] => [] | first :: _ => displayInfo first end)
    (rand_seq w) (rand_calls w).
Proof.
  unfold displaySingleQuote. run.
  destruct (options (chain w)); run.
  - rewrite app_nil_r. symmetry. apply world_eta.
  - reflexivity.
Qed.

(** *** Notification *)

Lemma update_run (this : ptr) (w : World double) :
  update this w =
  (tt, mkWorld (chain w) (trace w ++ frame (options (chain w)) this)
         (rand_seq w) (rand_calls w)).
Proof.
  unfold update, displaySingleQuote, frame. run.
  destruct (options (chain w)); run; rewrite ?map_app;
    repeat rewrite <- app_assoc; reflexivity.
Qed.

Lemma for_each_update (obs : list ptr) (w : World double) :
  for_each update obs w =
  (tt, mkWorld (chain w)
         (trace w ++ flat_map (frame (options (chain w))) obs)
         (rand_seq w) (rand_calls w)).
Proof.
  revert w. induction obs as [|o obs IH]; intro w; simpl.
  - rewrite app_nil_r, world_eta. reflexivity.
  - unfold bind. rewrite update_run, IH. simpl.
    rewrite <- app_assoc. reflexivity.
Qed.

Lemma notifyObservers_run (w : World double) :
  exec notifyObservers w =
  mkWorld (chain w)
    (trace w ++ flat_map (frame (options (chain w))) (observers (chain w)))
    (rand_seq w) (rand_calls w).
Proof.
  unfold notifyObservers. run. rewrite for_each_update. reflexivity.
Qed.

Lemma update_calls_app (es fs : list (event double)) :
  update_calls (es ++ fs) = update_calls es ++ update_calls fs.
Proof.
  induction es as [|[o|t] es IH]; simpl; rewrite ?IH; reflexivity.
Qed.

Lemma update_calls_cout (ts : list (token double)) :
  update_calls (map (@Cout double) ts) = [].
Proof. induction ts; simpl; auto. Qed.

Lemma update_calls_frames (os : list (Option double)) (obs : list ptr) :
  update_calls (flat_map (frame os) obs) = obs.
Proof.
  induction obs as [|o obs IH]; simpl; [reflexivity|].
  rewrite update_calls_app, update_calls_cout, IH. reflexivity.
Qed.

(** *** The premium loop *)

Lemma for_each_ref_drift (os : list (Option double)) (w : World double) :
  for_each_ref drift os w =
  (drifted (rand_seq w) (rand_calls w) os,
   mkWorld (chain w) (trace w) (rand_seq w) (rand_calls w + List.length os)).
Proof.
  revert w. induction os as [|o os IH]; intro w; simpl.
  - unfold ret. rewrite Nat.add_0_r, world_eta. reflexivity.
  - unfold bind at 1. unfold drift at 1. unfold bind at 1, rand, ret at 1.
    unfold bind at 1. rewrite IH. simpl. unfold ret, getPremium, factor.
    rewrite Nat.add_succ_r. reflexivity.
Qed.

Lemma updateOptionPrices_run (w : World double) :
  exec updateOptionPrices w =
  let os := drifted (rand_seq w) (rand_calls w) (options (chain w)) in
  mkWorld (mkChain os (observers (chain w)))
    (trace w ++ flat_map (frame os) (observers (chain w)))
    (rand_seq w) (rand_calls w + List.length (options (chain w))).
Proof.
  unfold updateOptionPrices, notifyObservers. run.
  rewrite for_each_ref_drift. simpl. rewrite for_each_update. reflexivity.
Qed.

Lemma drifted_length seq n (os : list (Option double)) :
  List.length (drifted seq n os) = List.length os.
Proof. revert n; induction os; intro n; simpl; auto. Qed.

Lemma drifted_nth seq n (os : list (Option double)) i :
  nth_error (drifted seq n os) i =
  option_map (fun o => setPremium o (dmul (premium o) (factor (seq (n + i)%nat))))
    (nth_error os i).
Proof.
  revert n i. induction os as [|o os IH]; intros n [|i]; simpl; auto.
  - rewrite Nat.add_0_r. reflexivity.
  - rewrite IH. rewrite Nat.add_succ_r. reflexivity.
Qed.

Lemma drifted_frame seq n (os : list (Option double)) :
  map (@kind double) (drifted seq n os) = map (@kind double) os /\
  map (@strikePrice double) (drifted seq n os) = map (@strikePrice double) os /\
  map (@expiryDate double) (drifted seq n os) = map (@expiryDate double) os.
Proof.
  revert n. induction os as [|o os IH]; intro n; simpl; [auto|].
  destruct (IH (S n)) as (-> & -> & ->). auto.
Qed.

Lemma updates_S n (w : World double) :
  updates (S n) w = exec updateOptionPrices (updates n w).
Proof. reflexivity. Qed.

Lemma updates_rand_seq n (w : World double) :
  rand_seq (updates n w) = rand_seq w.
Proof.
  induction n; [reflexivity|].
  rewrite updates_S, updateOptionPrices_run. simpl. exact IHn.
Qed.

Lemma updates_rand_ok n (w : World double) :
  rand_ok w -> rand_ok (updates n w).
Proof. unfold rand_ok. rewrite updates_rand_seq. auto. Qed.

(** The premium loop multiplies each premium by the factor of its draw. *)
Lemma drift_nth (w : World double) (i : nat) (o : Option double) :
  nth_error (options (chain w)) i = Some o ->
  nth_error (options (chain (exec updateOptionPrices w))) i =
    Some (setPremium o
            (dmul (premium o) (factor (rand_seq w (rand_calls w + i)%nat)))).
Proof.
  intro Hi. rewrite updateOptionPrices_run. simpl.
  rewrite drifted_nth, Hi. reflexivity.
Qed.

(** A property of premiums that one drift keeps is kept by any number of
    calls of [updateOptionPrices]. *)
Lemma premium_invariant (P : double -> Prop) :
  (forall p x, (0 <= x)%Z -> P p -> P (dmul p (factor x))) ->
  forall (n : nat) (w : World double) (i : nat) (o : Option double),
    rand_ok w ->
    nth_error (options (chain w)) i = Some o ->
    P (premium o) ->
    exists o', nth_error (options (chain (updates n w))) i = Some o' /\
               P (premium o').
Proof.
  intros Hstep n w i o Hok Hi HP. induction n as [|n (o1 & H1 & Hp1)].
  - exists o. split; assumption.
  - rewrite updates_S. rewrite (drift_nth _ _ _ H1).
    eexists. split; [reflexivity|]. simpl.
    apply Hstep; [|exact Hp1]. rewrite updates_rand_seq. apply Hok.
Qed.

(** *** The claims that do not depend on arithmetic *)

(** C2.  For every strike, premium and expiry, [createOption] returns a
    non-null [CallOption] for the tag "Call" and a non-null [PutOption] for
    the tag "Put", each holding exactly the strike, premium and expiry it
    was given, and the null pointer for every other tag. *)
Theorem createOption_by_tag (K P : double) (E : string) :
  createOption "Call" K P E = Some (mkOption Call K P E) /\
  createOption "Put" K P E = Some (mkOption Put K P E) /\
  (forall type, type <> "Call" -> type <> "Put" -> createOption type K P E = None).
Proof.
  split; [reflexivity|]. split; [reflexivity|].
  intros type HC HP. now apply createOption_other.
Qed.

(** Registering observers one after the other appends them, in that
    order, and touches nothing else. *)
Lemma registerObservers_run (obs : list ptr) (w : World double) :
  exec (for_each registerObserver obs) w =
  mkWorld (mkChain (options (chain w)) (observers (chain w) ++ obs))
    (trace w) (rand_seq w) (rand_calls w).
Proof.
  unfold exec. revert w. induction obs as [|o obs IH]; intro w.
  - cbn. rewrite app_nil_r, chain_eta. symmetry. apply world_eta.
  - cbn [for_each]. unfold bind at 1.
    change (registerObserver o w) with
      (tt, mkWorld (mkChain (options (chain w)) (observers (chain w) ++ [o]))
             (trace w) (rand_seq w) (rand_calls w)).
    cbv beta iota. rewrite IH.
    cbn [chain options observers trace rand_seq rand_calls].
    rewrite <- app_assoc. reflexivity.
Qed.

(** Adding contracts one after the other appends them and leaves the
    observers as they are. *)
Lemma addOptions_run (added : list (Option double)) (w : World double) :
  exec (for_each addOption added) w =
  mkWorld (mkChain (options (chain w) ++ added) (observers (chain w)))
    (trace w) (rand_seq w) (rand_calls w).
Proof.
  unfold exec. revert w. induction added as [|o added IH]; intro w.
  - cbn. rewrite app_nil_r, chain_eta. symmetry. apply world_eta.
  - cbn [for_each]. unfold bind at 1.
    change (addOption o w) with
      (tt, mkWorld (mkChain (options (chain w) ++ [o]) (observers (chain w)))
             (trace w) (rand_seq w) (rand_calls w)).
    cbv beta iota. rewrite IH.
    cbn [chain options observers trace rand_seq rand_calls].
    rewrite <- app_assoc. reflexivity.
Qed.

(** C4, amended.  The observers of a chain are those [registerObserver] was
    called with, in the order of the calls: registering [obs] appends them
    to the observers registered before, whatever contracts are added
    afterwards.  One call of [updateOptionPrices] then first rewrites every
    premium and only then notifies: the events it adds to the trace are one
    [update()] per registration, in registration order, each drawn from the
    registry as it is after the whole premium loop, and the notification
    changes no contract.  So an observer is notified as many times as it was
    registered: exactly once when it was registered once, and not at all
    when it was not registered. *)
Theorem updateOptionPrices_notifies (w : World double) (obs : list ptr)
  (added : list (Option double)) :
  let w1 := exec (for_each addOption added)
              (exec (for_each registerObserver obs) w) in
  let w' := exec updateOptionPrices w1 in
  let os' := drifted (rand_seq w) (rand_calls w) (options (chain w) ++ added) in
  let registered := observers (chain w) ++ obs in
  observers (chain w1) = registered /\
  trace w1 = trace w /\
  (observers (chain w) = [] -> observers (chain w1) = obs) /\
  exists news,
    trace w' = trace w1 ++ news /\
    options (chain w') = os' /\
    observers (chain w') = registered /\
    news = flat_map (frame os') registered /\
    update_calls news = registered /\
    (forall o, count_occ Nat.eq_dec (update_calls news) o =
               count_occ Nat.eq_dec registered o) /\
    (forall o, count_occ Nat.eq_dec registered o = 1%nat ->
               count_occ Nat.eq_dec (update_calls news) o = 1%nat) /\
    (forall o, ~ In o registered -> ~ In o (update_calls news)).
Proof.
  intros w1 w' os' registered. subst w1 w'.
  rewrite registerObservers_run, addOptions_run.
  cbn [chain options observers trace rand_seq rand_calls]. fold registered.
  split; [reflexivity|]. split; [reflexivity|].
  split; [intro Hfresh; unfold registered; rewrite Hfresh; reflexivity|].
  rewrite updateOptionPrices_run.
  cbv zeta. cbn [chain options observers trace rand_seq rand_calls].
  fold os' registered.
  exists (flat_map (frame os') registered).
  rewrite update_calls_frames.
  split; [reflexivity|]. split; [reflexivity|]. split; [reflexivity|].
  split; [reflexivity|]. split; [reflexivity|]. split; [reflexivity|].
  split; [intros o Ho; exact Ho | intros o Ho; exact Ho].
Qed.

(** C5, amended.  [addOption] appends, and [displaySingleQuote] shows the
    contract added earliest: after adding [A] then [B] it shows the contract
    that was first before the two additions, which is [A] exactly when the
    registry was empty; on an empty registry it writes nothing. *)
Theorem displaySingleQuote_earliest (w : World double) (A B : Option double) :
  let w2 := exec (addOption B) (exec (addOption A) w) in
  options (chain w2) = options (chain w) ++ [A; B] /\
  trace (exec displaySingleQuote w2) =
    trace w2 ++ map (@Cout double) (displayInfo (hd A (options (chain w)))) /\
  (options (chain w) = [] ->
   trace (exec displaySingleQuote w2) =
     trace w2 ++ map (@Cout double) (displayInfo A)) /\
  (options (chain w) = [] -> exec displaySingleQuote w = w).
Proof.
  intros w2. subst w2. rewrite !addOption_run. simpl.
  split; [now rewrite <- app_assoc|].
  rewrite !displaySingleQuote_run. simpl.
  split; [|split].
  - destruct (options (chain w)); reflexivity.
  - intros ->. reflexivity.
  - intros ->. rewrite app_nil_r. apply world_eta.
Qed.

(** C7.  When the type read is neither "Call" nor "Put", [execute] leaves
    the chain as it was (no contract is added, the values read are dropped)
    and, after its prompts, writes "Invalid option type. Trade not
    executed." *)
Theorem execute_invalid_type (input : TradeInput double) (w : World double) :
  in_optionType input <> "Call" ->
  in_optionType input <> "Put" ->
  createOption (in_optionType input) (in_strikePrice input)
    (in_premium input) (in_expiry input) = None /\
  chain (exec (execute input) w) = chain w /\
  trace (exec (execute input) w) =
    trace w ++
    map (@Cout double)
      [TEndl;
       TStr "Enter option type (Call/Put): ";
       TStr "Enter strike price: ";
       TStr "Enter premium: ";
       TStr "Enter expiry date (YYYY-MM-DD): ";
       TStr "Enter quantity: ";
       TStr "Invalid option type. Trade not executed."; TEndl].
Proof.
  intros HC HP.
  pose proof (createOption_other (in_optionType input) (in_strikePrice input)
                (in_premium input) (in_expiry input) HC HP) as Hnone.
  split; [exact Hnone|].
  unfold execute. rewrite Hnone. run.
  split; [reflexivity|].
  repeat rewrite <- app_assoc. reflexivity.
Qed.

(** C9.  [updateOptionPrices] writes through [setPremium] only: every
    position of the registry holds the contract it held before with at most
    its premium replaced, so the number and order of the contracts, their
    dynamic types, strike prices and expiry dates are unchanged, and
    [setPremium] itself changes no other field. *)
Theorem updateOptionPrices_frame (w : World double) :
  let os := options (chain w) in
  let os' := options (chain (exec updateOptionPrices w)) in
  Forall2 (fun o o' => o' = setPremium o (premium o')) os os' /\
  List.length os' = List.length os /\
  map (@kind double) os' = map (@kind double) os /\
  map (@strikePrice double) os' = map (@strikePrice double) os /\
  map (@expiryDate double) os' = map (@expiryDate double) os /\
  (forall (o : Option double) p,
     kind (setPremium o p) = kind o /\
     strikePrice (setPremium o p) = strikePrice o /\
     expiryDate (setPremium o p) = expiryDate o /\
     premium (setPremium o p) = p).
Proof.
  intros os os'. subst os os'. rewrite updateOptionPrices_run. simpl.
  split; [|split; [apply drifted_length|]].
  - generalize (rand_calls w). induction (options (chain w)) as [|o os IH];
      intro n; simpl; constructor; [reflexivity | apply IH].
  - destruct (drifted_frame (rand_seq w) (rand_calls w) (options (chain w)))
      as (Hk & Hs & He).
    repeat split; assumption.
Qed.


End Structure.

(** * Properties in exact arithmetic *)

Section Exact.

Local Open Scope string_scope.
Local Open Scope list_scope.
Local Open Scope Q_scope.

(** [std::max] on rationals is the maximum. *)
Lemma std_max_Qmax (a b : Q) : std_max a b = Qmax a b.
Proof.
  unfold std_max, Qmax, GenericMinMax.gmax. simpl.
  destruct (a ?= b); reflexivity.
Qed.

(** [rand() % 10 - 5] lies between -5 and 4. *)
Lemma draw_range (x : Z) :
  (0 <= x)%Z -> (-5 <= Z.rem x 10 - 5 <= 4)%Z.
Proof.
  intro Hx. pose proof (Z.rem_bound_pos x 10 Hx ltac:(lia)). lia.
Qed.

Lemma factor_eq (x : Z) :
  factor x = 1 + inject_Z (Z.rem x 10 - 5) / 100.
Proof. reflexivity. Qed.

Lemma factor_range (x : Z) :
  (0 <= x)%Z -> (95 # 100) <= factor x <= (104 # 100).
Proof.
  intro Hx. rewrite factor_eq.
  pose proof (draw_range x Hx) as Hr.
  set (r := (Z.rem x 10 - 5)%Z) in *.
  assert (inject_Z (-5) <= inject_Z r <= inject_Z 4) as [Hlo Hhi]
    by (split; rewrite <- Zle_Qle; lia).
  change (inject_Z (-5)) with (-5 # 1) in Hlo.
  change (inject_Z 4) with (4 # 1) in Hhi.
  generalize dependent (inject_Z r). intros q Hlo Hhi.
  unfold Qdiv. change (/ 100) with (1 # 100).
  split; lra.
Qed.

Lemma factor_pos (x : Z) : (0 <= x)%Z -> 0 < factor x.
Proof. intro Hx. destruct (factor_range x Hx). lra. Qed.

Lemma scale_nonneg (p f : Q) :
  (95 # 100) <= f <= (104 # 100) -> 0 <= p ->
  (95 # 100) * p <= p * f <= (104 # 100) * p.
Proof. intros [Hlo Hhi] Hp. split; nra. Qed.

Lemma scale_nonpos (p f : Q) :
  (95 # 100) <= f <= (104 # 100) -> p <= 0 ->
  (104 # 100) * p <= p * f <= (95 # 100) * p.
Proof. intros [Hlo Hhi] Hp. split; nra. Qed.

Lemma scale_pos (p f : Q) : 0 < f -> 0 < p -> 0 < p * f.
Proof. intros Hf Hp. nra. Qed.

(** A positive premium stays positive through any number of updates. *)
Lemma positive_premium_kept (n : nat) (w : World Q) (i : nat) (o : Option Q) :
  rand_ok w ->
  nth_error (options (chain w)) i = Some o ->
  0 < premium o ->
  exists o', nth_error (options (chain (updates n w))) i = Some o' /\
             0 < premium o'.
Proof.
  apply (premium_invariant (fun p => 0 < p)).
  intros p x Hx Hp. apply scale_pos; [apply factor_pos, Hx | exact Hp].
Qed.

(** Through any number of updates a positive premium stays positive, and a
    premium is negative afterwards only if it was before. *)
Lemma premium_sign_exact (n : nat) (w : World Q) (i : nat) (o : Option Q) :
  rand_ok w ->
  nth_error (options (chain w)) i = Some o ->
  exists o',
    nth_error (options (chain (updates n w))) i = Some o' /\
    (0 < premium o -> 0 < premium o') /\
    (premium o' < 0 -> premium o < 0).
Proof.
  intros Hok Hi.
  destruct (premium_invariant (fun _ => True) (fun _ _ _ _ => I)
              n w i o Hok Hi I) as (o' & Hi' & _).
  exists o'. split; [exact Hi'|]. split.
  - intro Hpos.
    destruct (positive_premium_kept n w i o Hok Hi Hpos) as (o1 & Hi1 & H1).
    rewrite Hi' in Hi1. injection Hi1 as <-. exact H1.
  - intro Hneg. destruct (Qlt_le_dec (premium o) 0) as [Hlt|Hge];
      [exact Hlt|].
    assert (forall p x, (0 <= x)%Z -> 0 <= p -> 0 <= dmul p (factor x))
      as Hstep.
    { intros p x Hx Hp. change (0 <= p * factor x).
      apply Qmult_le_0_compat; [exact Hp | apply Qlt_le_weak, factor_pos, Hx]. }
    destruct (premium_invariant (fun p => 0 <= p) Hstep n w i o Hok Hi Hge)
      as (o1 & Hi1 & H1).
    rewrite Hi' in Hi1. injection Hi1 as <-. lra.
Qed.

Lemma Qpow_S (a : Q) (n : nat) :
  a ^ Z.of_nat (S n) == a * a ^ Z.of_nat n.
Proof.
  rewrite Nat2Z.inj_succ. unfold Z.succ. rewrite Z.add_comm.
  rewrite Qpower_plus'; [|lia]. reflexivity.
Qed.

Lemma Qpow_shrink (a : Q) (n m : nat) :
  0 <= a <= 1 -> (n <= m)%nat -> a ^ Z.of_nat m <= a ^ Z.of_nat n.
Proof.
  intros [Ha0 Ha1] Hnm. induction Hnm as [|m Hnm IH].
  - apply Qle_refl.
  - rewrite Qpow_S.
    assert (0 <= a ^ Z.of_nat m) by (apply Qpower_0_le; assumption).
    nra.
Qed.

Lemma Qpow_grow (a : Q) (n m : nat) :
  1 <= a -> (n <= m)%nat -> a ^ Z.of_nat n <= a ^ Z.of_nat m.
Proof.
  intros Ha Hnm. apply Qpower_le_compat_l; [lia | assumption].
Qed.

(** The single contract of the scenario after [n] updates. *)
Lemma single_call_after (n : nat) (w : World Q) (E : string) :
  rand_ok w ->
  options (chain w) = [CallOption 100 5 E] ->
  exists p, options (chain (updates n w)) = [CallOption 100 p E] /\
            5 * (95 # 100) ^ Z.of_nat n <= p <= 5 * (104 # 100) ^ Z.of_nat n.
Proof.
  intros Hok H0. induction n as [|n (p & Hn & Hlo & Hhi)].
  - exists 5. split; [exact H0|]. simpl. split; lra.
  - rewrite updates_S, updateOptionPrices_run.
    cbn [chain options]. rewrite Hn. cbn [drifted].
    eexists. split; [reflexivity|]. cbn [premium CallOption].
    match goal with |- context [factor ?x] => set (f := factor x) end.
    assert ((95 # 100) <= f <= (104 # 100)) as [Hf1 Hf2].
    { apply factor_range. rewrite updates_rand_seq. apply Hok. }
    change (@dmul Q Q_ops) with Qmult.
    rewrite !Qpow_S.
    assert (0 < (95 # 100) ^ Z.of_nat n) as Ha
      by (apply Qpower_0_lt; reflexivity).
    assert (0 < (104 # 100) ^ Z.of_nat n) as Hb
      by (apply Qpower_0_lt; reflexivity).
    set (a := (95 # 100) ^ Z.of_nat n) in *.
    set (b := (104 # 100) ^ Z.of_nat n) in *.
    assert (5 * a * (95 # 100) <= p * f)
      by (apply Qmult_le_compat_nonneg; split; lra).
    assert (p * f <= 5 * b * (104 # 100))
      by (apply Qmult_le_compat_nonneg; split; lra).
    split; lra.
Qed.

(** *** The numeric statements in exact arithmetic *)

(** The payoff of a call is max(0, M - K) - P, that of a put is
    max(0, K - M) - P. *)
Lemma payoff_exact (K P M : Q) (E : string) :
  calculatePayoff (CallOption K P E) M = Qmax 0 (M - K) - P /\
  calculatePayoff (PutOption K P E) M = Qmax 0 (K - M) - P.
Proof.
  unfold calculatePayoff. cbn [kind CallOption PutOption strikePrice premium].
  rewrite !std_max_Qmax. split; reflexivity.
Qed.

(** One call of [updateOptionPrices] replaces the premium [p] of every
    contract by [p * (1 + r/100)] for an integer [r] between -5 and 4; the
    new premium lies within [0.95 p, 1.04 p] when [p] is not negative, and
    within [1.04 p, 0.95 p] when [p] is not positive. *)
Lemma premium_step_exact (w : World Q) (i : nat) (o : Option Q) :
  rand_ok w ->
  nth_error (options (chain w)) i = Some o ->
  exists (r : Z) (o' : Option Q),
    (-5 <= r <= 4)%Z /\
    nth_error (options (chain (exec updateOptionPrices w))) i = Some o' /\
    o' = setPremium o (premium o') /\
    premium o' = premium o * (1 + inject_Z r / 100) /\
    (0 <= premium o ->
     (95 # 100) * premium o <= premium o' <= (104 # 100) * premium o) /\
    (premium o <= 0 ->
     (104 # 100) * premium o <= premium o' <= (95 # 100) * premium o).
Proof.
  intros Hok Hi.
  set (x := rand_seq w (rand_calls w + i)%nat).
  exists (Z.rem x 10 - 5)%Z, (setPremium o (premium o * factor x)).
  split; [apply draw_range, Hok|].
  split; [exact (drift_nth w i o Hi)|].
  split; [reflexivity|]. split; [reflexivity|].
  cbn [premium setPremium].
  split; intro Hp.
  - apply scale_nonneg; [apply factor_range, Hok | exact Hp].
  - apply scale_nonpos; [apply factor_range, Hok | exact Hp].
Qed.

(** From the single contract Call(strike 100, premium 5), after any number
    [n <= 100] of updates the premium lies between 5 * 0.95^100 and
    5 * 1.04^100. *)
Lemma premium_bounds_exact (n : nat) (w : World Q) (E : string) :
  rand_ok w ->
  options (chain w) = [CallOption 100 5 E] ->
  (n <= 100)%nat ->
  exists p, options (chain (updates n w)) = [CallOption 100 p E] /\
            5 * (95 # 100) ^ 100 <= p <= 5 * (104 # 100) ^ 100.
Proof.
  intros Hok H0 Hn.
  destruct (single_call_after n w E Hok H0) as (p & Hp & Hlo & Hhi).
  exists p. split; [exact Hp|].
  assert ((95 # 100) ^ Z.of_nat 100 <= (95 # 100) ^ Z.of_nat n) as Hs
    by (apply Qpow_shrink; [split; discriminate | exact Hn]).
  assert ((104 # 100) ^ Z.of_nat n <= (104 # 100) ^ Z.of_nat 100) as Hg
    by (apply Qpow_grow; [discriminate | exact Hn]).
  change (Z.of_nat 100) with 100%Z in Hs, Hg.
  set (a := (95 # 100) ^ Z.of_nat n) in *.
  set (b := (104 # 100) ^ Z.of_nat n) in *.
  set (a100 := (95 # 100) ^ 100) in *.
  set (b100 := (104 # 100) ^ 100) in *.
  split; lra.
Qed.

End Exact.

(** * Properties in binary64 *)

Section Binary64.

Local Open Scope Z_scope.

(** *** The sign of a rounded product *)

Lemma shr_1_half mrs :
  0 <= shr_m mrs -> shr_m (shr_1 mrs) = shr_m mrs / 2.
Proof.
  destruct mrs as [m r s]. simpl. intro H.
  destruct m as [|p|p]; [reflexivity| |lia].
  destruct p as [p|p|]; simpl.
  - rewrite Pos2Z.inj_xI. apply Z.div_unique with 1; lia.
  - rewrite Pos2Z.inj_xO. apply Z.div_unique with 0; lia.
  - reflexivity.
Qed.

Lemma shr_1_keeps mrs : 0 <= shr_m mrs -> 0 <= shr_m (shr_1 mrs).
Proof. intro H. rewrite shr_1_half by exact H. apply Z.div_pos; lia. Qed.

Lemma iter_shr_1 (n : positive) : forall mrs,
  0 <= shr_m mrs ->
  0 <= shr_m (iter_pos shr_1 n mrs) /\
  shr_m (iter_pos shr_1 n mrs) = shr_m mrs / 2 ^ Zpos n.
Proof.
  induction n as [n IH|n IH|]; intros mrs H; simpl iter_pos.
  - pose proof (shr_1_keeps mrs H) as H1.
    destruct (IH _ H1) as [H2 E2]. destruct (IH _ H2) as [H3 E3].
    split; [exact H3|]. rewrite E3, E2, shr_1_half by exact H.
    rewrite !Z.div_div by lia. f_equal.
    rewrite Pos2Z.inj_xI. rewrite <- Z.pow_add_r by lia.
    replace (2 * (2 ^ (Zpos n + Zpos n))) with (2 ^ Z.succ (Zpos n + Zpos n))
      by (rewrite Z.pow_succ_r; lia).
    f_equal. lia.
  - destruct (IH _ H) as [H2 E2]. destruct (IH _ H2) as [H3 E3].
    split; [exact H3|]. rewrite E3, E2.
    rewrite Z.div_div by lia. f_equal.
    rewrite Pos2Z.inj_xO. rewrite <- Z.pow_add_r by lia. f_equal. lia.
  - split; [apply shr_1_keeps, H|]. rewrite shr_1_half by exact H. reflexivity.
Qed.

Lemma shr_fexp_keeps m e l :
  0 <= m -> 0 <= shr_m (fst (shr_fexp prec emax m e l)).
Proof.
  intro H. unfold shr_fexp, shr.
  assert (0 <= shr_m (shr_record_of_loc m l)) as H'
    by (destruct l as [|[]]; exact H).
  destruct (fexp prec emax (Zdigits2 m + e) - e); simpl; auto.
  apply iter_shr_1, H'.
Qed.

Lemma round_nearest_even_range m l :
  m <= round_nearest_even m l <= m + 1.
Proof.
  destruct l as [|[]]; simpl; try lia. destruct (Z.even m); lia.
Qed.

Lemma binary_round_aux_nonneg m e l :
  0 <= m -> nonneg_sf (binary_round_aux prec emax false m e l).
Proof.
  intro H. unfold binary_round_aux.
  pose proof (shr_fexp_keeps m e l H) as H1.
  destruct (shr_fexp prec emax m e l) as [mrs' e']. simpl in H1.
  pose proof (round_nearest_even_range (shr_m mrs') (loc_of_shr_record mrs'))
    as [Hr _].
  pose proof (shr_fexp_keeps _ e' loc_Exact (Z.le_trans _ _ _ H1 Hr)) as H2.
  destruct (shr_fexp prec emax _ e' loc_Exact) as [mrs'' e'']. simpl in H2.
  destruct (shr_m mrs''); [exact I| |lia].
  destruct (e'' <=? emax - prec); exact I.
Qed.

Lemma SFmul_nonneg x m e :
  nonneg_sf x -> nonneg_sf (SFmul prec emax x (S754_finite false m e)).
Proof.
  destruct x as [[]|[]| |[] mx ex]; simpl; try tauto.
  intros _. apply binary_round_aux_nonneg. lia.
Qed.

Lemma positive_nonneg (p : float) :
  PrimFloat.ltb 0 p = true -> nonneg_sf (Prim2SF p).
Proof.
  rewrite FloatAxioms.ltb_spec. change (Prim2SF 0) with (S754_zero false).
  unfold SFltb.
  destruct (Prim2SF p) as [[]|[]| |[] m e]; simpl; try discriminate; auto.
Qed.

Lemma nonneg_not_negative (p : float) :
  nonneg_sf (Prim2SF p) -> PrimFloat.ltb p 0 = false.
Proof.
  rewrite FloatAxioms.ltb_spec. change (Prim2SF 0) with (S754_zero false).
  unfold SFltb. destruct (Prim2SF p) as [[]|[]| |[] m e]; simpl; tauto.
Qed.

(** *** The ten factors *)

Lemma draw_cases (x : Z) :
  0 <= x ->
  Z.rem x 10 = 0 \/ Z.rem x 10 = 1 \/ Z.rem x 10 = 2 \/ Z.rem x 10 = 3 \/
  Z.rem x 10 = 4 \/ Z.rem x 10 = 5 \/ Z.rem x 10 = 6 \/ Z.rem x 10 = 7 \/
  Z.rem x 10 = 8 \/ Z.rem x 10 = 9.
Proof.
  intro Hx. pose proof (Z.rem_bound_pos x 10 Hx ltac:(lia)). lia.
Qed.

(** Each factor is a normal double between the doubles 0.95 and 1.04. *)
Lemma factor_binary64 (x : Z) :
  0 <= x ->
  exists mf ef,
    Prim2SF (factor (double := float) x) = S754_finite false mf ef /\
    2 ^ 52 <= Zpos mf < 2 ^ 53 /\
    -53 <= ef <= -52 /\
    (least_factor <= val mf ef <= greatest_factor)%Q.
Proof.
  intro Hx. unfold factor.
  pose proof (draw_cases x Hx) as Hc.
  repeat (destruct Hc as [Hc|Hc]); rewrite Hc;
    (eexists; eexists; split; [vm_compute; reflexivity|];
     split; [split; [apply Z.leb_le | apply Z.ltb_lt]; vm_compute; reflexivity|];
     split; [lia|]; split; by_computation).
Qed.

Lemma drift_nonneg (p : float) (x : Z) :
  0 <= x -> nonneg_sf (Prim2SF p) ->
  nonneg_sf (Prim2SF (dmul p (factor x))).
Proof.
  intros Hx Hp. destruct (factor_binary64 x Hx) as (m & e & Hf & _).
  change (dmul p (factor x)) with (PrimFloat.mul p (factor x)).
  rewrite FloatAxioms.mul_spec, Hf. apply SFmul_nonneg, Hp.
Qed.

(** *** The size of a rounded product *)

Lemma digits2_pos_size (p : positive) : digits2_pos p = Pos.size p.
Proof. induction p; simpl; congruence. Qed.

Lemma digits2_bounds (m : positive) :
  2 ^ (Zpos (digits2_pos m) - 1) <= Zpos m < 2 ^ Zpos (digits2_pos m).
Proof.
  rewrite digits2_pos_size.
  pose proof (Pos.size_gt m) as Hgt. pose proof (Pos.size_le m) as Hle.
  apply Pos2Z.pos_lt_pos in Hgt. apply Pos2Z.pos_le_pos in Hle.
  rewrite Pos2Z.inj_pow in Hgt, Hle.
  change (Zpos m~0) with (2 * Zpos m) in Hle.
  split; [|exact Hgt].
  replace (Zpos (Pos.size m)) with (Z.succ (Zpos (Pos.size m) - 1)) in Hle by lia.
  rewrite Z.pow_succ_r in Hle by lia. lia.
Qed.

Lemma digits2_unique (m : positive) (k : Z) :
  2 ^ (k - 1) <= Zpos m < 2 ^ k -> Zpos (digits2_pos m) = k.
Proof.
  intros [Hlo Hhi]. pose proof (digits2_bounds m) as [Dlo Dhi].
  set (d := Zpos (digits2_pos m)) in *.
  assert (0 < d) by (subst d; lia).
  assert (0 < k).
  { destruct (Z_lt_le_dec 0 k); [assumption|].
    assert (2 ^ k <= 2 ^ 0) by (apply Z.pow_le_mono_r; lia).
    simpl in *. lia. }
  destruct (Z_lt_le_dec d k) as [Hlt|Hge].
  - assert (2 ^ d <= 2 ^ (k - 1)) by (apply Z.pow_le_mono_r; lia). lia.
  - destruct (Z_lt_le_dec k d) as [Hlt|Hge']; [|lia].
    assert (2 ^ k <= 2 ^ (d - 1)) by (apply Z.pow_le_mono_r; lia). lia.
Qed.

Lemma fexp_normal k : -1074 <= k - 53 -> fexp prec emax k = k - 53.
Proof. unfold fexp, emin, prec, emax. lia. Qed.

(** Rounding a mantissa [M] of more than 53 bits, away from overflow and
    underflow: the result is normal and at most one unit of its last
    place away from [M]. *)
Lemma round_product (s : bool) (pM : positive) (E sh : Z) :
  sh = Zpos (digits2_pos pM) - 53 ->
  0 < sh -> -1074 <= E + sh -> E + sh + 1 <= 971 ->
  exists m' e',
    binary_round_aux prec emax s (Zpos pM) E loc_Exact =
      S754_finite s m' e' /\
    2 ^ 52 <= Zpos m' < 2 ^ 53 /\
    E + sh <= e' <= E + sh + 1 /\
    2 ^ (sh + 52) <= Zpos pM /\
    Zpos pM - 2 ^ sh <= Zpos m' * 2 ^ (e' - E) <= Zpos pM + 2 ^ sh.
Proof.
  intros Hd Hsh Hlo Hhi.
  set (M := Zpos pM) in *.
  pose proof (digits2_bounds pM) as [Dlo Dhi]. fold M in Dlo, Dhi.
  set (d := Zpos (digits2_pos pM)) in *.
  assert (2 ^ d = 2 ^ sh * 2 ^ 53) as Hpow
    by (rewrite <- Z.pow_add_r by lia; f_equal; lia).
  assert (2 ^ (d - 1) = 2 ^ sh * 2 ^ 52) as Hpow1
    by (rewrite <- Z.pow_add_r by lia; f_equal; lia).
  assert (0 < 2 ^ sh) as Hpos by (apply Z.pow_pos_nonneg; lia).
  set (m1 := M / 2 ^ sh).
  assert (m1 * 2 ^ sh <= M < (m1 + 1) * 2 ^ sh) as [Hdiv1 Hdiv2].
  { unfold m1. split.
    - rewrite Z.mul_comm. apply Z.mul_div_le. exact Hpos.
    - rewrite Z.mul_comm.
      replace (M / 2 ^ sh + 1) with (Z.succ (M / 2 ^ sh)) by lia.
      apply Z.mul_succ_div_gt. exact Hpos. }
  assert (2 ^ 52 <= m1 < 2 ^ 53) as [Hm1lo Hm1hi].
  { unfold m1. split.
    - apply Z.div_le_lower_bound; [exact Hpos|]. lia.
    - apply Z.div_lt_upper_bound; [exact Hpos|]. lia. }
  destruct sh as [|psh|psh] eqn:Hs; try lia.
  assert (shr_fexp prec emax M E loc_Exact =
          (iter_pos shr_1 psh (Build_shr_record M false false), E + Zpos psh))
    as H1.
  { unfold shr_fexp. change (Zdigits2 M) with d.
    rewrite fexp_normal by lia.
    replace (d + E - 53 - E) with (Zpos psh) by lia. reflexivity. }
  unfold binary_round_aux. rewrite H1.
  destruct (iter_shr_1 psh (Build_shr_record M false false)) as [Hn Hq];
    [simpl; lia|].
  simpl shr_m in Hq. fold m1 in Hq.
  set (mrs := iter_pos shr_1 psh (Build_shr_record M false false)) in *.
  rewrite Hq.
  pose proof (round_nearest_even_range m1 (loc_of_shr_record mrs)) as [Hr1 Hr2].
  set (m2 := round_nearest_even m1 (loc_of_shr_record mrs)) in *.
  destruct m2 as [|p2|p2] eqn:Hm2; try lia.
  destruct (Z_lt_le_dec (Zpos p2) (2 ^ 53)) as [Hlt|Hge].
  - (* the rounded mantissa still has 53 bits *)
    assert (shr_fexp prec emax (Zpos p2) (E + Zpos psh) loc_Exact =
            (Build_shr_record (Zpos p2) false false, E + Zpos psh)) as H2.
    { unfold shr_fexp. simpl Zdigits2.
      rewrite (digits2_unique p2 53) by (simpl; lia).
      rewrite fexp_normal by lia.
      replace (53 + (E + Zpos psh) - 53 - (E + Zpos psh)) with 0 by lia.
      reflexivity. }
    rewrite H2. simpl shr_m.
    replace (E + Zpos psh <=? emax - prec) with true
      by (symmetry; apply Z.leb_le; unfold emax, prec; lia).
    exists p2, (E + Zpos psh). split; [reflexivity|].
    split; [lia|]. split; [lia|]. split; [rewrite Z.pow_add_r by lia; lia|].
    replace (E + Zpos psh - E) with (Zpos psh) by lia. nia.
  - (* rounding up reached 2^53 *)
    assert (Zpos p2 = 2 ^ 53) as Hp2 by lia.
    assert (shr_fexp prec emax (Zpos p2) (E + Zpos psh) loc_Exact =
            (shr_1 (Build_shr_record (Zpos p2) false false), E + Zpos psh + 1))
      as H2.
    { unfold shr_fexp. simpl Zdigits2.
      rewrite (digits2_unique p2 54) by (rewrite Hp2; simpl; lia).
      rewrite fexp_normal by lia.
      replace (54 + (E + Zpos psh) - 53 - (E + Zpos psh)) with 1 by lia.
      reflexivity. }
    rewrite H2.
    rewrite shr_1_half by (simpl; lia). simpl shr_m. rewrite Hp2.
    change (2 ^ 53 / 2) with (Zpos (2 ^ 52)).
    replace (E + Zpos psh + 1 <=? emax - prec) with true
      by (symmetry; apply Z.leb_le; unfold emax, prec; lia).
    exists (2 ^ 52)%positive, (E + Zpos psh + 1). split; [reflexivity|].
    split; [simpl; lia|]. split; [lia|].
    split; [rewrite Z.pow_add_r by lia; lia|].
    replace (E + Zpos psh + 1 - E) with (Z.succ (Zpos psh)) by lia.
    rewrite Z.pow_succ_r by lia.
    change (Zpos (2 ^ 52)) with (2 ^ 52).
    assert (m1 + 1 = 2 ^ 53) by lia.
    change (2 ^ 53) with (2 * 2 ^ 52) in *. nia.
Qed.

Lemma product_digits (m mf : positive) :
  2 ^ 52 <= Zpos m < 2 ^ 53 -> 2 ^ 52 <= Zpos mf < 2 ^ 53 ->
  52 <= Zpos (digits2_pos (m * mf)) - 53 <= 53.
Proof.
  intros [H1 H2] [H3 H4].
  assert (2 ^ 104 <= Zpos (m * mf) < 2 ^ 106) as [Hlo Hhi].
  { rewrite Pos2Z.inj_mul.
    change (2 ^ 104) with (2 ^ 52 * 2 ^ 52).
    change (2 ^ 106) with (2 ^ 53 * 2 ^ 53). nia. }
  destruct (Z_lt_le_dec (Zpos (m * mf)) (2 ^ 105)) as [Hlt|Hge].
  - rewrite (digits2_unique (m * mf) 105); [lia|]. split; [exact Hlo | exact Hlt].
  - rewrite (digits2_unique (m * mf) 106); [lia|]. split; [exact Hge | exact Hhi].
Qed.

(** *** The order of rounded products *)

(** Rounding to nearest even is monotone, so a product by a larger factor
    rounds to a double that is not smaller.  [binary_round_aux] is first
    brought to a closed form: [finish] of [rne]. *)

Lemma iter_pos_nat {A} (f : A -> A) (n : positive) (x : A) :
  iter_pos f n x = Nat.iter (Pos.to_nat n) f x.
Proof.
  revert x. induction n as [n IH|n IH|]; intro x; cbn [iter_pos].
  - rewrite !IH, Pos2Nat.inj_xI.
    replace (S (2 * Pos.to_nat n))%nat
      with (Pos.to_nat n + (Pos.to_nat n + 1))%nat by lia.
    rewrite !Nat.iter_add. reflexivity.
  - rewrite !IH, Pos2Nat.inj_xO.
    replace (2 * Pos.to_nat n)%nat with (Pos.to_nat n + Pos.to_nat n)%nat by lia.
    rewrite Nat.iter_add. reflexivity.
  - reflexivity.
Qed.

Lemma shr_1_spec mrs :
  0 <= shr_m mrs ->
  shr_1 mrs =
  Build_shr_record (shr_m mrs / 2) (Z.odd (shr_m mrs)) (shr_r mrs || shr_s mrs).
Proof.
  destruct mrs as [m r s]. simpl. intro H.
  destruct m as [|p|p]; [reflexivity| |lia].
  destruct p as [p|p|]; simpl.
  - f_equal. rewrite Pos2Z.inj_xI. apply Z.div_unique with 1; lia.
  - f_equal. rewrite Pos2Z.inj_xO. apply Z.div_unique with 0; lia.
  - reflexivity.
Qed.

(** The state after [S k] right shifts of [(N, false, false)]. *)
Lemma shr_1_steps (N : Z) (k : nat) :
  0 <= N ->
  Nat.iter (S k) shr_1 (Build_shr_record N false false) =
  Build_shr_record (N / 2 ^ Z.of_nat (S k))
    (Z.odd (N / 2 ^ Z.of_nat k))
    (negb (N mod 2 ^ Z.of_nat k =? 0)).
Proof.
  intro HN. induction k as [|k IH].
  - cbn [Nat.iter]. rewrite shr_1_spec by exact HN. cbn [shr_m shr_r shr_s].
    change (2 ^ Z.of_nat 1) with 2. change (2 ^ Z.of_nat 0) with 1.
    rewrite Z.div_1_r, Z.mod_1_r. reflexivity.
  - rewrite Nat.iter_succ, IH.
    assert (0 < 2 ^ Z.of_nat k) as HP by (apply Z.pow_pos_nonneg; lia).
    assert (2 ^ Z.of_nat (S k) = 2 * 2 ^ Z.of_nat k) as HS
      by (rewrite Nat2Z.inj_succ, Z.pow_succ_r by lia; reflexivity).
    rewrite shr_1_spec by (cbn [shr_m]; apply Z.div_pos; lia).
    cbn [shr_m shr_r shr_s]. f_equal.
    + rewrite Z.div_div by lia. f_equal.
      rewrite (Nat2Z.inj_succ (S k)), Z.pow_succ_r by lia. lia.
    + rewrite HS. set (P := 2 ^ Z.of_nat k) in *.
      rewrite Z.mul_comm, Z.rem_mul_r by lia.
      pose proof (Z.mod_pos_bound N P ltac:(lia)) as Hb.
      rewrite Zodd_mod.
      pose proof (Z.mod_pos_bound (N / P) 2 ltac:(lia)) as Hb2.
      destruct (Z.eqb_spec ((N / P) mod 2) 1) as [E1|E1];
        destruct (Z.eqb_spec (N mod P) 0) as [E2|E2]; simpl;
        symmetry; [apply negb_true_iff | apply negb_true_iff
                  | apply negb_false_iff | apply negb_true_iff];
        try apply Z.eqb_neq; try apply Z.eqb_eq; nia.
Qed.

Lemma loc_after_shift (N : Z) (k : nat) :
  0 <= N ->
  loc_of_shr_record (Nat.iter (S k) shr_1 (Build_shr_record N false false)) =
  loc_of_rem (N mod 2 ^ Z.of_nat (S k)) (Z.of_nat (S k)).
Proof.
  intro HN. rewrite shr_1_steps by exact HN. unfold loc_of_rem.
  assert (0 < 2 ^ Z.of_nat k) as HP by (apply Z.pow_pos_nonneg; lia).
  assert (2 ^ Z.of_nat (S k) = 2 * 2 ^ Z.of_nat k) as HS
    by (rewrite Nat2Z.inj_succ, Z.pow_succ_r by lia; reflexivity).
  rewrite HS. set (P := 2 ^ Z.of_nat k) in *.
  rewrite (Z.mul_comm 2 P), Z.rem_mul_r by lia.
  pose proof (Z.mod_pos_bound N P ltac:(lia)) as Hb.
  pose proof (Z.mod_pos_bound (N / P) 2 ltac:(lia)) as Hb2.
  rewrite Zodd_mod. cbn [loc_of_shr_record].
  destruct (Z.eqb_spec ((N / P) mod 2) 1) as [E1|E1];
    destruct (Z.eqb_spec (N mod P) 0) as [E2|E2]; cbn [negb];
    destruct (Z.eqb_spec (N mod P + P * ((N / P) mod 2)) 0) as [E3|E3];
    try nia; try reflexivity; f_equal; symmetry;
    [apply Z.compare_eq_iff | apply Z.compare_gt_iff | apply Z.compare_lt_iff];
    nia.
Qed.

Lemma rne_range (N sh : Z) : N / 2 ^ sh <= rne N sh <= N / 2 ^ sh + 1.
Proof. apply round_nearest_even_range. Qed.

Lemma rne_mono (N1 N2 sh : Z) :
  0 < sh -> 0 <= N1 <= N2 -> rne N1 sh <= rne N2 sh.
Proof.
  intros Hsh [H0 H12].
  assert (0 < 2 ^ sh) as HP by (apply Z.pow_pos_nonneg; lia).
  pose proof (Z.div_le_mono N1 N2 (2 ^ sh) HP H12) as Hq.
  destruct (Z_lt_le_dec (N1 / 2 ^ sh) (N2 / 2 ^ sh)) as [Hlt|Hge].
  - pose proof (rne_range N1 sh). pose proof (rne_range N2 sh). lia.
  - assert (N1 / 2 ^ sh = N2 / 2 ^ sh) as Heq by lia.
    pose proof (Z.div_mod N1 (2 ^ sh) ltac:(lia)) as D1.
    pose proof (Z.div_mod N2 (2 ^ sh) ltac:(lia)) as D2.
    pose proof (Z.mod_pos_bound N1 (2 ^ sh) HP) as B1.
    pose proof (Z.mod_pos_bound N2 (2 ^ sh) HP) as B2.
    unfold rne. rewrite Heq in *.
    set (q := N2 / 2 ^ sh) in *.
    set (r1 := N1 mod 2 ^ sh) in *. set (r2 := N2 mod 2 ^ sh) in *.
    assert (r1 <= r2) as Hr by lia.
    unfold loc_of_rem, round_nearest_even.
    destruct (Z.eqb_spec r1 0); destruct (Z.eqb_spec r2 0); try lia;
      repeat match goal with
             | |- context [?a ?= ?b] => destruct (Z.compare_spec a b)
             end;
      try lia; destruct (Z.even q); lia.
Qed.

Lemma rne_double (N sh : Z) :
  0 < sh -> 0 <= N -> rne (2 * N) (sh + 1) = rne N sh.
Proof.
  intros Hsh HN. unfold rne.
  assert (0 < 2 ^ sh) as HP by (apply Z.pow_pos_nonneg; lia).
  rewrite Z.pow_add_r by lia. change (2 ^ 1) with 2.
  rewrite (Z.mul_comm (2 ^ sh) 2).
  rewrite Z.div_mul_cancel_l by lia.
  rewrite Z.mul_mod_distr_l by lia.
  f_equal. unfold loc_of_rem.
  set (r := N mod 2 ^ sh).
  destruct (Z.eqb_spec (2 * r) 0); destruct (Z.eqb_spec r 0); try lia;
    [reflexivity|].
  f_equal.
  assert (2 ^ (sh + 1) = 2 * 2 ^ sh) as ->
    by (rewrite Z.pow_add_r by lia; change (2 ^ 1) with 2; lia).
  destruct (Z.compare_spec (2 * (2 * r)) (2 * 2 ^ sh));
    destruct (Z.compare_spec (2 * r) (2 ^ sh)); try reflexivity; lia.
Qed.

Lemma fexp_ge_emin k : -1074 <= fexp prec emax k.
Proof. unfold fexp, emin, prec, emax. lia. Qed.

Lemma fexp_eq k : fexp prec emax k = Z.max (k - 53) (-1074).
Proof. reflexivity. Qed.

Lemma digits2_le (p : positive) (k : Z) :
  Zpos p < 2 ^ k -> 0 <= k -> Zpos (digits2_pos p) <= k.
Proof.
  intros H Hk. pose proof (digits2_bounds p) as [Dlo _].
  destruct (Z_lt_le_dec k (Zpos (digits2_pos p))) as [Hlt|]; [|assumption].
  assert (2 ^ k <= 2 ^ (Zpos (digits2_pos p) - 1))
    by (apply Z.pow_le_mono_r; lia).
  lia.
Qed.

(** The closed form of a rounding that shifts at least one bit out. *)
Lemma round_closed (s : bool) (pN : positive) (E c : Z) :
  c = fexp prec emax (Zpos (digits2_pos pN) + E) ->
  0 < c - E ->
  binary_round_aux prec emax s (Zpos pN) E loc_Exact =
    finish s (rne (Zpos pN) (c - E)) c /\
  0 <= rne (Zpos pN) (c - E) <= 2 ^ 53.
Proof.
  intros Hc Hsh.
  set (N := Zpos pN) in *. set (d := Zpos (digits2_pos pN)) in *.
  pose proof (digits2_bounds pN) as [Dlo Dhi]. fold N d in Dlo, Dhi.
  pose proof (fexp_ge_emin (d + E)) as Hemin. rewrite <- Hc in Hemin.
  assert (d + E - 53 <= c) as Hcd by (rewrite Hc, fexp_eq; lia).
  destruct (c - E) as [|psh|psh] eqn:Hs; try lia.
  assert (0 < 2 ^ Zpos psh) as HP by (apply Z.pow_pos_nonneg; lia).
  (* the quotient has at most 53 bits *)
  assert (N / 2 ^ Zpos psh < 2 ^ 53) as Hq.
  { apply Z.div_lt_upper_bound; [exact HP|].
    rewrite <- Z.pow_add_r by lia.
    apply Z.lt_le_trans with (2 ^ d); [exact Dhi|].
    apply Z.pow_le_mono_r; lia. }
  assert (0 <= N / 2 ^ Zpos psh) as Hq0 by (apply Z.div_pos; lia).
  pose proof (rne_range N (Zpos psh)) as [Hr1 Hr2].
  split; [|lia].
  (* the first shift *)
  assert (shr_fexp prec emax N E loc_Exact =
          (iter_pos shr_1 psh (Build_shr_record N false false), c)) as H1.
  { unfold shr_fexp. change (Zdigits2 N) with d. rewrite <- Hc, Hs.
    unfold shr. cbn [shr_record_of_loc]. f_equal. lia. }
  unfold binary_round_aux. rewrite H1.
  rewrite iter_pos_nat.
  destruct (Pos.to_nat psh) as [|k] eqn:Hk; [lia|].
  assert (Z.of_nat (S k) = Zpos psh) as HSk by lia.
  rewrite loc_after_shift by (unfold N; lia).
  rewrite shr_1_steps by (unfold N; lia). cbn [shr_m].
  rewrite HSk. fold (rne N (Zpos psh)).
  set (m2 := rne N (Zpos psh)) in *.
  destruct m2 as [|p2|p2] eqn:Hm2; try lia.
  - (* rounded to zero *)
    assert (shr_fexp prec emax 0 c loc_Exact =
            (Build_shr_record 0 false false, c)) as H2.
    { unfold shr_fexp, shr. cbn [Zdigits2 shr_record_of_loc].
      rewrite fexp_eq.
      destruct (Z.max (0 + c - 53) (-1074) - c) eqn:Hz; try reflexivity. lia. }
    rewrite H2. reflexivity.
  - destruct (Z.eqb_spec (Zpos p2) (2 ^ 53)) as [Heq|Hne].
    + (* rounding up reached 2^53 *)
      assert (shr_fexp prec emax (Zpos p2) c loc_Exact =
              (shr_1 (Build_shr_record (Zpos p2) false false), c + 1)) as H2.
      { unfold shr_fexp. cbn [Zdigits2].
        rewrite (digits2_unique p2 54) by (rewrite Heq; simpl; lia).
        rewrite fexp_eq.
        replace (Z.max (54 + c - 53) (-1074) - c) with 1 by lia.
        reflexivity. }
      rewrite H2. rewrite shr_1_spec by (cbn [shr_m]; lia). cbn [shr_m].
      cbn [finish]. rewrite Heq. change (2 ^ 53 / 2) with (Zpos (2 ^ 52)).
      change (2 ^ 53 =? 2 ^ 53) with true. cbv iota.
      change (emax - prec) with 971. reflexivity.
    + assert (shr_fexp prec emax (Zpos p2) c loc_Exact =
              (Build_shr_record (Zpos p2) false false, c)) as H2.
      { unfold shr_fexp, shr. cbn [Zdigits2 shr_record_of_loc].
        pose proof (digits2_le p2 53 ltac:(lia) ltac:(lia)) as Hd2.
        rewrite fexp_eq.
        destruct (Z.max (Zpos (digits2_pos p2) + c - 53) (-1074) - c) eqn:Hz;
          try reflexivity. lia. }
      rewrite H2. cbn [shr_m finish].
      destruct (Z.eqb_spec (Zpos p2) (2 ^ 53)); [contradiction|].
      change (emax - prec) with 971. reflexivity.
Qed.

Lemma SFleb_finite_pos m1 e1 m2 e2 :
  e1 < e2 \/ (e1 = e2 /\ Zpos m1 <= Zpos m2) ->
  SFleb (S754_finite false m1 e1) (S754_finite false m2 e2) = true.
Proof.
  intros [H|[-> H]]; unfold SFleb, SFcompare.
  - rewrite (proj2 (Z.compare_lt_iff _ _) H). reflexivity.
  - rewrite Z.compare_refl. fold (Pos.compare m1 m2).
    change (Zpos m1 <= Zpos m2) with (m1 <= m2)%positive in H.
    unfold Pos.le in H. destruct (m1 ?= m2)%positive; congruence.
Qed.

Lemma SFleb_finite_neg m1 e1 m2 e2 :
  e1 < e2 \/ (e1 = e2 /\ Zpos m1 <= Zpos m2) ->
  SFleb (S754_finite true m2 e2) (S754_finite true m1 e1) = true.
Proof.
  intros [H|[-> H]]; unfold SFleb, SFcompare.
  - rewrite (proj2 (Z.compare_gt_iff _ _) H). reflexivity.
  - rewrite Z.compare_refl. fold (Pos.compare m2 m1).
    change (Zpos m1 <= Zpos m2) with (m1 <= m2)%positive in H.
    apply Pos.le_ge in H. unfold Pos.ge in H.
    destruct (m2 ?= m1)%positive; simpl; congruence.
Qed.

(** [finish] keeps the order, and reverses it under a negative sign. *)
Lemma finish_order (m1 c1 m2 c2 : Z) :
  0 <= m1 <= 2 ^ 53 -> 0 <= m2 <= 2 ^ 53 ->
  (c1 = c2 /\ m1 <= m2) \/ (c1 < c2 /\ 2 ^ 52 <= m2) ->
  SFleb (finish false m1 c1) (finish false m2 c2) = true /\
  SFleb (finish true m2 c2) (finish true m1 c1) = true.
Proof.
  intros H1 H2 H.
  assert (Zpos (2 ^ 52) = 2 ^ 52) as E52 by reflexivity.
  unfold finish.
  destruct m1 as [|p1|p1]; destruct m2 as [|p2|p2]; try lia;
    repeat match goal with
           | |- context [Z.eqb ?a ?b] => destruct (Z.eqb_spec a b)
           | |- context [Z.leb ?a ?b] => destruct (Z.leb_spec a b)
           end;
    try lia;
    try (split; reflexivity);
    split;
    try (apply SFleb_finite_pos; lia);
    try (apply SFleb_finite_neg; lia);
    try reflexivity.
Qed.

Lemma digits2_mono (p1 p2 : positive) :
  Zpos p1 <= Zpos p2 -> Zpos (digits2_pos p1) <= Zpos (digits2_pos p2).
Proof.
  intro H. pose proof (digits2_bounds p2) as [_ Hhi].
  apply digits2_le; lia.
Qed.

(** Rounding is monotone at a fixed exponent. *)
Lemma round_mono (N1 N2 : positive) (E : Z) :
  Zpos N1 <= Zpos N2 ->
  0 < fexp prec emax (Zpos (digits2_pos N1) + E) - E ->
  SFleb (binary_round_aux prec emax false (Zpos N1) E loc_Exact)
        (binary_round_aux prec emax false (Zpos N2) E loc_Exact) = true /\
  SFleb (binary_round_aux prec emax true (Zpos N2) E loc_Exact)
        (binary_round_aux prec emax true (Zpos N1) E loc_Exact) = true.
Proof.
  intros HN Hsh1.
  pose proof (digits2_mono N1 N2 HN) as Hd.
  set (d1 := Zpos (digits2_pos N1)) in *. set (d2 := Zpos (digits2_pos N2)) in *.
  set (c1 := fexp prec emax (d1 + E)) in *.
  set (c2 := fexp prec emax (d2 + E)).
  assert (c1 <= c2) as Hc by (unfold c1, c2; rewrite !fexp_eq; lia).
  assert (0 < c2 - E) as Hsh2 by lia.
  destruct (round_closed false N1 E c1 eq_refl Hsh1) as [R1 B1].
  destruct (round_closed true N1 E c1 eq_refl Hsh1) as [R1' _].
  destruct (round_closed false N2 E c2 eq_refl Hsh2) as [R2 B2].
  destruct (round_closed true N2 E c2 eq_refl Hsh2) as [R2' _].
  rewrite R1, R1', R2, R2'.
  apply finish_order; [exact B1 | exact B2 |].
  destruct (Z_lt_le_dec c1 c2) as [Hlt|Hge].
  - right. split; [exact Hlt|].
    assert (c2 = d2 + E - 53) as Hc2
      by (unfold c1, c2 in *; rewrite !fexp_eq in *; lia).
    pose proof (digits2_bounds N2) as [Dlo _]. fold d2 in Dlo.
    pose proof (rne_range (Zpos N2) (c2 - E)) as [Hr _].
    apply Z.le_trans with (Zpos N2 / 2 ^ (c2 - E)); [|exact Hr].
    apply Z.div_le_lower_bound; [apply Z.pow_pos_nonneg; lia|].
    rewrite <- Z.pow_add_r by lia.
    replace (c2 - E + 52) with (d2 - 1) by lia. exact Dlo.
  - left. assert (c1 = c2) as Heq by lia. split; [exact Heq|].
    rewrite <- Heq. apply rne_mono; lia.
Qed.

(** Doubling the integer and lowering the exponent rounds to the same. *)
Lemma round_scale (s : bool) (N : positive) (E : Z) :
  0 < fexp prec emax (Zpos (digits2_pos N) + E) - E ->
  binary_round_aux prec emax s (Zpos N~0) (E - 1) loc_Exact =
  binary_round_aux prec emax s (Zpos N) E loc_Exact.
Proof.
  intro Hsh.
  set (c := fexp prec emax (Zpos (digits2_pos N) + E)) in *.
  assert (c = fexp prec emax (Zpos (digits2_pos N~0) + (E - 1))) as Hc.
  { unfold c. f_equal. cbn [digits2_pos]. lia. }
  destruct (round_closed s N E c eq_refl Hsh) as [R1 _].
  destruct (round_closed s N~0 (E - 1) c Hc ltac:(lia)) as [R2 _].
  rewrite R1, R2. f_equal.
  replace (c - (E - 1)) with (c - E + 1) by lia.
  change (Zpos N~0) with (2 * Zpos N). apply rne_double; lia.
Qed.

(** A product with a 53-bit factor is always shifted. *)
Lemma product_shifted (m mf : positive) (e ef : Z) :
  bounded prec emax m e = true ->
  2 ^ 52 <= Zpos mf ->
  ef <= -52 ->
  0 < fexp prec emax (Zpos (digits2_pos (m * mf)) + (e + ef)) - (e + ef).
Proof.
  intros Hb Hmf Hef.
  unfold bounded, canonical_mantissa in Hb.
  apply andb_prop in Hb. destruct Hb as [Hcan _].
  apply Z.eqb_eq in Hcan. rewrite fexp_eq in Hcan.
  pose proof (digits2_bounds m) as [Dlo _].
  pose proof (digits2_bounds (m * mf)) as [_ Phi].
  set (dm := Zpos (digits2_pos m)) in *.
  set (D := Zpos (digits2_pos (m * mf))) in *.
  assert (0 < dm) by (unfold dm; lia).
  assert (dm + 52 <= D) as HD.
  { destruct (Z_lt_le_dec D (dm + 52)) as [Hlt|]; [|assumption].
    assert (2 ^ D <= 2 ^ (dm - 1 + 52)) by (apply Z.pow_le_mono_r; lia).
    rewrite Z.pow_add_r in * by lia.
    rewrite Pos2Z.inj_mul in Phi.
    assert (2 ^ (dm - 1) * 2 ^ 52 <= Zpos m * Zpos mf) by nia. lia. }
  rewrite fexp_eq. lia.
Qed.

(** The rounded products of one double by two factors are ordered as the
    factors are. *)
Lemma product_order (m mf1 mf2 : positive) (e ef1 ef2 : Z) :
  bounded prec emax m e = true ->
  2 ^ 52 <= Zpos mf1 -> 2 ^ 52 <= Zpos mf2 ->
  -53 <= ef1 <= -52 -> -53 <= ef2 <= -52 ->
  Zpos mf1 * 2 ^ (ef1 + 53) <= Zpos mf2 * 2 ^ (ef2 + 53) ->
  SFleb (binary_round_aux prec emax false (Zpos (m * mf1)) (e + ef1) loc_Exact)
        (binary_round_aux prec emax false (Zpos (m * mf2)) (e + ef2) loc_Exact)
    = true /\
  SFleb (binary_round_aux prec emax true (Zpos (m * mf2)) (e + ef2) loc_Exact)
        (binary_round_aux prec emax true (Zpos (m * mf1)) (e + ef1) loc_Exact)
    = true.
Proof.
  intros Hb H1 H2 He1 He2 Hg.
  pose proof (product_shifted m mf1 e ef1 Hb H1 ltac:(lia)) as S1.
  pose proof (product_shifted m mf2 e ef2 Hb H2 ltac:(lia)) as S2.
  assert (ef1 = -53 \/ ef1 = -52) as [-> | ->] by lia;
    assert (ef2 = -53 \/ ef2 = -52) as [-> | ->] by lia;
    cbn in Hg.
  - apply round_mono; [|exact S1]. rewrite !Pos2Z.inj_mul. nia.
  - replace (e + -52) with (e + -52) in * by lia.
    rewrite <- !(round_scale _ (m * mf2) (e + -52) S2).
    replace (e + -52 - 1) with (e + -53) by lia.
    apply round_mono; [|exact S1].
    rewrite Pos2Z.inj_xO, !Pos2Z.inj_mul. nia.
  - rewrite <- !(round_scale _ (m * mf1) (e + -52) S1).
    replace (e + -52 - 1) with (e + -53) by lia.
    apply round_mono.
    + rewrite Pos2Z.inj_xO, !Pos2Z.inj_mul. nia.
    + cbn [digits2_pos]. rewrite Pos2Z.inj_succ.
      rewrite fexp_eq in *. lia.
  - apply round_mono; [|exact S1]. rewrite !Pos2Z.inj_mul. nia.
Qed.

(** The factors grow with the draw. *)
Lemma factor_order (x y : Z) :
  0 <= x -> 0 <= y -> Z.rem x 10 <= Z.rem y 10 ->
  exists mf1 ef1 mf2 ef2,
    Prim2SF (factor (double := float) x) = S754_finite false mf1 ef1 /\
    Prim2SF (factor (double := float) y) = S754_finite false mf2 ef2 /\
    2 ^ 52 <= Zpos mf1 /\ 2 ^ 52 <= Zpos mf2 /\
    -53 <= ef1 <= -52 /\ -53 <= ef2 <= -52 /\
    Zpos mf1 * 2 ^ (ef1 + 53) <= Zpos mf2 * 2 ^ (ef2 + 53).
Proof.
  intros Hx Hy Hxy. unfold factor.
  pose proof (draw_cases x Hx) as Cx. pose proof (draw_cases y Hy) as Cy.
  repeat (destruct Cx as [Cx|Cx]); rewrite Cx in *;
    repeat (destruct Cy as [Cy|Cy]); rewrite Cy in *;
    try lia;
    (do 4 eexists;
     split; [vm_compute; reflexivity|];
     split; [vm_compute; reflexivity|];
     split; [Zle_computed|]; split; [Zle_computed|];
     split; [lia|]; split; [lia|]; Zle_computed).
Qed.

(** Multiplying by a larger factor gives a larger product when the premium
    is not negative, and a smaller one when it is not positive. *)
Lemma drift_order (p : float) (x y : Z) :
  0 <= x -> 0 <= y -> Z.rem x 10 <= Z.rem y 10 ->
  (PrimFloat.leb 0 p = true ->
   PrimFloat.leb (dmul p (factor x)) (dmul p (factor y)) = true) /\
  (PrimFloat.leb p 0 = true ->
   PrimFloat.leb (dmul p (factor y)) (dmul p (factor x)) = true).
Proof.
  intros Hx Hy Hxy.
  destruct (factor_order x y Hx Hy Hxy) as
    (mf1 & ef1 & mf2 & ef2 & F1 & F2 & M1 & M2 & E1 & E2 & Hg).
  change (@dmul float binary64_ops) with PrimFloat.mul.
  rewrite !FloatAxioms.leb_spec, !FloatAxioms.mul_spec, F1, F2.
  change (Prim2SF 0) with (S754_zero false).
  pose proof (Prim2SF_valid p) as Hv.
  destruct (Prim2SF p) as [s|s| |s m e]; cbn [SF64mul SFmul].
  - split; intros _; destruct s; reflexivity.
  - split; destruct s; cbn; intro H; try discriminate; reflexivity.
  - split; intro H; discriminate.
  - cbn [valid_binary] in Hv.
    destruct (product_order m mf1 mf2 e ef1 ef2 Hv M1 M2 E1 E2 Hg) as [P N].
    split; destruct s; cbn; intro H; try discriminate; assumption.
Qed.

Local Open Scope Q_scope.

Lemma two_pow_pos (e : Z) : 0 < 2 ^ e.
Proof. apply Qpower_0_lt. reflexivity. Qed.

Lemma val_pos m e : 0 < val m e.
Proof.
  unfold val. apply Qmult_lt_0_compat; [|apply two_pow_pos].
  change 0 with (inject_Z 0). rewrite <- Zlt_Qlt. lia.
Qed.

Lemma val_mul m1 e1 m2 e2 :
  val (m1 * m2) (e1 + e2) == val m1 e1 * val m2 e2.
Proof.
  unfold val. rewrite Pos2Z.inj_mul, inject_Z_mult.
  rewrite Qpower_plus by discriminate. ring.
Qed.

Lemma val_shift (m : positive) (e' E : Z) :
  (E <= e')%Z ->
  inject_Z (Zpos m * 2 ^ (e' - E)) * 2 ^ E == val m e'.
Proof.
  intro H. unfold val. rewrite inject_Z_mult.
  rewrite Zpower_Qpower by lia.
  change (inject_Z 2) with 2.
  rewrite <- Qmult_assoc, <- Qpower_plus by discriminate.
  replace (e' - E + E)%Z with e' by lia. reflexivity.
Qed.

(** Rounding moves a product by at most 2^-52 of itself. *)
Lemma round_product_value (M m' : positive) (E e' sh : Z) :
  (E <= e')%Z -> (0 <= sh)%Z ->
  (2 ^ (sh + 52) <= Zpos M)%Z ->
  (Zpos M - 2 ^ sh <= Zpos m' * 2 ^ (e' - E) <= Zpos M + 2 ^ sh)%Z ->
  val M E * (1 - rel_err) <= val m' e' <= val M E * (1 + rel_err).
Proof.
  intros He Hsh Hbig [Hlo Hhi].
  rewrite <- (val_shift m' e' E He).
  set (X := (Zpos m' * 2 ^ (e' - E))%Z) in *.
  rewrite Z.pow_add_r in Hbig by lia.
  set (S := (2 ^ sh)%Z) in *.
  rewrite Zle_Qle in Hbig, Hlo, Hhi.
  rewrite inject_Z_mult in Hbig.
  unfold Z.sub in Hlo. rewrite inject_Z_plus, inject_Z_opp in Hlo.
  rewrite inject_Z_plus in Hhi.
  change (inject_Z (2 ^ 52)) with (4503599627370496 # 1) in Hbig.
  unfold val. pose proof (two_pow_pos E) as HE.
  set (t := 2 ^ E) in *. set (Mq := inject_Z (Zpos M)) in *.
  set (Sq := inject_Z S) in *. set (Xq := inject_Z X) in *.
  unfold rel_err.
  assert (Mq * (1 - (1 # 4503599627370496)) <= Xq) as H1 by lra.
  assert (Xq <= Mq * (1 + (1 # 4503599627370496))) as H2 by lra.
  split.
  - setoid_replace (Mq * t * (1 - (1 # 4503599627370496)))
      with (Mq * (1 - (1 # 4503599627370496)) * t) by ring.
    apply Qmult_le_compat_r; [exact H1 | lra].
  - setoid_replace (Mq * t * (1 + (1 # 4503599627370496)))
      with (Mq * (1 + (1 # 4503599627370496)) * t) by ring.
    apply Qmult_le_compat_r; [exact H2 | lra].
Qed.

(** One drift of a normal premium: the sign is kept and the magnitude is
    multiplied by a number between [drift_min] and [drift_max]. *)
Lemma drift_binary64 (p : float) (x : Z) (s : bool) (m : positive) (e : Z) :
  (0 <= x)%Z ->
  Prim2SF p = S754_finite s m e ->
  (2 ^ 52 <= Zpos m < 2 ^ 53)%Z ->
  (-1000 <= e <= 900)%Z ->
  exists m' e',
    Prim2SF (dmul p (factor x)) = S754_finite s m' e' /\
    (2 ^ 52 <= Zpos m' < 2 ^ 53)%Z /\
    (e - 1 <= e' <= e + 2)%Z /\
    val m e * drift_min <= val m' e' <= val m e * drift_max.
Proof.
  intros Hx Hp Hm He.
  destruct (factor_binary64 x Hx) as (mf & ef & Hf & Hmf & Hef & Hflo & Hfhi).
  change (dmul p (factor x)) with (PrimFloat.mul p (factor x)).
  rewrite FloatAxioms.mul_spec, Hp, Hf.
  unfold SF64mul, SFmul. rewrite xorb_false_r.
  pose proof (product_digits m mf Hm Hmf) as Hsh.
  set (sh := (Zpos (digits2_pos (m * mf)) - 53)%Z) in *.
  destruct (round_product s (m * mf) (e + ef) sh eq_refl) as
    (m' & e' & Hr & Hm' & He' & Hbig & Hval); try lia.
  exists m', e'. split; [exact Hr|]. split; [exact Hm'|]. split; [lia|].
  pose proof (round_product_value (m * mf) m' (e + ef) e' sh
                ltac:(lia) ltac:(lia) Hbig Hval) as [Hv1 Hv2].
  rewrite val_mul in Hv1, Hv2.
  pose proof (val_pos m e) as Hpos. pose proof (val_pos mf ef) as Hposf.
  set (v := val m e) in *. set (vf := val mf ef) in *. set (v' := val m' e') in *.
  unfold drift_min, drift_max.
  assert (0 < 1 - rel_err) by (unfold rel_err; reflexivity).
  assert (0 < 1 + rel_err) by (unfold rel_err; reflexivity).
  set (a := 1 - rel_err) in *. set (b := 1 + rel_err) in *.
  split.
  - apply Qle_trans with (v * vf * a); [|exact Hv1].
    setoid_replace (v * (least_factor * a)) with (v * a * least_factor) by ring.
    setoid_replace (v * vf * a) with (v * a * vf) by ring.
    apply Qmult_le_l; [|exact Hflo]. apply Qmult_lt_0_compat; assumption.
  - apply Qle_trans with (v * vf * b); [exact Hv2|].
    setoid_replace (v * (greatest_factor * b)) with (v * b * greatest_factor) by ring.
    setoid_replace (v * vf * b) with (v * b * vf) by ring.
    apply Qmult_le_l; [|exact Hfhi]. apply Qmult_lt_0_compat; assumption.
Qed.

Local Open Scope string_scope.
Local Open Scope list_scope.

Lemma five_binary64 :
  Prim2SF (of_int (double := float) 5) =
  S754_finite false 5629499534213120 (-50).
Proof. vm_compute. reflexivity. Qed.

Lemma drift_min_range : 0 <= drift_min <= 1.
Proof. split; by_computation. Qed.

Lemma drift_max_range : 1 <= drift_max.
Proof. by_computation. Qed.

Lemma single_call_after_binary64 (n : nat) (w : World float) (E : string) :
  rand_ok w ->
  options (chain w) = [CallOption (of_int 100) (of_int 5) E] ->
  (n <= 100)%nat ->
  exists p m e,
    options (chain (updates n w)) = [CallOption (of_int 100) p E] /\
    Prim2SF p = S754_finite false m e /\
    (2 ^ 52 <= Zpos m < 2 ^ 53)%Z /\
    (-50 - Z.of_nat n <= e <= -50 + 2 * Z.of_nat n)%Z /\
    5 * drift_min ^ Z.of_nat n <= val m e <= 5 * drift_max ^ Z.of_nat n.
Proof.
  intros Hok H0 Hn. induction n as [|n IH].
  - exists (of_int 5), 5629499534213120%positive, (-50)%Z.
    split; [exact H0|]. split; [exact five_binary64|].
    split; [split; [apply Z.leb_le | apply Z.ltb_lt]; vm_compute; reflexivity|].
    split; [simpl; lia|]. split; by_computation.
  - destruct IH as (p & m & e & Hopt & Hp & Hm & He & Hlo & Hhi); [lia|].
    rewrite updates_S, updateOptionPrices_run.
    cbn [chain options]. rewrite Hopt. cbn [drifted premium CallOption].
    match goal with |- context [factor ?y] => set (x := y) end.
    assert (0 <= x)%Z as Hx by (unfold x; rewrite updates_rand_seq; apply Hok).
    destruct (drift_binary64 p x false m e Hx Hp Hm ltac:(lia)) as
      (m' & e' & Hp' & Hm' & He' & Hv1 & Hv2).
    exists (dmul p (factor x)), m', e'.
    split; [reflexivity|]. split; [exact Hp'|]. split; [exact Hm'|].
    split; [lia|].
    rewrite !Qpow_S.
    pose proof drift_min_range as [HA0 HA1]. pose proof drift_max_range as HB.
    assert (0 <= drift_min ^ Z.of_nat n) as Ha by (apply Qpower_0_le; exact HA0).
    assert (0 <= drift_max ^ Z.of_nat n) as Hb by (apply Qpower_0_le; lra).
    set (an := drift_min ^ Z.of_nat n) in *.
    set (bn := drift_max ^ Z.of_nat n) in *.
    set (v := val m e) in *. set (v' := val m' e') in *.
    assert (5 * an * drift_min <= v * drift_min)
      by (apply Qmult_le_compat_r; assumption).
    assert (v * drift_max <= 5 * bn * drift_max)
      by (apply Qmult_le_compat_r; [assumption | lra]).
    split; lra.
Qed.

(** *** The numeric statements in binary64 *)

Lemma SFcompare_refl (x : spec_float) :
  x <> S754_nan -> SFcompare x x = Some Eq.
Proof.
  destruct x as [s|s| |s m e]; simpl; intro H; try congruence.
  - destruct s; reflexivity.
  - rewrite Z.compare_refl, Pos.compare_cont_refl. destruct s; reflexivity.
Qed.

(** [std::max(0.0, x)] is one of its arguments and not below either, for
    every [x] that is not a NaN. *)
Lemma std_max_binary64 (x : float) :
  Prim2SF x <> S754_nan ->
  (std_max (of_int 0) x = of_int 0 \/ std_max (of_int 0) x = x) /\
  PrimFloat.leb (of_int 0) (std_max (of_int 0) x) = true /\
  PrimFloat.leb x (std_max (of_int 0) x) = true.
Proof.
  intro Hnan. unfold std_max. change (of_int 0) with 0%float.
  change (dlt 0%float x) with (PrimFloat.ltb 0 x).
  destruct (PrimFloat.ltb 0 x) eqn:Hlt.
  - split; [right; reflexivity|].
    rewrite !FloatAxioms.leb_spec. rewrite FloatAxioms.ltb_spec in Hlt.
    unfold SFleb, SFltb in *. rewrite (SFcompare_refl _ Hnan).
    destruct (SFcompare (Prim2SF 0) (Prim2SF x)) as [[]|];
      try discriminate. split; reflexivity.
  - split; [left; reflexivity|]. split; [reflexivity|].
    rewrite FloatAxioms.leb_spec. rewrite FloatAxioms.ltb_spec in Hlt.
    change (Prim2SF 0) with (S754_zero false) in *.
    unfold SFleb, SFltb in *.
    destruct (Prim2SF x) as [s|s| |s m e]; simpl in *;
      try congruence; destruct s; simpl in *; congruence.
Qed.

(** A premium that is above zero never becomes negative, nor a NaN: after
    any number of updates it is +0, a positive number or +infinity. *)
Lemma never_negative_binary64
  (n : nat) (w : World float) (i : nat) (o : Option float) :
  rand_ok w ->
  nth_error (options (chain w)) i = Some o ->
  PrimFloat.ltb 0 (premium o) = true ->
  exists o', nth_error (options (chain (updates n w))) i = Some o' /\
             nonneg_sf (Prim2SF (premium o')) /\
             PrimFloat.ltb (premium o') 0 = false.
Proof.
  intros Hok Hi Hpos.
  destruct (premium_invariant (fun p => nonneg_sf (Prim2SF p)) drift_nonneg
              n w i o Hok Hi (positive_nonneg _ Hpos)) as (o' & Hi' & Hn).
  exists o'. split; [exact Hi'|]. split; [exact Hn|].
  apply nonneg_not_negative, Hn.
Qed.

Lemma drift_min_close : (95 # 100) * (1 - step_tolerance) <= drift_min.
Proof. by_computation. Qed.

Lemma drift_max_close : drift_max <= (104 # 100) * (1 + step_tolerance).
Proof. by_computation. Qed.

(** One call of [updateOptionPrices] replaces every premium [p] by the
    double [p * (1.0 + r / 100.0)]; for a zero or normal [p] the result lies
    within [0.95 p, 1.04 p] (within [1.04 p, 0.95 p] for a negative [p]) up
    to a relative 2^-51. *)
Lemma premium_step_binary64 (w : World float) (i : nat) (o : Option float) :
  rand_ok w ->
  nth_error (options (chain w)) i = Some o ->
  exists (r : Z) (o' : Option float),
    (-5 <= r <= 4)%Z /\
    nth_error (options (chain (exec updateOptionPrices w))) i = Some o' /\
    o' = setPremium o (premium o') /\
    premium o' =
      dmul (premium o) (dadd (of_int 1) (ddiv (of_int r) (of_int 100))) /\
    (in_range (premium o) ->
     (0 <= float_value (premium o) ->
      (95 # 100) * (1 - step_tolerance) * float_value (premium o)
        <= float_value (premium o')
        <= (104 # 100) * (1 + step_tolerance) * float_value (premium o)) /\
     (float_value (premium o) <= 0 ->
      (104 # 100) * (1 + step_tolerance) * float_value (premium o)
        <= float_value (premium o')
        <= (95 # 100) * (1 - step_tolerance) * float_value (premium o))).
Proof.
  intros Hok Hi.
  set (x := rand_seq w (rand_calls w + i)%nat).
  exists (Z.rem x 10 - 5)%Z, (setPremium o (dmul (premium o) (factor x))).
  split; [apply draw_range, Hok|].
  split; [exact (drift_nth w i o Hi)|].
  split; [reflexivity|]. split; [reflexivity|].
  cbn [premium setPremium]. unfold float_value.
  set (lo := (95 # 100) * (1 - step_tolerance)).
  set (hi := (104 # 100) * (1 + step_tolerance)).
  intros [(s & Hp) | (s & m & e & Hp & Hm & He)].
  - (* a zero stays a zero *)
    destruct (factor_binary64 x (Hok _)) as (mf & ef & Hf & _).
    change (dmul (premium o) (factor x)) with (PrimFloat.mul (premium o) (factor x)).
    rewrite FloatAxioms.mul_spec, Hp, Hf. cbn [SF64mul SFmul SF2Q].
    split; intros _; split; lra.
  - destruct (drift_binary64 (premium o) x s m e (Hok _) Hp Hm He) as
      (m' & e' & Hp' & _ & _ & Hv1 & Hv2).
    rewrite Hp, Hp'. cbn [SF2Q].
    pose proof (val_pos m e) as Hpos.
    pose proof drift_min_close as Hlo. pose proof drift_max_close as Hhi.
    fold lo in Hlo. fold hi in Hhi.
    set (v := val m e) in *. set (v' := val m' e') in *.
    assert (lo * v <= drift_min * v) as H1
      by (apply Qmult_le_compat_r; [exact Hlo | lra]).
    assert (drift_max * v <= hi * v) as H2
      by (apply Qmult_le_compat_r; [exact Hhi | lra]).
    setoid_replace (v * drift_min) with (drift_min * v) in Hv1 by ring.
    setoid_replace (v * drift_max) with (drift_max * v) in Hv2 by ring.
    clearbody lo hi.
    destruct s.
    + split; intro H; [lra|].
      setoid_replace (hi * - v) with (- (hi * v)) by ring.
      setoid_replace (lo * - v) with (- (lo * v)) by ring.
      split; lra.
    + split; intro H; [split; lra | lra].
Qed.

(** Multiplication of doubles is commutative. *)
Lemma SFmul_comm (x y : spec_float) :
  SFmul prec emax x y = SFmul prec emax y x.
Proof.
  destruct x as [[]|[]| |[] mx ex], y as [[]|[]| |[] my ey];
    cbn [SFmul xorb]; try reflexivity;
    rewrite (Pos.mul_comm mx my), (Z.add_comm ex ey); reflexivity.
Qed.

Lemma mul_comm_binary64 (a b : float) : PrimFloat.mul a b = PrimFloat.mul b a.
Proof.
  apply Prim2SF_inj. rewrite !FloatAxioms.mul_spec. apply SFmul_comm.
Qed.

(** One call of [updateOptionPrices] replaces every premium [p] by the
    double [p * (1.0 + r / 100.0)], and the tests [0.95 * p <= p'] and
    [p' <= 1.04 * p], computed in double arithmetic, hold for every [p]
    that is not below zero (with the bounds exchanged for every [p] that is
    not above zero): zero, subnormal, normal and infinite. *)
Lemma premium_step_double (w : World float) (i : nat) (o : Option float) :
  rand_ok w ->
  nth_error (options (chain w)) i = Some o ->
  exists (r : Z) (o' : Option float),
    (-5 <= r <= 4)%Z /\
    nth_error (options (chain (exec updateOptionPrices w))) i = Some o' /\
    o' = setPremium o (premium o') /\
    premium o' =
      dmul (premium o) (dadd (of_int 1) (ddiv (of_int r) (of_int 100))) /\
    (PrimFloat.leb 0 (premium o) = true ->
     PrimFloat.leb (dmul double_0_95 (premium o)) (premium o') = true /\
     PrimFloat.leb (premium o') (dmul double_1_04 (premium o)) = true) /\
    (PrimFloat.leb (premium o) 0 = true ->
     PrimFloat.leb (dmul double_1_04 (premium o)) (premium o') = true /\
     PrimFloat.leb (premium o') (dmul double_0_95 (premium o)) = true).
Proof.
  intros Hok Hi.
  set (x := rand_seq w (rand_calls w + i)%nat).
  assert (0 <= x)%Z as Hx by apply Hok.
  exists (Z.rem x 10 - 5)%Z, (setPremium o (dmul (premium o) (factor x))).
  split; [apply draw_range, Hok|].
  split; [exact (drift_nth w i o Hi)|].
  split; [reflexivity|]. split; [reflexivity|].
  cbn [premium setPremium].
  pose proof (draw_cases x Hx) as Hc.
  assert (Z.rem 0 10 <= Z.rem x 10)%Z as Hlo
    by (change (Z.rem 0 10) with 0%Z; lia).
  assert (Z.rem x 10 <= Z.rem 9 10)%Z as Hhi
    by (change (Z.rem 9 10) with 9%Z; lia).
  destruct (drift_order (premium o) 0 x (Z.le_refl 0) Hx Hlo) as [L1 L2].
  destruct (drift_order (premium o) x 9 Hx ltac:(lia) Hhi) as [U1 U2].
  change (@dmul float binary64_ops) with PrimFloat.mul in *.
  rewrite (mul_comm_binary64 double_0_95), (mul_comm_binary64 double_1_04).
  change double_0_95 with (factor (double := float) 0%Z).
  change double_1_04 with (factor (double := float) 9%Z).
  split; intro H; split; auto.
Qed.

(** The 100-update scenario keeps the premium within the bounds
    5 * 0.95^100 and 5 * 1.04^100 up to a relative 2^-44. *)
Lemma premium_bounds_binary64 (n : nat) (w : World float) (E : string) :
  rand_ok w ->
  options (chain w) = [CallOption (of_int 100) (of_int 5) E] ->
  (n <= 100)%nat ->
  exists p,
    options (chain (updates n w)) = [CallOption (of_int 100) p E] /\
    5 * (95 # 100) ^ 100 * (1 - tolerance) <= float_value p
      <= 5 * (104 # 100) ^ 100 * (1 + tolerance).
Proof.
  intros Hok H0 Hn.
  destruct (single_call_after_binary64 n w E Hok H0 Hn) as
    (p & m & e & Hopt & Hp & _ & _ & Hlo & Hhi).
  exists p. split; [exact Hopt|].
  unfold float_value. rewrite Hp. cbn [SF2Q].
  assert (drift_min ^ Z.of_nat 100 <= drift_min ^ Z.of_nat n) as Hs
    by (apply Qpow_shrink; [exact drift_min_range | exact Hn]).
  assert (drift_max ^ Z.of_nat n <= drift_max ^ Z.of_nat 100) as Hg
    by (apply Qpow_grow; [exact drift_max_range | exact Hn]).
  assert (5 * (95 # 100) ^ 100 * (1 - tolerance)
          <= 5 * drift_min ^ Z.of_nat 100) as H1 by by_computation.
  assert (5 * drift_max ^ Z.of_nat 100
          <= 5 * (104 # 100) ^ 100 * (1 + tolerance)) as H2 by by_computation.
  set (an := drift_min ^ Z.of_nat n) in *.
  set (bn := drift_max ^ Z.of_nat n) in *.
  set (a100 := drift_min ^ Z.of_nat 100) in *.
  set (b100 := drift_max ^ Z.of_nat 100) in *.
  set (lo := 5 * (95 # 100) ^ 100 * (1 - tolerance)) in *.
  set (hi := 5 * (104 # 100) ^ 100 * (1 + tolerance)) in *.
  split; lra.
Qed.

End Binary64.

(** * The sign of a premium in binary64 *)

Section Binary64Sign.

Local Open Scope Z_scope.

(** *** Canonical doubles *)

(** What [Prim2SF_valid] says of a finite double. *)
Lemma bounded_canonical (m : positive) (e : Z) :
  bounded prec emax m e = true ->
  -1074 <= e <= 971 /\
  Zpos m < 2 ^ 53 /\
  (-1074 < e -> 2 ^ 52 <= Zpos m) /\
  fexp prec emax (Zpos (digits2_pos m) + e) = e.
Proof.
  intro Hb. unfold bounded, canonical_mantissa in Hb.
  apply andb_prop in Hb. destruct Hb as [Hcan He].
  apply Z.eqb_eq in Hcan. apply Z.leb_le in He.
  change (emax - prec) with 971 in He.
  pose proof (fexp_ge_emin (Zpos (digits2_pos m) + e)) as Hmin.
  pose proof (digits2_bounds m) as [Dlo Dhi].
  split; [rewrite Hcan in Hmin; lia|].
  rewrite fexp_eq in Hcan.
  set (d := Zpos (digits2_pos m)) in *.
  assert (0 < d) by (unfold d; lia).
  split; [|split; [|rewrite fexp_eq; exact Hcan]].
  - assert (2 ^ d <= 2 ^ 53) by (apply Z.pow_le_mono_r; lia). lia.
  - intro Hlt. assert (d = 53) as Hd by lia.
    rewrite Hd in Dlo. exact Dlo.
Qed.

(** *** A product never rounds to zero *)

(** The product of a double that is not zero by a factor above one half is
    not zero: where it underflows it rounds back up to the least double. *)
Lemma product_nonzero (s : bool) (m mf : positive) (e ef : Z) :
  bounded prec emax m e = true ->
  2 ^ 52 <= Zpos mf ->
  -53 <= ef <= -52 ->
  (ef = -53 -> 2 ^ 52 < Zpos mf) ->
  (exists m' e',
     binary_round_aux prec emax s (Zpos (m * mf)) (e + ef) loc_Exact =
     S754_finite s m' e') \/
  binary_round_aux prec emax s (Zpos (m * mf)) (e + ef) loc_Exact =
  S754_infinity s.
Proof.
  intros Hb Hmf Hef Hhalf.
  pose proof (product_shifted m mf e ef Hb Hmf ltac:(lia)) as Hsh.
  destruct (round_closed s (m * mf) (e + ef) _ eq_refl Hsh) as [-> [_ Hhi]].
  destruct (bounded_canonical m e Hb) as ([Hemin _] & _ & _ & _).
  set (c := fexp prec emax (Zpos (digits2_pos (m * mf)) + (e + ef))) in *.
  set (sh := c - (e + ef)) in *.
  assert (1 <= rne (Zpos (m * mf)) sh) as Hone.
  { pose proof (rne_range (Zpos (m * mf)) sh) as [Hq _].
    pose proof (digits2_bounds (m * mf)) as [Dlo _].
    set (N := Zpos (m * mf)) in *.
    set (D := Zpos (digits2_pos (m * mf))) in *.
    assert (Zpos mf <= N) as HN by (unfold N; rewrite Pos2Z.inj_mul; nia).
    assert (0 < 2 ^ sh) as Hp by (apply Z.pow_pos_nonneg; lia).
    assert (c = Z.max (D + (e + ef) - 53) (-1074)) as Hc by reflexivity.
    destruct (Z_le_gt_dec (2 ^ sh) N) as [Hbig|Hsmall].
    - assert (1 <= N / 2 ^ sh) by (apply Z.div_le_lower_bound; lia). lia.
    - (* the quotient is zero: the product is below the least double *)
      assert (c = -1074) as Hc74.
      { destruct (Z.max_spec (D + (e + ef) - 53) (-1074)) as [[_ Hm]|[_ Hm]];
          [lia|].
        assert (sh = D - 53) as HshD by lia.
        assert (2 ^ sh <= 2 ^ (D - 1)) by (apply Z.pow_le_mono_r; lia). lia. }
      assert (sh = 53) as Hsh53.
      { destruct (Z_le_gt_dec sh 52) as [Hle|]; [|lia].
        assert (2 ^ sh <= 2 ^ 52) by (apply Z.pow_le_mono_r; lia). lia. }
      assert (ef = -53) as Hef53 by lia.
      specialize (Hhalf Hef53).
      unfold rne, loc_of_rem. rewrite Hsh53 in *.
      rewrite (Z.div_small N (2 ^ 53)) by lia.
      rewrite (Z.mod_small N (2 ^ 53)) by lia.
      destruct (Z.eqb_spec N 0) as [H0|_]; [lia|].
      assert ((2 * N ?= 2 ^ 53) = Gt) as ->
        by (apply Z.compare_gt_iff; change (2 ^ 53) with (2 * 2 ^ 52); lia).
      reflexivity. }
  unfold finish.
  destruct (rne (Zpos (m * mf)) sh) as [|p|p]; [lia| |lia].
  destruct (Zpos p =? 2 ^ 53).
  - destruct (c + 1 <=? 971); [left; eauto | right; reflexivity].
  - destruct (c <=? 971); [left; eauto | right; reflexivity].
Qed.

(** Every factor is above one half. *)
Lemma factor_above_half (x : Z) :
  0 <= x ->
  exists mf ef,
    Prim2SF (factor (double := float) x) = S754_finite false mf ef /\
    2 ^ 52 <= Zpos mf /\ -53 <= ef <= -52 /\
    (ef = -53 -> 2 ^ 52 < Zpos mf).
Proof.
  intro Hx. unfold factor.
  pose proof (draw_cases x Hx) as Hc.
  repeat (destruct Hc as [Hc|Hc]); rewrite Hc;
    (eexists; eexists; split; [vm_compute; reflexivity|];
     split; [Zle_computed|]; split; [lia|];
     intro; try lia; apply Z.ltb_lt; vm_compute; reflexivity).
Qed.

(** *** The sign of a drifted premium *)

(** One drift keeps a positive premium positive and a negative one
    negative. *)
Lemma drift_sign (p : float) (x : Z) :
  0 <= x ->
  (PrimFloat.ltb 0 p = true -> PrimFloat.ltb 0 (dmul p (factor x)) = true) /\
  (PrimFloat.ltb p 0 = true -> PrimFloat.ltb (dmul p (factor x)) 0 = true).
Proof.
  intro Hx.
  destruct (factor_above_half x Hx) as (mf & ef & Hf & Hmf & Hef & Hhalf).
  change (@dmul float binary64_ops) with PrimFloat.mul.
  rewrite !FloatAxioms.ltb_spec, FloatAxioms.mul_spec, Hf.
  change (Prim2SF 0) with (S754_zero false).
  pose proof (Prim2SF_valid p) as Hv.
  destruct (Prim2SF p) as [s|s| |s m e]; cbn [SF64mul SFmul];
    rewrite ?xorb_false_r.
  - split; destruct s; intro H; discriminate H.
  - split; destruct s; intro H; try discriminate H; reflexivity.
  - split; intro H; discriminate H.
  - cbn [valid_binary] in Hv.
    destruct (product_nonzero s m mf e ef Hv Hmf Hef Hhalf)
      as [(m' & e' & ->)| ->];
      split; destruct s; intro H; try discriminate H; reflexivity.
Qed.

(** One drift does not make negative a premium that is not: a zero keeps
    its sign, a NaN stays a NaN. *)
Lemma drift_not_negative (p : float) (x : Z) :
  0 <= x ->
  PrimFloat.ltb p 0 = false -> PrimFloat.ltb (dmul p (factor x)) 0 = false.
Proof.
  intro Hx.
  destruct (factor_above_half x Hx) as (mf & ef & Hf & Hmf & Hef & Hhalf).
  change (@dmul float binary64_ops) with PrimFloat.mul.
  rewrite !FloatAxioms.ltb_spec, FloatAxioms.mul_spec, Hf.
  change (Prim2SF 0) with (S754_zero false).
  pose proof (Prim2SF_valid p) as Hv.
  destruct (Prim2SF p) as [s|s| |s m e]; cbn [SF64mul SFmul];
    rewrite ?xorb_false_r.
  - intros _. destruct s; reflexivity.
  - destruct s; intro H; [discriminate H | reflexivity].
  - intros _. reflexivity.
  - cbn [valid_binary] in Hv. destruct s; intro H; [discriminate H|].
    destruct (product_nonzero false m mf e ef Hv Hmf Hef Hhalf)
      as [(m' & e' & ->)| ->]; reflexivity.
Qed.

(** Through any number of updates a premium above zero stays above zero,
    and a premium is below zero afterwards only if it was before. *)
Lemma premium_sign_binary64 (n : nat) (w : World float) (i : nat)
  (o : Option float) :
  rand_ok w ->
  nth_error (options (chain w)) i = Some o ->
  exists o',
    nth_error (options (chain (updates n w))) i = Some o' /\
    (PrimFloat.ltb 0 (premium o) = true ->
     PrimFloat.ltb 0 (premium o') = true) /\
    (PrimFloat.ltb (premium o') 0 = true ->
     PrimFloat.ltb (premium o) 0 = true).
Proof.
  intros Hok Hi.
  destruct (premium_invariant (fun _ => True) (fun _ _ _ _ => I)
              n w i o Hok Hi I) as (o' & Hi' & _).
  exists o'. split; [exact Hi'|]. split.
  - intro Hpos.
    destruct (premium_invariant
                (fun p => PrimFloat.ltb 0 p = true)
                (fun p x Hx => proj1 (drift_sign p x Hx))
                n w i o Hok Hi Hpos) as (o1 & Hi1 & H1).
    rewrite Hi' in Hi1. injection Hi1 as <-. exact H1.
  - intro Hneg. destruct (PrimFloat.ltb (premium o) 0) eqn:Hbefore;
      [reflexivity|].
    destruct (premium_invariant
                (fun p => PrimFloat.ltb p 0 = false)
                drift_not_negative
                n w i o Hok Hi Hbefore) as (o1 & Hi1 & H1).
    rewrite Hi' in Hi1. injection Hi1 as <-. congruence.
Qed.

End Binary64Sign.

(** * The numeric claims, in exact arithmetic and in binary64 *)

Section Numeric.

Local Open Scope string_scope.
Local Open Scope list_scope.
Local Open Scope Q_scope.

(** C1.  For every strike [K], premium [P] and market price [M] the payoff
    of a call is max(0, M - K) - P and the payoff of a put is
    max(0, K - M) - P: as an equation between rationals in exact
    arithmetic, and in binary64 as that expression in double arithmetic,
    where [std::max(0.0, x)] is one of 0 and [x] and not below either
    (unless [x] is a NaN).  [calculatePayoff] is a [const] method: a
    function of the object's fields and of its argument, which takes no
    program state and returns none. *)
Theorem calculatePayoff_formula :
  (forall (K P M : Q) (E : string),
     calculatePayoff (CallOption K P E) M = Qmax 0 (M - K) - P /\
     calculatePayoff (PutOption K P E) M = Qmax 0 (K - M) - P) /\
  (forall (K P M : float) (E : string),
     calculatePayoff (CallOption K P E) M =
       dsub (std_max (of_int 0) (dsub M K)) P /\
     calculatePayoff (PutOption K P E) M =
       dsub (std_max (of_int 0) (dsub K M)) P) /\
  (forall x : float,
     Prim2SF x <> S754_nan ->
     (std_max (of_int 0) x = of_int 0 \/ std_max (of_int 0) x = x) /\
     PrimFloat.leb (of_int 0) (std_max (of_int 0) x) = true /\
     PrimFloat.leb x (std_max (of_int 0) x) = true).
Proof.
  split; [exact payoff_exact|].
  split; [intros; split; reflexivity | exact std_max_binary64].
Qed.

(** C3, amended.  For every contract of the registry one call of
    [updateOptionPrices] replaces its premium [p] by [p * (1 + r / 100)],
    all other fields unchanged, for an integer [r] between -5 and 4 (the
    draw [rand() % 10 - 5]).  In exact arithmetic the new premium lies
    within [0.95 p, 1.04 p] when [p] is not negative and within
    [1.04 p, 0.95 p] when [p] is not positive.  In binary64 the same holds
    of the doubles: the tests [0.95 * p <= p'] and [p' <= 1.04 * p],
    computed in double arithmetic, succeed for every [p] that is not below
    zero, and the tests [1.04 * p <= p'] and [p' <= 0.95 * p] for every [p]
    that is not above zero. *)
Theorem updateOptionPrices_premium :
  (forall (w : World Q) (i : nat) (o : Option Q),
     rand_ok w ->
     nth_error (options (chain w)) i = Some o ->
     exists (r : Z) (o' : Option Q),
       (-5 <= r <= 4)%Z /\
       nth_error (options (chain (exec updateOptionPrices w))) i = Some o' /\
       o' = setPremium o (premium o') /\
       premium o' = premium o * (1 + inject_Z r / 100) /\
       (0 <= premium o ->
        (95 # 100) * premium o <= premium o' <= (104 # 100) * premium o) /\
       (premium o <= 0 ->
        (104 # 100) * premium o <= premium o' <= (95 # 100) * premium o)) /\
  (forall (w : World float) (i : nat) (o : Option float),
     rand_ok w ->
     nth_error (options (chain w)) i = Some o ->
     exists (r : Z) (o' : Option float),
       (-5 <= r <= 4)%Z /\
       nth_error (options (chain (exec updateOptionPrices w))) i = Some o' /\
       o' = setPremium o (premium o') /\
       premium o' =
         dmul (premium o) (dadd (of_int 1) (ddiv (of_int r) (of_int 100))) /\
       (PrimFloat.leb 0 (premium o) = true ->
        PrimFloat.leb (dmul double_0_95 (premium o)) (premium o') = true /\
        PrimFloat.leb (premium o') (dmul double_1_04 (premium o)) = true) /\
       (PrimFloat.leb (premium o) 0 = true ->
        PrimFloat.leb (dmul double_1_04 (premium o)) (premium o') = true /\
        PrimFloat.leb (premium o') (dmul double_0_95 (premium o)) = true)).
Proof. split; [exact premium_step_exact | exact premium_step_double]. Qed.

(** C6, amended.  Drift never makes a positive premium negative, whatever
    [rand()] returns and however often [updateOptionPrices] is called: a
    premium above zero stays above zero, in exact arithmetic and as a
    comparison of doubles in binary64 (where it never reaches zero either).
    And for every contract, whatever its premium (zero, a NaN and the
    infinities included), the premium is below zero after drift only if it
    was below zero before. *)
Theorem premium_stays_positive :
  (forall (n : nat) (w : World Q) (i : nat) (o : Option Q),
     rand_ok w ->
     nth_error (options (chain w)) i = Some o ->
     exists o',
       nth_error (options (chain (updates n w))) i = Some o' /\
       (0 < premium o -> 0 < premium o') /\
       (premium o' < 0 -> premium o < 0)) /\
  (forall (n : nat) (w : World float) (i : nat) (o : Option float),
     rand_ok w ->
     nth_error (options (chain w)) i = Some o ->
     exists o',
       nth_error (options (chain (updates n w))) i = Some o' /\
       (PrimFloat.ltb 0 (premium o) = true ->
        PrimFloat.ltb 0 (premium o') = true) /\
       (PrimFloat.ltb (premium o') 0 = true ->
        PrimFloat.ltb (premium o) 0 = true)).
Proof. split; [exact premium_sign_exact | exact premium_sign_binary64]. Qed.

(** C8, amended.  From a registry that holds the single contract
    Call(strike 100, premium 5), after any number [n <= 100] of calls of
    [updateOptionPrices] and for every sequence of draws, the registry still
    holds that single call; in exact arithmetic its premium lies between
    5 * 0.95^100 and 5 * 1.04^100, and in binary64 between these bounds
    widened by a relative 2^-44. *)
Theorem premium_bounds_100 :
  (forall (n : nat) (w : World Q) (E : string),
     rand_ok w ->
     options (chain w) = [CallOption 100 5 E] ->
     (n <= 100)%nat ->
     exists p, options (chain (updates n w)) = [CallOption 100 p E] /\
               5 * (95 # 100) ^ 100 <= p <= 5 * (104 # 100) ^ 100) /\
  (forall (n : nat) (w : World float) (E : string),
     rand_ok w ->
     options (chain w) = [CallOption (of_int 100) (of_int 5) E] ->
     (n <= 100)%nat ->
     exists p,
       options (chain (updates n w)) = [CallOption (of_int 100) p E] /\
       5 * (95 # 100) ^ 100 * (1 - tolerance) <= float_value p
         <= 5 * (104 # 100) ^ 100 * (1 + tolerance)).
Proof. split; [exact premium_bounds_exact | exact premium_bounds_binary64]. Qed.

End Numeric.

(** * Concrete runs: counterexamples and instances *)

Section Runs.

Local Open Scope string_scope.
Local Open Scope list_scope.
Local Open Scope Q_scope.

Lemma always_ok {double : Type} (x : Z) (c : OptionChain double)
  (t : list (event double)) (k : nat) :
  (0 <= x)%Z -> rand_ok (mkWorld c t (always x) k).
Proof. intros Hx n. exact Hx. Qed.

(** C3, as stated, fails for a contract entered with a negative premium:
    from -4 a draw of +4% gives -4.16, which is below 0.95 * (-4) = -3.8.
    In binary64 the premium becomes the double -4.16
    ([-0x1.0a3d70a3d70a4p+2]) and the test [0.95 * old <= new] fails.
    Read as real numbers the bounds are also passed by rounding: from the
    premium 1 a draw of +4% gives the double 1.04, which is above the
    number 1.04. *)
Lemma premium_interval_fails :
  (exists o o' : Option Q,
     rand_ok short_world /\
     options (chain short_world) = [o] /\
     options (chain (exec updateOptionPrices short_world)) = [o'] /\
     premium o == - (4 # 1) /\
     premium o' == - (416 # 100) /\
     ~ ((95 # 100) * premium o <= premium o' <= (104 # 100) * premium o)) /\
  (exists o o' : Option float,
     rand_ok short_world64 /\
     options (chain short_world64) = [o] /\
     options (chain (exec updateOptionPrices short_world64)) = [o'] /\
     premium o = (-4)%float /\
     premium o' = (-0x1.0a3d70a3d70a4p+2)%float /\
     PrimFloat.leb (dmul double_0_95 (premium o)) (premium o') = false) /\
  (exists o o' : Option float,
     rand_ok unit_world64 /\
     options (chain unit_world64) = [o] /\
     options (chain (exec updateOptionPrices unit_world64)) = [o'] /\
     premium o = 1%float /\
     (104 # 100) * float_value (premium o) < float_value (premium o')).
Proof.
  split; [|split].
  - exists (PutOption 100 (-4) "2024-12-31").
    eexists. split; [apply always_ok; lia|].
    split; [reflexivity|]. split; [reflexivity|].
    split; [reflexivity|]. split; [reflexivity|].
    intros [H _]. vm_compute in H. apply H. reflexivity.
  - eexists. eexists. split; [apply always_ok; lia|].
    split; [reflexivity|]. split; [reflexivity|].
    split; [vm_compute; reflexivity|]. split; vm_compute; reflexivity.
  - eexists. eexists. split; [apply always_ok; lia|].
    split; [reflexivity|]. split; [reflexivity|].
    split; [vm_compute; reflexivity|].
    apply Qnot_le_lt; intro H; apply Qle_bool_iff in H;
      vm_compute in H; discriminate H.
Qed.

(** C4, as stated, fails for an observer that is registered twice:
    [registerObserver] does not look for duplicates, so when
    [chain.registerObserver(&display)] is called once more in [main] the
    display is notified twice by every [updateOptionPrices], not exactly
    once. *)
Lemma observer_notified_twice :
  observers (chain twice_world64) = [1%nat; 1%nat] /\
  exists news,
    trace (exec updateOptionPrices twice_world64) =
      trace twice_world64 ++ news /\
    update_calls news = [1%nat; 1%nat] /\
    count_occ Nat.eq_dec (update_calls news) 1%nat = 2%nat /\
    count_occ Nat.eq_dec (update_calls news) 1%nat <> 1%nat.
Proof.
  split; [reflexivity|].
  rewrite updateOptionPrices_run. cbv zeta. cbn [trace].
  eexists. split; [reflexivity|].
  rewrite update_calls_frames.
  split; [reflexivity|]. split; [reflexivity | discriminate].
Qed.

(** C5, as stated, fails on the registry [main] builds: after two more
    contracts [A] and [B] are added the quote still shows the initial call,
    not [A]. *)
Lemma displaySingleQuote_not_A :
  exists A B : Option float,
    let w2 := exec (addOption B) (exec (addOption A) main_world64) in
    trace (exec displaySingleQuote w2) =
      trace w2 ++
      map (@Cout float)
        (displayInfo (CallOption (of_int 100) (of_int 5) "2024-12-31")) /\
    trace (exec displaySingleQuote w2) <>
      trace w2 ++ map (@Cout float) (displayInfo A).
Proof.
  exists (PutOption (of_int 110) (of_int 6) "2025-01-31"),
         (CallOption (of_int 90) (of_int 3) "2025-01-31").
  split; [reflexivity|].
  intro H. apply app_inv_head in H. discriminate H.
Qed.

(** C6, as stated, fails: no contract with a positive premium and no
    sequence of draws lead to a negative premium, in exact arithmetic or in
    binary64. *)
Lemma no_negative_premium_from_positive :
  (~ exists (w : World Q) (n i : nat) (o o' : Option Q),
       rand_ok w /\
       nth_error (options (chain w)) i = Some o /\
       0 < premium o /\
       nth_error (options (chain (updates n w))) i = Some o' /\
       premium o' < 0) /\
  (~ exists (w : World float) (n i : nat) (o o' : Option float),
       rand_ok w /\
       nth_error (options (chain w)) i = Some o /\
       PrimFloat.ltb 0 (premium o) = true /\
       nth_error (options (chain (updates n w))) i = Some o' /\
       PrimFloat.ltb (premium o') 0 = true).
Proof.
  split.
  - intros (w & n & i & o & o' & Hok & Hi & Hpos & Hi' & Hneg).
    destruct (positive_premium_kept n w i o Hok Hi Hpos) as (o1 & H1 & Hp1).
    rewrite Hi' in H1. injection H1 as ->. lra.
  - intros (w & n & i & o & o' & Hok & Hi & Hpos & Hi' & Hneg).
    destruct (never_negative_binary64 n w i o Hok Hi Hpos)
      as (o1 & H1 & _ & Hp1).
    rewrite Hi' in H1. injection H1 as ->. congruence.
Qed.

(** C8, as stated, fails in binary64 by rounding alone: the run whose every
    draw is +4% ends above 5 * 1.04^100, and the run whose every draw is
    -5% ends below 5 * 0.95^100. *)
Lemma binary64_extreme_runs :
  exists up down : float,
    rand_ok (call_world64 (always 9)) /\
    rand_ok (call_world64 (always 0)) /\
    options (chain (updates 100 (call_world64 (always 9)))) =
      [CallOption (of_int 100) up "2024-12-31"] /\
    options (chain (updates 100 (call_world64 (always 0)))) =
      [CallOption (of_int 100) down "2024-12-31"] /\
    5 * (104 # 100) ^ 100 < float_value up /\
    float_value down < 5 * (95 # 100) ^ 100.
Proof.
  eexists. eexists.
  split; [apply always_ok; lia|]. split; [apply always_ok; lia|].
  split; [vm_compute; reflexivity|]. split; [vm_compute; reflexivity|].
  split; apply Qnot_le_lt; intro H; apply Qle_bool_iff in H;
    vm_compute in H; discriminate H.
Qed.

(** The scenario of the specification: the put created for strike 100 and
    premium 4 pays (100 - 90) - 4 = 6 at a market price of 90, in exact
    arithmetic and in binary64. *)
Lemma put_payoff_scenario :
  (exists o, createOption "Put" 100 4 "2024-12-31" = Some o /\
             calculatePayoff o 90 = 6) /\
  (exists o, createOption "Put" (of_int 100) (of_int 4) "2024-12-31" = Some o /\
             calculatePayoff o (of_int 90) = 6%float).
Proof.
  split; eexists; (split; [reflexivity|]); vm_compute; reflexivity.
Qed.

(** *** Instances of the theorems that have hypotheses *)

Lemma createOption_by_tag_witness :
  "Straddle" <> "Call" /\ "Straddle" <> "Put" /\
  createOption "Straddle" (of_int 100) (of_int 4) "2024-12-31" =
    @None (Option float).
Proof.
  assert ("Straddle" <> "Call") as HC by discriminate.
  assert ("Straddle" <> "Put") as HP by discriminate.
  split; [exact HC|]. split; [exact HP|].
  exact (proj2 (proj2 (createOption_by_tag (of_int 100) (of_int 4) "2024-12-31"))
           "Straddle" HC HP).
Defined.

Lemma calculatePayoff_formula_witness :
  Prim2SF (dsub (of_int 90) (of_int 100)) <> S754_nan /\
  PrimFloat.leb (of_int 0)
    (std_max (of_int 0) (dsub (of_int 90) (of_int 100))) = true /\
  PrimFloat.leb (dsub (of_int 90) (of_int 100))
    (std_max (of_int 0) (dsub (of_int 90) (of_int 100))) = true.
Proof.
  assert (Prim2SF (dsub (of_int 90) (of_int 100)) <> S754_nan) as Hnan
    by (vm_compute; discriminate).
  split; [exact Hnan|].
  exact (proj2 (proj2 (proj2 calculatePayoff_formula)
                  (dsub (of_int 90) (of_int 100)) Hnan)).
Defined.

Lemma four_in_range : in_range (of_int (double := float) 4).
Proof.
  right. exists false, 4503599627370496%positive, (-50)%Z.
  split; [vm_compute; reflexivity|].
  split; [split; [apply Z.leb_le | apply Z.ltb_lt]; reflexivity | lia].
Defined.

Lemma updateOptionPrices_premium_witness :
  rand_ok main_world64 /\
  nth_error (options (chain main_world64)) 1 =
    Some (PutOption (of_int 100) (of_int 4) "2024-12-31") /\
  PrimFloat.leb 0 (of_int 4) = true /\
  exists (r : Z) (o' : Option float),
    (-5 <= r <= 4)%Z /\
    nth_error (options (chain (exec updateOptionPrices main_world64))) 1 = Some o' /\
    o' = setPremium (PutOption (of_int 100) (of_int 4) "2024-12-31") (premium o') /\
    premium o' =
      dmul (of_int 4) (dadd (of_int 1) (ddiv (of_int r) (of_int 100))) /\
    PrimFloat.leb (dmul double_0_95 (of_int 4)) (premium o') = true /\
    PrimFloat.leb (premium o') (dmul double_1_04 (of_int 4)) = true.
Proof.
  assert (rand_ok main_world64) as Hok by (apply always_ok; lia).
  assert (PrimFloat.leb 0 (of_int (double := float) 4) = true) as Hpos
    by (vm_compute; reflexivity).
  split; [exact Hok|]. split; [reflexivity|]. split; [exact Hpos|].
  destruct (proj2 updateOptionPrices_premium main_world64 1%nat
              (PutOption (of_int 100) (of_int 4) "2024-12-31") Hok eq_refl)
    as (r & o' & Hr & Hi & Ho & Hp & Hn & _).
  exists r, o'.
  split; [exact Hr|]. split; [exact Hi|]. split; [exact Ho|].
  split; [exact Hp|]. exact (Hn Hpos).
Defined.

(** The same update read as real numbers: the premium 4 of the initial put
    moves to a double within [0.95 * 4, 1.04 * 4] up to a relative 2^-51. *)
Lemma premium_step_binary64_witness :
  rand_ok main_world64 /\
  nth_error (options (chain main_world64)) 1 =
    Some (PutOption (of_int 100) (of_int 4) "2024-12-31") /\
  in_range (of_int (double := float) 4) /\
  0 <= float_value (of_int 4) /\
  exists (r : Z) (o' : Option float),
    (-5 <= r <= 4)%Z /\
    nth_error (options (chain (exec updateOptionPrices main_world64))) 1 = Some o' /\
    o' = setPremium (PutOption (of_int 100) (of_int 4) "2024-12-31") (premium o') /\
    premium o' =
      dmul (of_int 4) (dadd (of_int 1) (ddiv (of_int r) (of_int 100))) /\
    (95 # 100) * (1 - step_tolerance) * float_value (of_int 4)
      <= float_value (premium o')
      <= (104 # 100) * (1 + step_tolerance) * float_value (of_int 4).
Proof.
  assert (rand_ok main_world64) as Hok by (apply always_ok; lia).
  assert (0 <= float_value (of_int 4)) as Hpos by by_computation.
  split; [exact Hok|]. split; [reflexivity|]. split; [exact four_in_range|].
  split; [exact Hpos|].
  destruct (premium_step_binary64 main_world64 1%nat
              (PutOption (of_int 100) (of_int 4) "2024-12-31") Hok eq_refl)
    as (r & o' & Hr & Hi & Ho & Hp & Hn).
  exists r, o'.
  split; [exact Hr|]. split; [exact Hi|]. split; [exact Ho|].
  split; [exact Hp|]. exact (proj1 (Hn four_in_range) Hpos).
Defined.

Lemma updateOptionPrices_notifies_witness :
  let w := start (double := float) (always 9) in
  let w1 := exec (for_each addOption
                    [CallOption (of_int 100) (of_int 5) "2024-12-31"])
              (exec (for_each registerObserver [1%nat; 2%nat]) w) in
  observers (chain w) = [] /\
  count_occ Nat.eq_dec [1%nat; 2%nat] 2%nat = 1%nat /\
  observers (chain w1) = [1%nat; 2%nat] /\
  exists news,
    trace (exec updateOptionPrices w1) = trace w1 ++ news /\
    update_calls news = [1%nat; 2%nat] /\
    count_occ Nat.eq_dec (update_calls news) 2%nat = 1%nat.
Proof.
  intros w w1.
  destruct (updateOptionPrices_notifies w [1%nat; 2%nat]
              [CallOption (of_int 100) (of_int 5) "2024-12-31"])
    as (_ & _ & Hfresh & news & Htrace & _ & _ & _ & Hcalls & _ & Honce & _).
  split; [reflexivity|]. split; [reflexivity|].
  split; [exact (Hfresh eq_refl)|].
  exists news. split; [exact Htrace|]. split; [exact Hcalls|].
  exact (Honce 2%nat eq_refl).
Defined.

Lemma displaySingleQuote_earliest_witness :
  let w := start (always 9) in
  let A := CallOption (of_int 100) (of_int 5) "2024-12-31" in
  let B := PutOption (of_int 100) (of_int 4) "2024-12-31" in
  let w2 := exec (addOption B) (exec (addOption A) w) in
  options (chain w) = [] /\
  trace (exec displaySingleQuote w2) =
    trace w2 ++ map (@Cout float) (displayInfo A) /\
  exec displaySingleQuote w = w.
Proof.
  intros w A B w2.
  destruct (displaySingleQuote_earliest w A B) as (_ & _ & HA & Hnone).
  split; [reflexivity|]. split; [exact (HA eq_refl) | exact (Hnone eq_refl)].
Defined.

Lemma premium_stays_positive_witness :
  rand_ok main_world64 /\
  nth_error (options (chain main_world64)) 0 =
    Some (CallOption (of_int 100) (of_int 5) "2024-12-31") /\
  PrimFloat.ltb 0 (of_int 5) = true /\
  exists o', nth_error (options (chain (updates 100 main_world64))) 0 = Some o' /\
             PrimFloat.ltb 0 (premium o') = true.
Proof.
  assert (rand_ok main_world64) as Hok by (apply always_ok; lia).
  split; [exact Hok|]. split; [reflexivity|]. split; [reflexivity|].
  destruct (proj2 premium_stays_positive 100%nat main_world64 0%nat
              (CallOption (of_int 100) (of_int 5) "2024-12-31") Hok eq_refl)
    as (o' & Hi & Hpos & _).
  exists o'. split; [exact Hi | exact (Hpos eq_refl)].
Defined.

Lemma execute_invalid_type_witness :
  in_optionType straddle <> "Call" /\
  in_optionType straddle <> "Put" /\
  chain (exec (execute straddle) main_world64) = chain main_world64.
Proof.
  assert (in_optionType straddle <> "Call") as HC by discriminate.
  assert (in_optionType straddle <> "Put") as HP by discriminate.
  split; [exact HC|]. split; [exact HP|].
  exact (proj1 (proj2 (execute_invalid_type straddle main_world64 HC HP))).
Defined.

Lemma premium_bounds_100_witness :
  rand_ok (call_world64 (always 9)) /\
  options (chain (call_world64 (always 9))) =
    [CallOption (of_int 100) (of_int 5) "2024-12-31"] /\
  (100 <= 100)%nat /\
  exists p,
    options (chain (updates 100 (call_world64 (always 9)))) =
      [CallOption (of_int 100) p "2024-12-31"] /\
    5 * (95 # 100) ^ 100 * (1 - tolerance) <= float_value p
      <= 5 * (104 # 100) ^ 100 * (1 + tolerance).
Proof.
  assert (rand_ok (call_world64 (always 9))) as Hok by (apply always_ok; lia).
  split; [exact Hok|]. split; [reflexivity|]. split; [apply le_n|].
  exact (proj2 premium_bounds_100 100%nat (call_world64 (always 9)) "2024-12-31"
           Hok eq_refl (le_n 100)).
Defined.


End Runs.

(** * Further properties of the program *)

(** ** Trades, displays and the loop of [main], for every arithmetic *)

Section Session.

Context {double : Type} {ops : DoubleOps double}.

Local Open Scope string_scope.
Local Open Scope list_scope.

(** *** Straight-line statements in closed form *)

Lemma show_menu_run (w : World double) :
  show_menu w =
  (tt, mkWorld (chain w) (trace w ++ map (@Cout double) menu_text)
         (rand_seq w) (rand_calls w)).
Proof.
  unfold show_menu, menu_text. run. repeat rewrite <- app_assoc. reflexivity.
Qed.

(** The contract [execute] adds, if any, and its last line. *)
Lemma execute_run (input : TradeInput double) (w : World double) :
  execute input w =
  (tt,
   match createOption (in_optionType input) (in_strikePrice input)
           (in_premium input) (in_expiry input) with
   | Some o =>
       mkWorld (mkChain (options (chain w) ++ [o]) (observers (chain w)))
         (trace w ++ map (@Cout double)
            (prompts ++ [TStr "Trade executed successfully."; TEndl]))
         (rand_seq w) (rand_calls w)
   | None =>
       mkWorld (chain w)
         (trace w ++ map (@Cout double)
            (prompts ++ [TStr "Invalid option type. Trade not executed."; TEndl]))
         (rand_seq w) (rand_calls w)
   end).
Proof.
  unfold execute, prompts.
  destruct (createOption _ _ _ _) as [o|]; run;
    repeat rewrite <- app_assoc; reflexivity.
Qed.

Lemma updateOptionPrices_pair (w : World double) :
  updateOptionPrices w = (tt, exec updateOptionPrices w).
Proof. unfold exec. destruct (updateOptionPrices w) as [[] w']. reflexivity. Qed.

Lemma main_turn_run (display : ptr) (choice : ascii) (input : TradeInput double)
  (w : World double) :
  main_turn display choice input w =
  let w0 := snd (show_menu w) in
  if Ascii.eqb choice "1"
  then update display (exec updateOptionPrices w0)
  else if Ascii.eqb choice "2" then execute input w0
  else (tt, w0).
Proof.
  unfold main_turn, show_menu, updateMarket. unfold bind at 1 2 3 4 5 6.
  unfold cout, emit. cbn [snd].
  destruct (Ascii.eqb choice "1"); [|destruct (Ascii.eqb choice "2")];
    try reflexivity.
  unfold bind. rewrite updateOptionPrices_pair. reflexivity.
Qed.

(** *** Entering a trade *)

(** A trade whose type is "Call" or "Put" appends one contract holding the
    strike, premium and expiry read, after the contracts already there;
    it registers and notifies no observer, draws no random number, and
    writes "Trade executed successfully." after the prompts. *)
Theorem execute_valid_type (input : TradeInput double) (w : World double)
  (k : OptionKind) :
  (k = Call /\ in_optionType input = "Call") \/
  (k = Put /\ in_optionType input = "Put") ->
  let w' := exec (execute input) w in
  options (chain w') =
    options (chain w) ++
    [mkOption k (in_strikePrice input) (in_premium input) (in_expiry input)] /\
  observers (chain w') = observers (chain w) /\
  rand_calls w' = rand_calls w /\
  trace w' =
    trace w ++
    map (@Cout double)
      (prompts ++ [TStr "Trade executed successfully."; TEndl]) /\
  update_calls (trace w') = update_calls (trace w).
Proof.
  intros Hk w'. subst w'. unfold exec. rewrite execute_run.
  assert (createOption (in_optionType input) (in_strikePrice input)
            (in_premium input) (in_expiry input) =
          Some (mkOption k (in_strikePrice input) (in_premium input)
                  (in_expiry input))) as ->.
  { destruct Hk as [[-> ->]|[-> ->]]; reflexivity. }
  cbn [snd chain options observers rand_calls trace].
  repeat split.
  rewrite update_calls_app, update_calls_cout. apply app_nil_r.
Qed.

(** *** Registering a display *)

(** The constructor of [RealTimeDisplay] appends the new object to the
    observers, without looking for it among them: the next
    [updateOptionPrices] calls its [update()] after those of the observers
    registered before, and once more than before if the address was
    registered already. *)
Theorem RealTimeDisplay_notified (this : ptr) (w : World double) :
  let w1 := exec (RealTimeDisplay this) w in
  observers (chain w1) = observers (chain w) ++ [this] /\
  options (chain w1) = options (chain w) /\
  trace w1 = trace w /\
  exists news,
    trace (exec updateOptionPrices w1) = trace w ++ news /\
    update_calls news = observers (chain w) ++ [this] /\
    count_occ Nat.eq_dec (update_calls news) this =
      S (count_occ Nat.eq_dec (observers (chain w)) this).
Proof.
  intro w1. subst w1.
  change (exec (RealTimeDisplay this) w) with
    (mkWorld (mkChain (options (chain w)) (observers (chain w) ++ [this]))
       (trace w) (rand_seq w) (rand_calls w)).
  split; [reflexivity|]. split; [reflexivity|]. split; [reflexivity|].
  rewrite updateOptionPrices_run. cbn [trace chain observers options].
  eexists. split; [reflexivity|].
  rewrite update_calls_frames. split; [reflexivity|].
  rewrite count_occ_app. cbn [count_occ].
  destruct (Nat.eq_dec this this) as [_|Hne]; [apply Nat.add_1_r | contradiction].
Qed.

(** *** The draws of the premium loop *)

Lemma updates_length n (w : World double) :
  List.length (options (chain (updates n w))) = List.length (options (chain w)).
Proof.
  induction n; [reflexivity|].
  rewrite updates_S, updateOptionPrices_run. cbn [chain options].
  rewrite drifted_length. exact IHn.
Qed.

(** Each call of [updateOptionPrices] draws one value of [rand()] per
    contract, in the order of the registry, and no value is drawn twice:
    after [n] calls on a registry of [len] contracts [n * len] values have
    been drawn, and call number [n] multiplies the premium at position [i]
    by the factor of draw number [n * len + i]. *)
Theorem updateOptionPrices_draws (n : nat) (w : World double) :
  let len := List.length (options (chain w)) in
  rand_calls (updates n w) = (rand_calls w + n * len)%nat /\
  rand_seq (updates n w) = rand_seq w /\
  forall (i : nat) (o : Option double),
    nth_error (options (chain (updates n w))) i = Some o ->
    let r := rand_seq w (rand_calls w + (n * len + i))%nat in
    nth_error (options (chain (updates (S n) w))) i =
      Some (setPremium o
              (dmul (premium o)
                 (dadd (of_int 1) (ddiv (of_int (Z.rem r 10 - 5)) (of_int 100))))).
Proof.
  intro len.
  assert (rand_calls (updates n w) = (rand_calls w + n * len)%nat) as Hcalls.
  { induction n as [|n IH]; [simpl; lia|].
    rewrite updates_S, updateOptionPrices_run. cbn [rand_calls].
    rewrite IH, updates_length. fold len. lia. }
  split; [exact Hcalls|]. split; [apply updates_rand_seq|].
  intros i o Hi r. rewrite updates_S, (drift_nth _ _ _ Hi).
  rewrite updates_rand_seq, Hcalls.
  subst r. rewrite Nat.add_assoc. reflexivity.
Qed.

(** *** Reporting trades *)

Lemma executeTrade_run (t : Trade double) (M : double) (w : World double) :
  executeTrade t M w =
  (tt, mkWorld (chain w) (trace w ++ map (@Cout double) (trade_report t M))
         (rand_seq w) (rand_calls w)).
Proof.
  unfold executeTrade, trade_report. run. rewrite map_app, <- app_assoc.
  reflexivity.
Qed.

(** [executeStrategy] reports every trade once, in the order of the vector:
    the description of its option, its quantity and its payoff times the
    quantity.  It writes nothing for an empty vector, and changes neither the
    registry nor the observers nor the generator. *)
Theorem executeStrategy_reports (trades : list (Trade double)) (M : double)
  (w : World double) :
  exec (executeStrategy trades M) w =
  mkWorld (chain w)
    (trace w ++ map (@Cout double) (flat_map (fun t => trade_report t M) trades))
    (rand_seq w) (rand_calls w).
Proof.
  unfold exec, executeStrategy. revert w.
  induction trades as [|t trades IH]; intro w; cbn [for_each flat_map].
  - cbn. rewrite app_nil_r. symmetry. apply world_eta.
  - unfold bind. rewrite executeTrade_run, IH.
    cbn [chain trace rand_seq rand_calls].
    rewrite map_app, app_assoc. reflexivity.
Qed.

(** *** One turn of the menu *)

Lemma main_turn_exec (display : ptr) (choice : ascii)
  (input : TradeInput double) (w : World double) :
  main_turn display choice input w =
  (tt, exec (main_turn display choice input) w).
Proof.
  unfold exec. destruct (main_turn display choice input w) as [[] w'].
  reflexivity.
Qed.

(** Choosing '1' rewrites every premium once, draws the quote for every
    registered observer and then draws it once more for the display: as
    [main] registers the display, the same quote is drawn twice in a row. *)
Theorem main_turn_quote (display : ptr) (input : TradeInput double)
  (w : World double) :
  let w' := exec (main_turn display "1" input) w in
  let os' := drifted (rand_seq w) (rand_calls w) (options (chain w)) in
  options (chain w') = os' /\
  observers (chain w') = observers (chain w) /\
  trace w' =
    trace w ++ map (@Cout double) menu_text ++
    flat_map (frame os') (observers (chain w)) ++ frame os' display /\
  (observers (chain w) = [display] ->
   trace w' =
     trace w ++ map (@Cout double) menu_text ++
     frame os' display ++ frame os' display).
Proof.
  intros w' os'. subst w'. unfold exec at 1 2 3 4.
  rewrite main_turn_run, show_menu_run. cbn [snd Ascii.eqb Bool.eqb].
  cbv zeta. rewrite updateOptionPrices_run, update_run.
  cbn [snd chain options observers trace rand_seq rand_calls]. fold os'.
  split; [reflexivity|]. split; [reflexivity|].
  split; [now repeat rewrite <- app_assoc|].
  intros ->. cbn [flat_map]. rewrite app_nil_r.
  now repeat rewrite <- app_assoc.
Qed.

(** A character other than '1' and '2' (so also '3') does nothing: after
    the menu, nothing is written and no contract, observer or draw is
    touched. *)
Theorem main_turn_other (display : ptr) (choice : ascii)
  (input : TradeInput double) (w : World double) :
  choice <> "1"%char -> choice <> "2"%char ->
  exec (main_turn display choice input) w =
  mkWorld (chain w) (trace w ++ map (@Cout double) menu_text)
    (rand_seq w) (rand_calls w).
Proof.
  intros H1 H2. unfold exec. rewrite main_turn_run, show_menu_run.
  apply Ascii.eqb_neq in H1. apply Ascii.eqb_neq in H2.
  cbv zeta. rewrite H1, H2. reflexivity.
Qed.

(** *** The loop of [main] *)

(** The loop ends at the first '3': what is typed after it is not read,
    and as long as no '3' is typed the loop goes on. *)
Theorem main_loop_exit (display : ptr) (before after : list (Turn double))
  (input : TradeInput double) (w : World double) :
  Forall (fun t => fst t <> "3"%char) before ->
  main_loop display (before ++ ("3"%char, input) :: after) w =
    main_loop display (before ++ [("3"%char, input)]) w /\
  fst (main_loop display (before ++ ("3"%char, input) :: after) w) = true /\
  fst (main_loop display before w) = false.
Proof.
  intro Hb. revert w.
  induction Hb as [|[c i] before Hc Hb IH]; intro w.
  - cbn [app main_loop]. unfold bind.
    rewrite main_turn_exec. cbn [Ascii.eqb Bool.eqb andb].
    split; [reflexivity|]. split; [reflexivity|].
    rewrite show_menu_run. reflexivity.
  - cbn [fst] in Hc. apply Ascii.eqb_neq in Hc.
    cbn [app main_loop]. unfold bind.
    rewrite main_turn_exec, Hc. apply IH.
Qed.

(** A relation the registry keeps: the same contracts, premiums apart. *)
Lemma premiums_apart_refl (os : list (Option double)) :
  Forall2 (fun o o' => o' = setPremium o (premium o')) os os.
Proof. induction os as [|[k K P E] os IH]; constructor; auto. Qed.

Lemma premiums_apart_trans (os1 os2 os3 : list (Option double)) :
  Forall2 (fun o o' => o' = setPremium o (premium o')) os1 os2 ->
  Forall2 (fun o o' => o' = setPremium o (premium o')) os2 os3 ->
  Forall2 (fun o o' => o' = setPremium o (premium o')) os1 os3.
Proof.
  intro H12. revert os3.
  induction H12 as [|o1 o2 os1 os2 H _ IH]; intros os3 H23;
    inversion H23 as [|? o3 ? os3' H' H23']; subst; constructor.
  - rewrite H', H. reflexivity.
  - apply IH, H23'.
Qed.

Lemma premiums_apart_drifted seq n (os : list (Option double)) :
  Forall2 (fun o o' => o' = setPremium o (premium o')) os (drifted seq n os).
Proof.
  revert n. induction os as [|o os IH]; intro n; simpl; constructor;
    [reflexivity | apply IH].
Qed.

(** What the loop keeps, from any state. *)
Lemma main_loop_registry (display : ptr) (turns : list (Turn double)) :
  forall w : World double,
    let w' := snd (main_loop display turns w) in
    observers (chain w') = observers (chain w) /\
    Forall2 (fun o o' => o' = setPremium o (premium o'))
      (options (chain w) ++ entered turns) (options (chain w')).
Proof.
  induction turns as [|[c i] turns IH]; intro w; cbn [main_loop entered].
  - unfold bind. rewrite show_menu_run. cbn [snd chain].
    rewrite app_nil_r. split; [reflexivity | apply premiums_apart_refl].
  - unfold bind. rewrite main_turn_run, show_menu_run. cbv zeta. cbn [snd].
    destruct (Ascii.eqb c "3") eqn:H3.
    + apply Ascii.eqb_eq in H3. subst c. cbn [Ascii.eqb Bool.eqb andb snd chain].
      rewrite app_nil_r. split; [reflexivity | apply premiums_apart_refl].
    + destruct (Ascii.eqb c "1") eqn:H1.
      * apply Ascii.eqb_eq in H1. subst c. cbn [Ascii.eqb Bool.eqb andb].
        rewrite update_run, updateOptionPrices_run.
        cbv zeta. cbn [snd chain options observers trace rand_seq rand_calls].
        match goal with |- context [main_loop display turns ?x] =>
          destruct (IH x) as [Ho Hr]
        end.
        cbn [chain options observers] in Ho, Hr.
        split; [exact Ho|]. cbn [app].
        eapply premiums_apart_trans; [|exact Hr].
        apply Forall2_app; [apply premiums_apart_drifted|apply premiums_apart_refl].
      * destruct (Ascii.eqb c "2") eqn:H2.
        -- rewrite execute_run. cbn [snd].
           destruct (createOption _ _ _ _) as [o|];
             match goal with |- context [main_loop display turns ?x] =>
               destruct (IH x) as [Ho Hr]
             end;
             cbn [chain options observers] in Ho, Hr;
             (split; [exact Ho|]); [rewrite <- app_assoc in Hr|]; exact Hr.
        -- match goal with |- context [main_loop display turns ?x] =>
             destruct (IH x) as [Ho Hr]
           end.
           cbn [chain options observers] in Ho, Hr. split; assumption.
Qed.

(** Whatever is typed, [main] keeps the two contracts it starts with at the
    head of the registry and appends every contract entered, in the order
    of entry; premiums apart, no contract is changed or removed, and the
    display stays the only observer.  So the quote always shows the initial
    call: a contract entered by the user is never displayed. *)
Theorem main_registry (display : ptr) (turns : list (Turn double))
  (seq : nat -> Z) :
  let w := snd (main display turns (start seq)) in
  observers (chain w) = [display] /\
  Forall2 (fun o o' => o' = setPremium o (premium o'))
    ([CallOption (of_int 100) (of_int 5) "2024-12-31";
      PutOption (of_int 100) (of_int 4) "2024-12-31"] ++ entered turns)
    (options (chain w)) /\
  exists p rest,
    options (chain w) = CallOption (of_int 100) p "2024-12-31" :: rest.
Proof.
  intro w. subst w. unfold main, bind.
  change (main_init display (start seq)) with
    (tt, mkWorld (mkChain [CallOption (of_int 100) (of_int 5) "2024-12-31";
                           PutOption (of_int 100) (of_int 4) "2024-12-31"]
                    [display]) [] seq 0).
  cbv beta iota.
  match goal with |- context [main_loop display turns ?x] =>
    destruct (main_loop_registry display turns x) as [Ho Hr]
  end.
  cbn [chain options observers] in Ho, Hr.
  split; [exact Ho|]. split; [exact Hr|].
  cbn [app] in Hr. inversion Hr as [|? o' ? rest H _]; subst.
  exists (premium o'), rest. rewrite H. reflexivity.
Qed.

Lemma update_calls_frame (os : list (Option double)) (this : ptr) :
  update_calls (frame os this) = [this].
Proof.
  pose proof (update_calls_frames os [this]) as H.
  cbn [flat_map] in H. rewrite app_nil_r in H. exact H.
Qed.

Lemma main_loop_redraws (display : ptr) (turns : list (Turn double)) :
  forall w : World double,
    observers (chain w) = [display] ->
    update_calls (trace (snd (main_loop display turns w))) =
    update_calls (trace w) ++ repeat display (2 * quotes turns).
Proof.
  induction turns as [|[c i] turns IH]; intros w Hobs; cbn [main_loop quotes].
  - unfold bind, ret. rewrite show_menu_run. cbn [snd trace repeat Nat.mul Nat.add].
    rewrite update_calls_app, update_calls_cout. reflexivity.
  - unfold bind. rewrite main_turn_run, show_menu_run. cbv zeta. cbn [snd].
    destruct (Ascii.eqb c "3") eqn:H3.
    + apply Ascii.eqb_eq in H3. subst c. unfold ret.
      cbn [Ascii.eqb Bool.eqb andb snd trace repeat Nat.mul Nat.add].
      rewrite update_calls_app, update_calls_cout. reflexivity.
    + destruct (Ascii.eqb c "1") eqn:H1.
      * rewrite update_run, updateOptionPrices_run.
        cbv zeta. cbn [snd chain options observers trace rand_seq rand_calls].
        rewrite IH by exact Hobs. cbn [trace].
        rewrite Hobs. cbn [flat_map]. rewrite app_nil_r.
        rewrite !update_calls_app, update_calls_cout, !update_calls_frame.
        replace (2 * (1 + quotes turns))%nat with (2 + 2 * quotes turns)%nat
          by lia.
        cbn [repeat Nat.add]. rewrite app_nil_r, <- !app_assoc. reflexivity.
      * destruct (Ascii.eqb c "2") eqn:H2.
        -- rewrite execute_run. cbn [snd].
           destruct (createOption _ _ _ _) as [o|];
             (rewrite IH by exact Hobs); cbn [trace Nat.add];
             rewrite !update_calls_app, !update_calls_cout, !app_nil_r;
             reflexivity.
        -- cbn [snd]. rewrite IH by exact Hobs. cbn [trace Nat.add].
           rewrite update_calls_app, update_calls_cout, app_nil_r.
           reflexivity.
Qed.

(** In a run of [main] that has returned (a '3' was read, so every
    extraction before it succeeded) the display was redrawn exactly twice
    for every '1' chosen and at no other time: entering a trade does not
    refresh the quote. *)
Theorem main_redraws (display : ptr) (turns : list (Turn double))
  (seq : nat -> Z) :
  fst (main display turns (start seq)) = true ->
  update_calls (trace (snd (main display turns (start seq)))) =
  repeat display (2 * quotes turns).
Proof.
  intros _. unfold main, bind.
  change (main_init display (start seq)) with
    (tt, mkWorld (mkChain [CallOption (of_int 100) (of_int 5) "2024-12-31";
                           PutOption (of_int 100) (of_int 4) "2024-12-31"]
                    [display]) [] seq 0).
  cbv beta iota. rewrite main_loop_redraws by reflexivity. reflexivity.
Qed.

(** The quantity read by [execute] is never used: when a run of [main]
    has returned (so every extraction succeeded), a run in which other
    quantities are typed, each of them an [int], returns too, in the same
    state and with the same output. *)
Theorem main_ignores_quantity (display : ptr)
  (turns turns' : list (Turn double)) (w : World double) :
  Forall2 (fun t t' => fst t' = fst t /\
                       is_int (in_quantity (snd t)) /\
                       exists q, is_int q /\ snd t' = with_quantity (snd t) q)
    turns turns' ->
  fst (main display turns w) = true ->
  main display turns' w = main display turns w.
Proof.
  intros Hq _. unfold main, bind. destruct (main_init display w) as [[] w0].
  revert w0.
  induction Hq as [|[c i] [c' i'] turns turns' (Hc & _ & q & _ & Hi) _ IH];
    intro w0; [reflexivity|].
  cbn [fst snd] in Hc, Hi. subst c' i'.
  cbn [main_loop]. unfold bind.
  replace (main_turn display c (with_quantity i q) w0)
    with (main_turn display c i w0) by reflexivity.
  destruct (main_turn display c i w0) as [[] w1].
  destruct (Ascii.eqb c "3"); [reflexivity | apply IH].
Qed.

(** A property of the first premium that one drift keeps is kept by the
    loop of [main], and the first contract stays first. *)
Lemma main_loop_head (P : double -> Prop) (display : ptr) :
  (forall p x, (0 <= x)%Z -> P p -> P (dmul p (factor x))) ->
  forall (turns : list (Turn double)) (w : World double)
         (o : Option double) (rest : list (Option double)),
    rand_ok w ->
    options (chain w) = o :: rest ->
    P (premium o) ->
    exists p rest',
      options (chain (snd (main_loop display turns w))) =
        setPremium o p :: rest' /\
      P p.
Proof.
  intros Hstep turns.
  induction turns as [|[c i] turns IH]; intros w o rest Hok Hw HP;
    cbn [main_loop].
  - unfold bind, ret. rewrite show_menu_run. cbn [snd chain].
    exists (premium o), rest. split; [|exact HP].
    rewrite Hw. destruct o; reflexivity.
  - unfold bind. rewrite main_turn_run, show_menu_run. cbv zeta. cbn [snd].
    destruct (Ascii.eqb c "3") eqn:H3.
    + apply Ascii.eqb_eq in H3. subst c. unfold ret.
      cbn [Ascii.eqb Bool.eqb andb snd chain].
      exists (premium o), rest. split; [|exact HP].
      rewrite Hw. destruct o; reflexivity.
    + destruct (Ascii.eqb c "1") eqn:H1; [|destruct (Ascii.eqb c "2") eqn:H2].
      * rewrite update_run, updateOptionPrices_run.
        cbv zeta. cbn [snd chain options observers trace rand_seq rand_calls].
        rewrite Hw. cbn [drifted].
        match goal with |- context [main_loop display turns ?x] =>
          destruct (IH x (setPremium o (dmul (premium o)
                                          (factor (rand_seq w (rand_calls w)))))
                      (drifted (rand_seq w) (S (rand_calls w)) rest))
            as (p & rest' & Hopt & Hp)
        end.
        -- exact Hok.
        -- reflexivity.
        -- cbn [premium setPremium]. apply Hstep; [apply Hok | exact HP].
        -- exists p, rest'. split; [exact Hopt | exact Hp].
      * rewrite execute_run. cbn [snd].
        destruct (createOption _ _ _ _) as [o1|];
          match goal with |- context [main_loop display turns ?x] =>
            destruct (IH x o (match x with mkWorld c _ _ _ => tl (options c) end))
              as (p & rest' & Hopt & Hp)
          end;
          try exact Hok; try exact HP;
          try (cbn [chain options tl]; rewrite Hw; reflexivity);
          exists p, rest'; (split; [exact Hopt | exact Hp]).
      * match goal with |- context [main_loop display turns ?x] =>
          destruct (IH x o rest) as (p & rest' & Hopt & Hp)
        end;
          try exact Hok; try exact HP; try exact Hw.
        exists p, rest'. split; [exact Hopt | exact Hp].
Qed.

(** *** A simulator without a display *)

(** As long as no observer is registered [updateMarket] rewrites the
    premiums and writes nothing. *)
Theorem updateMarket_silent (w : World double) :
  observers (chain w) = [] ->
  trace (exec updateMarket w) = trace w /\
  options (chain (exec updateMarket w)) =
    drifted (rand_seq w) (rand_calls w) (options (chain w)) /\
  rand_calls (exec updateMarket w) =
    (rand_calls w + List.length (options (chain w)))%nat.
Proof.
  intro Hobs. unfold updateMarket. rewrite updateOptionPrices_run.
  cbv zeta. cbn [trace chain options rand_calls]. rewrite Hobs.
  cbn [flat_map]. rewrite app_nil_r. auto.
Qed.

End Session.

(** ** Premiums and payoffs in binary64 *)

Section Binary64More.

Local Open Scope Z_scope.

(** *** Multiplying by 1.0 *)

Lemma unit_product (s : bool) (m : positive) (e : Z) :
  bounded prec emax m e = true ->
  binary_round_aux prec emax s (Zpos (m * 2 ^ 52)) (e + -52) loc_Exact =
  S754_finite s m e.
Proof.
  intro Hb.
  destruct (bounded_canonical m e Hb) as ([_ Hemax] & Hm & _ & Hcan).
  pose proof (digits2_bounds m) as [Dlo Dhi].
  set (d := Zpos (digits2_pos m)) in *.
  assert (0 < d) by (unfold d; lia).
  assert (Zpos (digits2_pos (m * 2 ^ 52)) = d + 52) as HD.
  { apply digits2_unique. rewrite Pos2Z.inj_mul.
    change (Zpos (2 ^ 52)) with (2 ^ 52).
    replace (d + 52 - 1) with (d - 1 + 52) by lia.
    rewrite !Z.pow_add_r by lia. nia. }
  assert (fexp prec emax (Zpos (digits2_pos (m * 2 ^ 52)) + (e + -52)) = e)
    as Hc.
  { rewrite HD. replace (d + 52 + (e + -52)) with (d + e) by lia. exact Hcan. }
  destruct (round_closed s (m * 2 ^ 52) (e + -52) e (eq_sym Hc) ltac:(lia))
    as [-> _].
  replace (e - (e + -52)) with 52 by lia.
  assert (rne (Zpos (m * 2 ^ 52)) 52 = Zpos m) as ->.
  { unfold rne, loc_of_rem. rewrite Pos2Z.inj_mul.
    change (Zpos (2 ^ 52)) with (2 ^ 52).
    rewrite Z.mod_mul, Z.div_mul by lia. reflexivity. }
  unfold finish.
  destruct (Z.eqb_spec (Zpos m) (2 ^ 53)) as [Heq|_]; [lia|].
  destruct (Z.leb_spec e 971) as [_|Hgt]; [reflexivity | lia].
Qed.

(** [p * 1.0] is [p], bit for bit, for every double. *)
Lemma mul_one_binary64 (p : float) : PrimFloat.mul p 1 = p.
Proof.
  apply Prim2SF_inj. rewrite FloatAxioms.mul_spec.
  change (Prim2SF 1) with (S754_finite false (2 ^ 52)%positive (-52)).
  pose proof (Prim2SF_valid p) as Hv.
  destruct (Prim2SF p) as [s|s| |s m e]; cbn [SF64mul SFmul];
    rewrite ?xorb_false_r; try reflexivity.
  apply unit_product. exact Hv.
Qed.

(** *** The fixed points of a drift *)

(** One drift leaves a zero, an infinity and a NaN as they are. *)
Lemma drift_fixed (p : float) (x : Z) :
  0 <= x ->
  (PrimFloat.eqb p 0 = true \/ PrimFloat.is_finite p = false) ->
  dmul p (factor x) = p.
Proof.
  intros Hx Hp.
  destruct (factor_above_half x Hx) as (mf & ef & Hf & _).
  change (@dmul float binary64_ops) with PrimFloat.mul.
  apply Prim2SF_inj. rewrite FloatAxioms.mul_spec, Hf.
  unfold PrimFloat.is_finite, PrimFloat.is_nan, PrimFloat.is_infinity in Hp.
  rewrite !FloatAxioms.eqb_spec, FloatAxioms.abs_spec in Hp.
  change (Prim2SF 0) with (S754_zero false) in Hp.
  change (Prim2SF infinity) with (S754_infinity false) in Hp.
  destruct (Prim2SF p) as [s|s| |s m e]; cbn [SF64mul SFmul];
    rewrite ?xorb_false_r; try reflexivity.
  exfalso. destruct Hp as [Hp|Hp].
  - destruct s; discriminate Hp.
  - unfold SFeqb in Hp. cbn [SFabs SFcompare] in Hp.
    rewrite Z.compare_refl, Pos.compare_cont_refl in Hp.
    destruct s; discriminate Hp.
Qed.

Local Open Scope string_scope.
Local Open Scope list_scope.

(** When [rand() % 10] is 5 the factor is [1.0 + 0 / 100.0 = 1.0] and the
    contract keeps its type, strike and expiry and, when its premium is not
    a NaN, the very same premium: the same sign, exponent and mantissa, for
    a zero, a subnormal and an infinity too.  A premium that is a NaN is
    still a NaN. *)
Theorem updateOptionPrices_unchanged (w : World float) (i : nat)
  (o : Option float) :
  nth_error (options (chain w)) i = Some o ->
  Z.rem (rand_seq w (rand_calls w + i)%nat) 10 = 5 ->
  exists o',
    nth_error (options (chain (exec updateOptionPrices w))) i = Some o' /\
    o' = setPremium o (premium o') /\
    (PrimFloat.is_nan (premium o) = false ->
     Prim2SF (premium o') = Prim2SF (premium o) /\ o' = o) /\
    (PrimFloat.is_nan (premium o) = true ->
     PrimFloat.is_nan (premium o') = true).
Proof.
  intros Hi H5. rewrite (drift_nth w i o Hi).
  eexists. split; [reflexivity|]. split; [reflexivity|].
  cbn [premium setPremium]. unfold factor. rewrite H5.
  change (dadd (of_int 1) (ddiv (of_int (5 - 5)) (of_int 100))) with 1%float.
  change (@dmul float binary64_ops) with PrimFloat.mul.
  rewrite mul_one_binary64.
  split; [intros _; split; [reflexivity | destruct o; reflexivity]|].
  intro H. exact H.
Qed.

(** Drift never changes the sign of a premium: after any number of calls
    of [updateOptionPrices] a positive premium is still above zero (it
    never underflows to zero), a negative one still below zero, and a
    premium that is zero, infinite or a NaN is still the same double. *)
Theorem premium_sign_kept (n : nat) (w : World float) (i : nat)
  (o : Option float) :
  rand_ok w ->
  nth_error (options (chain w)) i = Some o ->
  exists o',
    nth_error (options (chain (updates n w))) i = Some o' /\
    (PrimFloat.ltb 0 (premium o) = true ->
     PrimFloat.ltb 0 (premium o') = true) /\
    (PrimFloat.ltb (premium o) 0 = true ->
     PrimFloat.ltb (premium o') 0 = true) /\
    (PrimFloat.eqb (premium o) 0 = true \/
     PrimFloat.is_finite (premium o) = false ->
     premium o' = premium o).
Proof.
  intros Hok Hi.
  destruct (premium_invariant (fun _ => True) (fun _ _ _ _ => I)
              n w i o Hok Hi I) as (o' & Hi' & _).
  exists o'. split; [exact Hi'|].
  split; [|split].
  - intro Hpos.
    destruct (premium_invariant
                (fun p => PrimFloat.ltb 0 p = true)
                (fun p x Hx => proj1 (drift_sign p x Hx))
                n w i o Hok Hi Hpos) as (o1 & Hi1 & H1).
    rewrite Hi' in Hi1. injection Hi1 as <-. exact H1.
  - intro Hneg.
    destruct (premium_invariant
                (fun p => PrimFloat.ltb p 0 = true)
                (fun p x Hx => proj2 (drift_sign p x Hx))
                n w i o Hok Hi Hneg) as (o1 & Hi1 & H1).
    rewrite Hi' in Hi1. injection Hi1 as <-. exact H1.
  - intro Hfix.
    destruct (premium_invariant
                (fun p => p = premium o)
                (fun p x Hx (Hp : p = premium o) =>
                   eq_trans (f_equal (fun q => dmul q (factor x)) Hp)
                     (drift_fixed (premium o) x Hx Hfix))
                n w i o Hok Hi eq_refl) as (o1 & Hi1 & H1).
    rewrite Hi' in Hi1. injection Hi1 as <-. exact H1.
Qed.

(** A larger draw never gives a smaller premium: of two calls of
    [updateOptionPrices] on the same contract, the one whose draw has the
    larger remainder modulo 10 leaves a premium that is not smaller, when
    the premium is not below zero, and not larger, when it is not above
    zero. *)
Theorem drift_monotone (w1 w2 : World float) (i : nat) (o : Option float) :
  rand_ok w1 -> rand_ok w2 ->
  nth_error (options (chain w1)) i = Some o ->
  nth_error (options (chain w2)) i = Some o ->
  Z.rem (rand_seq w1 (rand_calls w1 + i)%nat) 10 <=
  Z.rem (rand_seq w2 (rand_calls w2 + i)%nat) 10 ->
  exists o1 o2,
    nth_error (options (chain (exec updateOptionPrices w1))) i = Some o1 /\
    nth_error (options (chain (exec updateOptionPrices w2))) i = Some o2 /\
    (PrimFloat.leb 0 (premium o) = true ->
     PrimFloat.leb (premium o1) (premium o2) = true) /\
    (PrimFloat.leb (premium o) 0 = true ->
     PrimFloat.leb (premium o2) (premium o1) = true).
Proof.
  intros Hok1 Hok2 Hi1 Hi2 Hle.
  rewrite (drift_nth w1 i o Hi1), (drift_nth w2 i o Hi2).
  eexists. eexists. split; [reflexivity|]. split; [reflexivity|].
  cbn [premium setPremium].
  apply drift_order; [apply Hok1 | apply Hok2 | exact Hle].
Qed.

(** The statements below compare doubles and integers. *)
Local Open Scope Z_scope.

(** *** The sign of a difference *)

(** Rounding a positive integer at an exponent of the format gives a number
    that is not zero, with the sign asked for. *)
Lemma round_positive (s : bool) (N : positive) (E : Z) :
  -1074 <= E ->
  (exists m' e',
     binary_round_aux prec emax s (Zpos N) E loc_Exact = S754_finite s m' e') \/
  binary_round_aux prec emax s (Zpos N) E loc_Exact = S754_infinity s.
Proof.
  intro HE.
  set (c := fexp prec emax (Zpos (digits2_pos N) + E)).
  destruct (Z_lt_le_dec 0 (c - E)) as [Hsh|Hsh].
  - destruct (round_closed s N E c eq_refl Hsh) as [-> [_ Hhi]].
    assert (1 <= rne (Zpos N) (c - E)) as Hone.
    { pose proof (rne_range (Zpos N) (c - E)) as [Hq _].
      pose proof (digits2_bounds N) as [Dlo _].
      set (D := Zpos (digits2_pos N)) in *.
      assert (c = Z.max (D + E - 53) (-1074)) as Hc by reflexivity.
      assert (c - E = D - 53) as HshD by lia.
      assert (0 < 2 ^ (c - E)) by (apply Z.pow_pos_nonneg; lia).
      assert (2 ^ (c - E) <= 2 ^ (D - 1)) by (apply Z.pow_le_mono_r; lia).
      assert (1 <= Zpos N / 2 ^ (c - E))
        by (apply Z.div_le_lower_bound; lia).
      lia. }
    unfold finish.
    destruct (rne (Zpos N) (c - E)) as [|p|p]; [lia| |lia].
    destruct (Zpos p =? 2 ^ 53).
    + destruct (c + 1 <=? 971); [left; eauto | right; reflexivity].
    + destruct (c <=? 971); [left; eauto | right; reflexivity].
  - unfold binary_round_aux, shr_fexp, shr. cbn [Zdigits2]. fold c.
    assert (forall mrs e,
              match c - E with
              | Zpos p => (iter_pos shr_1 p mrs, e + (c - E))
              | _ => (mrs, e)
              end = (mrs, e)) as Hnone
      by (intros; destruct (c - E); [reflexivity | lia | reflexivity]).
    rewrite Hnone. cbn [shr_record_of_loc shr_m loc_of_shr_record
                        round_nearest_even Zdigits2].
    fold c. rewrite Hnone. cbn [shr_m shr_record_of_loc].
    destruct (E <=? emax - prec); [left; eauto | right; reflexivity].
Qed.

Lemma binary_round_signed (s : bool) (N : positive) (E : Z) :
  -1074 <= E ->
  (exists m' e', binary_round prec emax s N E = S754_finite s m' e') \/
  binary_round prec emax s N E = S754_infinity s.
Proof.
  intro HE. unfold binary_round, shl_align.
  pose proof (fexp_ge_emin (Zpos (digits2_pos N) + E)) as Hmin.
  destruct (fexp prec emax (Zpos (digits2_pos N) + E) - E) eqn:Hd;
    apply round_positive; lia.
Qed.

(** A sum or difference of two doubles is above zero exactly when the
    integer it rounds is. *)
Lemma normalize_positive (z E : Z) :
  -1074 <= E ->
  SFltb (S754_zero false) (binary_normalize prec emax z E false) = (0 <? z).
Proof.
  intro HE. unfold binary_normalize. destruct z as [|p|p].
  - reflexivity.
  - destruct (binary_round_signed false p E HE) as [(m' & e' & ->)| ->];
      reflexivity.
  - destruct (binary_round_signed true p E HE) as [(m' & e' & ->)| ->];
      reflexivity.
Qed.

Lemma iter_xO (m d : positive) :
  Zpos (Pos.iter xO m d) = Zpos m * 2 ^ Zpos d.
Proof.
  induction d as [|d IH] using Pos.peano_ind.
  - cbn [Pos.iter]. lia.
  - rewrite Pos.iter_succ, Pos2Z.inj_xO, IH, Pos2Z.inj_succ.
    rewrite Z.pow_succ_r by lia. lia.
Qed.

(** Aligning a mantissa to a lower exponent. *)
Lemma shl_align_value (m : positive) (e e' : Z) :
  e' <= e -> Zpos (fst (shl_align m e e')) = Zpos m * 2 ^ (e - e').
Proof.
  intro Hle. unfold shl_align.
  destruct (e' - e) as [|d|d] eqn:Hd; cbn [fst].
  - replace (e - e') with 0 by lia. lia.
  - lia.
  - rewrite iter_xO. f_equal. f_equal. lia.
Qed.

(** Two finite doubles compare as their mantissas aligned to the lower
    exponent do. *)
Lemma SFcompare_aligned (sx sy : bool) (mx my : positive) (ex ey : Z) :
  bounded prec emax mx ex = true ->
  bounded prec emax my ey = true ->
  let ez := Z.min ex ey in
  SFcompare (S754_finite sx mx ex) (S754_finite sy my ey) =
  Some (cond_Zopp sx (Zpos (fst (shl_align mx ex ez))) ?=
        cond_Zopp sy (Zpos (fst (shl_align my ey ez)))).
Proof.
  intros Hx Hy ez.
  destruct (bounded_canonical mx ex Hx) as ([Hxmin _] & Hxhi & Hxlo & _).
  destruct (bounded_canonical my ey Hy) as ([Hymin _] & Hyhi & Hylo & _).
  rewrite !shl_align_value by (unfold ez; lia).
  assert (forall a b : positive,
            Pos.compare_cont Eq a b = (Zpos a ?= Zpos b)) as Hcmp
    by reflexivity.
  cbn [SFcompare]. f_equal.
  destruct (Z.compare_spec ex ey) as [Heq|Hlt|Hgt].
  - subst ey. unfold ez. rewrite Z.min_id, Z.sub_diag, !Z.mul_1_r.
    rewrite Hcmp.
    destruct sx, sy; cbn [cond_Zopp]; try reflexivity.
  - unfold ez. rewrite Z.min_l, Z.sub_diag, Z.mul_1_r by lia.
    assert (2 ^ 1 <= 2 ^ (ey - ex)) by (apply Z.pow_le_mono_r; lia).
    specialize (Hylo ltac:(lia)).
    assert (Zpos mx < Zpos my * 2 ^ (ey - ex))
      by (change (2 ^ 53) with (2 ^ 52 * 2 ^ 1) in Hxhi; nia).
    destruct sx, sy; cbn [cond_Zopp]; symmetry;
      [apply Z.compare_gt_iff | apply Z.compare_lt_iff
      | apply Z.compare_gt_iff | apply Z.compare_lt_iff]; lia.
  - unfold ez. rewrite Z.min_r, Z.sub_diag, Z.mul_1_r by lia.
    assert (2 ^ 1 <= 2 ^ (ex - ey)) by (apply Z.pow_le_mono_r; lia).
    specialize (Hxlo ltac:(lia)).
    assert (Zpos my < Zpos mx * 2 ^ (ex - ey))
      by (change (2 ^ 53) with (2 ^ 52 * 2 ^ 1) in Hyhi; nia).
    destruct sx, sy; cbn [cond_Zopp]; symmetry;
      [apply Z.compare_lt_iff | apply Z.compare_lt_iff
      | apply Z.compare_gt_iff | apply Z.compare_gt_iff]; lia.
Qed.

(** [0 < a - b] holds exactly when [b < a], for all doubles: a difference
    never rounds to zero or changes sign, and it is a NaN only when a
    comparison of [a] and [b] fails too or both are the same infinity. *)
Lemma sub_positive (a b : float) :
  PrimFloat.ltb 0 (PrimFloat.sub a b) = PrimFloat.ltb b a.
Proof.
  rewrite !FloatAxioms.ltb_spec, FloatAxioms.sub_spec.
  change (Prim2SF 0) with (S754_zero false).
  pose proof (Prim2SF_valid a) as Va. pose proof (Prim2SF_valid b) as Vb.
  destruct (Prim2SF a) as [sa|sa| |sa ma ea], (Prim2SF b) as [sb|sb| |sb mb eb];
    try (destruct sa; reflexivity); try (destruct sb; reflexivity);
    try (destruct sa, sb; reflexivity); try reflexivity.
  cbn [valid_binary] in Va, Vb.
  cbn [SF64sub SFsub].
  destruct (bounded_canonical ma ea Va) as ([Hamin _] & _).
  destruct (bounded_canonical mb eb Vb) as ([Hbmin _] & _).
  rewrite normalize_positive by lia.
  unfold SFltb. rewrite (SFcompare_aligned sb sa mb ma eb ea Vb Va).
  cbv zeta. rewrite (Z.min_comm eb ea).
  set (za := cond_Zopp sa _). set (zb := cond_Zopp sb _).
  destruct (Z.compare_spec zb za) as [H|H|H];
    destruct (Z.ltb_spec 0 (za - zb)); try reflexivity; lia.
Qed.

(** In double arithmetic a call pays [(M - K) - P] when [K < M] and
    [0.0 - P] otherwise, and a put pays [(K - M) - P] when [M < K] and
    [0.0 - P] otherwise, for all doubles: the test [std::max] makes on the
    rounded difference agrees with the comparison of the two prices. *)
Theorem calculatePayoff_moneyness (K P M : float) (E : string) :
  calculatePayoff (CallOption K P E) M =
    (if PrimFloat.ltb K M then dsub (dsub M K) P else dsub (of_int 0) P) /\
  calculatePayoff (PutOption K P E) M =
    (if PrimFloat.ltb M K then dsub (dsub K M) P else dsub (of_int 0) P).
Proof.
  unfold calculatePayoff, std_max. cbn [kind CallOption PutOption strikePrice premium].
  change (@dlt float binary64_ops) with PrimFloat.ltb.
  change (@dsub float binary64_ops) with PrimFloat.sub.
  change (@of_int float binary64_ops 0) with 0%float.
  rewrite !sub_positive.
  split; [destruct (PrimFloat.ltb K M) | destruct (PrimFloat.ltb M K)];
    reflexivity.
Qed.

Lemma is_nan_binary64 (x : float) :
  PrimFloat.is_nan x = true -> Prim2SF x = S754_nan.
Proof.
  unfold PrimFloat.is_nan. rewrite FloatAxioms.eqb_spec. unfold SFeqb.
  intro H. destruct (Prim2SF x) as [s|s| |s m e] eqn:Hx; [| | reflexivity |];
    rewrite SFcompare_refl in H by discriminate; discriminate H.
Qed.

(** A strike or a market price that is a NaN is not reported: the option
    counts as out of the money and the payoff is [0.0 - P], for a call and
    for a put. *)
Theorem calculatePayoff_nan_price (o : Option float) (M : float) :
  PrimFloat.is_nan M = true \/ PrimFloat.is_nan (strikePrice o) = true ->
  calculatePayoff o M = dsub (of_int 0) (premium o).
Proof.
  intro Hnan.
  assert (PrimFloat.ltb (strikePrice o) M = false /\
          PrimFloat.ltb M (strikePrice o) = false) as [H1 H2].
  { rewrite !FloatAxioms.ltb_spec. unfold SFltb.
    destruct Hnan as [H|H]; apply is_nan_binary64 in H;
      destruct (Prim2SF M) as [s|s| |s m e],
               (Prim2SF (strikePrice o)) as [s'|s'| |s' m' e'];
      try discriminate H; split; reflexivity. }
  unfold calculatePayoff, std_max.
  change (@dlt float binary64_ops) with PrimFloat.ltb.
  change (@dsub float binary64_ops) with PrimFloat.sub.
  change (@of_int float binary64_ops 0) with 0%float.
  rewrite !sub_positive, H1, H2. destruct (kind o); reflexivity.
Qed.

(** Whatever is typed and whatever [rand()] returns, the contract [main]
    shows in the quote is the call with strike 100 and expiry 2024-12-31,
    and its premium is above zero. *)
Theorem main_quote_positive (display : ptr) (turns : list (Turn float))
  (seq : nat -> Z) :
  (forall n, (0 <= seq n)%Z) ->
  exists p rest,
    options (chain (snd (main display turns (start seq)))) =
      CallOption (of_int 100) p "2024-12-31" :: rest /\
    PrimFloat.ltb 0 p = true.
Proof.
  intro Hseq. unfold main, bind.
  change (main_init display (start seq)) with
    (tt, mkWorld (mkChain [CallOption (of_int 100) (of_int 5) "2024-12-31";
                           PutOption (of_int 100) (of_int 4) "2024-12-31"]
                    [display]) [] seq 0).
  cbv beta iota.
  match goal with |- context [main_loop display turns ?w0] =>
    destruct (main_loop_head (fun p => PrimFloat.ltb 0 p = true) display
                (fun p r Hr => proj1 (drift_sign p r Hr))
                turns w0 (CallOption (of_int 100) (of_int 5) "2024-12-31")
                [PutOption (of_int 100) (of_int 4) "2024-12-31"]
                Hseq eq_refl eq_refl) as (p & rest & Hopt & Hp)
  end.
  exists p, rest. split; [exact Hopt | exact Hp].
Qed.

(** *** The order of the products of two premiums by one factor *)

Lemma iter_xO_digits (N : positive) (k : nat) :
  Zpos (digits2_pos (Nat.iter k xO N)) = Zpos (digits2_pos N) + Z.of_nat k.
Proof.
  induction k as [|k IH]; [cbn; lia|].
  change (Nat.iter (S k) xO N) with (xO (Nat.iter k xO N)).
  cbn [digits2_pos]. rewrite Pos2Z.inj_succ, IH. lia.
Qed.

Lemma iter_xO_value (N : positive) (k : nat) :
  Zpos (Nat.iter k xO N) = Zpos N * 2 ^ Z.of_nat k.
Proof.
  induction k as [|k IH]; [cbn; lia|].
  change (Nat.iter (S k) xO N) with (xO (Nat.iter k xO N)).
  rewrite Pos2Z.inj_xO, IH, Nat2Z.inj_succ, Z.pow_succ_r by lia.
  lia.
Qed.

(** Doubling the integer [k] times and lowering the exponent by [k] rounds
    to the same. *)
Lemma round_scale_iter (s : bool) (N : positive) (E : Z) (k : nat) :
  0 < fexp prec emax (Zpos (digits2_pos N) + E) - E ->
  binary_round_aux prec emax s (Zpos (Nat.iter k xO N)) (E - Z.of_nat k)
    loc_Exact =
  binary_round_aux prec emax s (Zpos N) E loc_Exact.
Proof.
  intro Hsh. induction k as [|k IH].
  - cbn [Nat.iter Z.of_nat]. rewrite Z.sub_0_r. reflexivity.
  - change (Nat.iter (S k) xO N) with (xO (Nat.iter k xO N)). rewrite <- IH.
    replace (E - Z.of_nat (S k)) with (E - Z.of_nat k - 1) by lia.
    apply round_scale. rewrite iter_xO_digits.
    replace (Zpos (digits2_pos N) + Z.of_nat k + (E - Z.of_nat k))
      with (Zpos (digits2_pos N) + E) by lia.
    lia.
Qed.

Lemma product_order_left (m1 m2 mf : positive) (e1 e2 ef : Z) :
  bounded prec emax m1 e1 = true ->
  bounded prec emax m2 e2 = true ->
  2 ^ 52 <= Zpos mf -> ef <= -52 ->
  e1 < e2 \/ (e1 = e2 /\ Zpos m1 <= Zpos m2) ->
  SFleb (binary_round_aux prec emax false (Zpos (m1 * mf)) (e1 + ef) loc_Exact)
        (binary_round_aux prec emax false (Zpos (m2 * mf)) (e2 + ef) loc_Exact)
    = true.
Proof.
  intros H1 H2 Hmf Hef Hle.
  pose proof (product_shifted m1 mf e1 ef H1 Hmf Hef) as S1.
  pose proof (product_shifted m2 mf e2 ef H2 Hmf Hef) as S2.
  destruct Hle as [Hlt|[-> Hm]].
  - destruct (bounded_canonical m1 e1 H1) as ([Hmin _] & Hhi & _ & _).
    destruct (bounded_canonical m2 e2 H2) as (_ & _ & Hlo & _).
    specialize (Hlo ltac:(lia)).
    rewrite <- (round_scale_iter false (m2 * mf) (e2 + ef)
                  (Z.to_nat (e2 - e1)) S2).
    replace (e2 + ef - Z.of_nat (Z.to_nat (e2 - e1))) with (e1 + ef) by lia.
    apply round_mono; [|exact S1].
    rewrite iter_xO_value, !Pos2Z.inj_mul, Z2Nat.id by lia.
    assert (2 ^ 1 <= 2 ^ (e2 - e1)) by (apply Z.pow_le_mono_r; lia).
    change (2 ^ 53) with (2 ^ 52 * 2 ^ 1) in Hhi.
    assert (Zpos m1 <= Zpos m2 * 2 ^ (e2 - e1)) by nia.
    nia.
  - apply round_mono; [|exact S1]. rewrite !Pos2Z.inj_mul. nia.
Qed.

Lemma SFleb_finite_pos_inv m1 e1 m2 e2 :
  SFleb (S754_finite false m1 e1) (S754_finite false m2 e2) = true ->
  e1 < e2 \/ (e1 = e2 /\ Zpos m1 <= Zpos m2).
Proof.
  unfold SFleb, SFcompare.
  destruct (Z.compare_spec e1 e2) as [Heq|Hlt|Hgt]; intro H.
  - right. split; [exact Heq|]. fold (Pos.compare m1 m2) in H.
    change (Zpos m1 <= Zpos m2) with (m1 <= m2)%positive. unfold Pos.le.
    destruct (m1 ?= m2)%positive; congruence.
  - left. exact Hlt.
  - discriminate H.
Qed.

(** Of two premiums that are not below zero, the larger has the larger
    product with any factor. *)
Lemma drift_order_left (p q : float) (x : Z) :
  0 <= x ->
  PrimFloat.leb 0 p = true -> PrimFloat.leb p q = true ->
  PrimFloat.leb (dmul p (factor x)) (dmul q (factor x)) = true.
Proof.
  intros Hx.
  destruct (factor_above_half x Hx) as (mf & ef & Hf & Hmf & Hef & Hhalf).
  change (@dmul float binary64_ops) with PrimFloat.mul.
  rewrite !FloatAxioms.leb_spec, !FloatAxioms.mul_spec, Hf.
  change (Prim2SF 0) with (S754_zero false).
  pose proof (Prim2SF_valid p) as Vp. pose proof (Prim2SF_valid q) as Vq.
  destruct (Prim2SF p) as [sp|sp| |sp mp ep], (Prim2SF q) as [sq|sq| |sq mq eq];
    cbn [SF64mul SFmul]; rewrite ?xorb_false_r;
    try (destruct sp; intros H0 H1; discriminate H0);
    try (destruct sp, sq; intros H0 H1; (discriminate H0 || discriminate H1));
    try (destruct sp, sq; intros H0 H1; reflexivity);
    try (intros H0 H1; first [exact H1 | discriminate H0 | discriminate H1]).
  - (* zero, finite *)
    cbn [valid_binary] in Vq. intros _ H1.
    destruct sq; [destruct sp; discriminate H1|].
    destruct (product_nonzero false mq mf eq ef Vq Hmf Hef Hhalf)
      as [(m' & e' & ->)| ->]; destruct sp; reflexivity.
  - (* finite, infinite *)
    cbn [valid_binary] in Vp. intros H0 H1.
    destruct sp; [discriminate H0|]. destruct sq; [discriminate H1|].
    destruct (product_nonzero false mp mf ep ef Vp Hmf Hef Hhalf)
      as [(m' & e' & ->)| ->]; reflexivity.
  - (* finite, finite *)
    cbn [valid_binary] in Vp, Vq. intros H0 H1.
    destruct sp; [discriminate H0|]. destruct sq; [discriminate H1|].
    apply product_order_left; try assumption; [lia|].
    apply SFleb_finite_pos_inv, H1.
Qed.

(** [<=] is transitive on doubles that are not below zero. *)
Lemma SFleb_trans_nonneg (x y z : spec_float) :
  nonneg_sf x -> nonneg_sf y -> nonneg_sf z ->
  SFleb x y = true -> SFleb y z = true -> SFleb x z = true.
Proof.
  destruct x as [[]|[]| |[] mx ex], y as [[]|[]| |[] my ey],
           z as [[]|[]| |[] mz ez];
    cbn [nonneg_sf]; intros Hx Hy Hz Hxy Hyz;
    try contradiction; try reflexivity; try discriminate Hxy;
    try discriminate Hyz.
  apply SFleb_finite_pos_inv in Hxy. apply SFleb_finite_pos_inv in Hyz.
  apply SFleb_finite_pos. lia.
Qed.

Lemma leb_trans_positive (a b c : float) :
  PrimFloat.ltb 0 a = true -> PrimFloat.ltb 0 b = true ->
  PrimFloat.ltb 0 c = true ->
  PrimFloat.leb a b = true -> PrimFloat.leb b c = true ->
  PrimFloat.leb a c = true.
Proof.
  intros Ha Hb Hc. rewrite !FloatAxioms.leb_spec.
  apply SFleb_trans_nonneg; apply positive_nonneg; assumption.
Qed.

Lemma positive_leb (p : float) :
  PrimFloat.ltb 0 p = true -> PrimFloat.leb 0 p = true.
Proof.
  rewrite FloatAxioms.ltb_spec, FloatAxioms.leb_spec. unfold SFltb, SFleb.
  destruct (SFcompare _ _) as [[]|]; congruence.
Qed.

Lemma leb_refl_positive (p : float) :
  PrimFloat.ltb 0 p = true -> PrimFloat.leb p p = true.
Proof.
  intro H. rewrite FloatAxioms.leb_spec. unfold SFleb.
  rewrite FloatAxioms.ltb_spec in H. unfold SFltb in H.
  rewrite SFcompare_refl; [reflexivity|].
  intro Hn. rewrite Hn in H. discriminate H.
Qed.

(** *** The extreme runs *)

Lemma constant_run_positive (x : Z) (n : nat) :
  0 <= x -> PrimFloat.ltb 0 (constant_run x n) = true.
Proof.
  intro Hx. induction n as [|n IH]; [reflexivity|].
  change (constant_run x (S n)) with (dmul (constant_run x n) (factor x)).
  apply drift_sign; assumption.
Qed.

(** The premiums of the scenario, between those of the two runs that always
    draw the same. *)
Lemma single_call_between (n : nat) (w : World float) (E : string) :
  rand_ok w ->
  options (chain w) = [CallOption (of_int 100) (of_int 5) E] ->
  exists p,
    options (chain (updates n w)) = [CallOption (of_int 100) p E] /\
    PrimFloat.ltb 0 p = true /\
    PrimFloat.leb (constant_run 0 n) p = true /\
    PrimFloat.leb p (constant_run 9 n) = true.
Proof.
  intros Hok H0. induction n as [|n (p & Hopt & Hpos & Hlo & Hhi)].
  - exists (of_int 5). split; [exact H0|]. repeat split; reflexivity.
  - rewrite updates_S, updateOptionPrices_run.
    cbn [chain options]. rewrite Hopt. cbn [drifted premium CallOption].
    match goal with |- context [factor ?y] => set (x := y) end.
    assert (0 <= x)%Z as Hx by (unfold x; rewrite updates_rand_seq; apply Hok).
    exists (dmul p (factor x)). split; [reflexivity|].
    pose proof (proj1 (drift_sign p x Hx) Hpos) as Hpos'.
    split; [exact Hpos'|].
    pose proof (draw_cases x Hx) as Hc.
    pose proof (constant_run_positive 0 n (Z.le_refl 0)) as L0.
    pose proof (constant_run_positive 9 n ltac:(lia)) as L9.
    change (constant_run 0 (S n)) with (dmul (constant_run 0 n) (factor 0)).
    change (constant_run 9 (S n)) with (dmul (constant_run 9 n) (factor 9)).
    split.
    + apply (leb_trans_positive _ (dmul p (factor 0)));
        try first [ exact Hpos' | apply drift_sign; [lia | assumption] ].
      * apply drift_order_left; [lia | apply positive_leb, L0 | exact Hlo].
      * apply (proj1 (drift_order p 0 x (Z.le_refl 0) Hx
                        ltac:(change (Z.rem 0 10) with 0%Z; lia))).
        apply positive_leb, Hpos.
    + apply (leb_trans_positive _ (dmul p (factor 9)));
        try first [ exact Hpos' | apply drift_sign; [lia | assumption] ].
      * apply (proj1 (drift_order p x 9 Hx ltac:(lia)
                        ltac:(change (Z.rem 9 10) with 9%Z; lia))).
        apply positive_leb, Hpos.
      * apply drift_order_left; [lia | apply positive_leb, Hpos | exact Hhi].
Qed.

(** A run that always draws the same is a run of the program. *)
Lemma constant_run_updates (x : Z) (n : nat) :
  options (chain (updates n (call_world64 (always x)))) =
  [CallOption (of_int 100) (constant_run x n) "2024-12-31"].
Proof.
  induction n as [|n IH]; [reflexivity|].
  rewrite updates_S, updateOptionPrices_run. cbn [chain options].
  rewrite IH, updates_rand_seq. reflexivity.
Qed.

(** The run of +4% grows and the run of -5% shrinks. *)
Lemma constant_run_step (n : nat) :
  PrimFloat.leb (constant_run 9 n) (constant_run 9 (S n)) = true /\
  PrimFloat.leb (constant_run 0 (S n)) (constant_run 0 n) = true.
Proof.
  pose proof (constant_run_positive 0 n (Z.le_refl 0)) as L0.
  pose proof (constant_run_positive 9 n ltac:(lia)) as L9.
  change (constant_run 0 (S n)) with (dmul (constant_run 0 n) (factor 0)).
  change (constant_run 9 (S n)) with (dmul (constant_run 9 n) (factor 9)).
  split.
  - pose proof (proj1 (drift_order (constant_run 9 n) 5 9 ltac:(lia) ltac:(lia)
                         ltac:(vm_compute; discriminate))
                  (positive_leb _ L9)) as H.
    change (factor (double := float) 5) with 1%float in H.
    change (@dmul float binary64_ops) with PrimFloat.mul in H.
    rewrite mul_one_binary64 in H. exact H.
  - pose proof (proj1 (drift_order (constant_run 0 n) 0 5 ltac:(lia) ltac:(lia)
                         ltac:(vm_compute; discriminate))
                  (positive_leb _ L0)) as H.
    change (factor (double := float) 5) with 1%float in H.
    change (@dmul float binary64_ops) with PrimFloat.mul in H.
    rewrite mul_one_binary64 in H. exact H.
Qed.

Lemma constant_run_mono (n k : nat) :
  PrimFloat.leb (constant_run 9 n) (constant_run 9 (k + n)) = true /\
  PrimFloat.leb (constant_run 0 (k + n)) (constant_run 0 n) = true.
Proof.
  induction k as [|k [IH9 IH0]].
  - split; apply leb_refl_positive, constant_run_positive; lia.
  - destruct (constant_run_step (k + n)) as [S9 S0].
    split.
    + apply (leb_trans_positive _ (constant_run 9 (k + n)));
        try (apply constant_run_positive; lia); assumption.
    + apply (leb_trans_positive _ (constant_run 0 (k + n)));
        try (apply constant_run_positive; lia); assumption.
Qed.

(** In double arithmetic the two runs that always draw the same bound every
    run: from the single call with premium 5, after [n] calls of
    [updateOptionPrices] and for every sequence of draws, the premium lies
    between the premium of the run whose draws are all -5% and that of the
    run whose draws are all +4%, with no tolerance. *)
Theorem premium_between_extremes (n : nat) (w : World float) (E : string) :
  rand_ok w ->
  options (chain w) = [CallOption (of_int 100) (of_int 5) E] ->
  exists p lo hi,
    options (chain (updates n w)) = [CallOption (of_int 100) p E] /\
    options (chain (updates n (call_world64 (always 0)))) =
      [CallOption (of_int 100) lo "2024-12-31"] /\
    options (chain (updates n (call_world64 (always 9)))) =
      [CallOption (of_int 100) hi "2024-12-31"] /\
    PrimFloat.leb lo p = true /\ PrimFloat.leb p hi = true.
Proof.
  intros Hok H0.
  destruct (single_call_between n w E Hok H0) as (p & Hopt & _ & Hlo & Hhi).
  exists p, (constant_run 0 n), (constant_run 9 n).
  split; [exact Hopt|].
  split; [apply constant_run_updates|]. split; [apply constant_run_updates|].
  split; assumption.
Qed.

(** In double arithmetic, from the single call with premium 5, after at most
    100 calls of [updateOptionPrices] and for every sequence of draws, the
    premium lies between the doubles [0x1.e5027f386e56bp-6] and
    [0x1.f90caad790207p+7]; both are reached after 100 calls, by the run
    whose draws are all -5% and by the run whose draws are all +4%. *)
Theorem premium_bounds_100_binary64 (n : nat) (w : World float) (E : string) :
  rand_ok w ->
  options (chain w) = [CallOption (of_int 100) (of_int 5) E] ->
  (n <= 100)%nat ->
  (exists p,
     options (chain (updates n w)) = [CallOption (of_int 100) p E] /\
     PrimFloat.leb least_premium_100 p = true /\
     PrimFloat.leb p greatest_premium_100 = true) /\
  options (chain (updates 100 (call_world64 (always 0)))) =
    [CallOption (of_int 100) least_premium_100 "2024-12-31"] /\
  options (chain (updates 100 (call_world64 (always 9)))) =
    [CallOption (of_int 100) greatest_premium_100 "2024-12-31"].
Proof.
  intros Hok H0 Hn.
  assert (constant_run 0 100 = least_premium_100) as E0
    by (vm_compute; reflexivity).
  assert (constant_run 9 100 = greatest_premium_100) as E9
    by (vm_compute; reflexivity).
  split; [|rewrite <- E0, <- E9; split; apply constant_run_updates].
  destruct (single_call_between n w E Hok H0) as (p & Hopt & Hpos & Hlo & Hhi).
  exists p. split; [exact Hopt|].
  destruct (constant_run_mono n (100 - n)) as [M9 M0].
  replace (100 - n + n)%nat with 100%nat in M9, M0 by lia.
  rewrite E9 in M9. rewrite E0 in M0.
  split.
  - apply (leb_trans_positive _ (constant_run 0 n));
      try first [exact Hpos | apply constant_run_positive; lia
                | (rewrite <- E0; apply constant_run_positive; lia)];
      assumption.
  - apply (leb_trans_positive _ (constant_run 9 n));
      try first [exact Hpos | apply constant_run_positive; lia
                | (rewrite <- E9; apply constant_run_positive; lia)];
      assumption.
Qed.

(** *** Rounding an integer at an exponent, in closed form *)

Lemma round_unshifted (s : bool) (N : positive) (E : Z) :
  fexp prec emax (Zpos (digits2_pos N) + E) - E <= 0 ->
  binary_round_aux prec emax s (Zpos N) E loc_Exact =
  if E <=? 971 then S754_finite s N E else S754_infinity s.
Proof.
  intro Hsh. set (c := fexp prec emax (Zpos (digits2_pos N) + E)) in *.
  unfold binary_round_aux, shr_fexp, shr. cbn [Zdigits2]. fold c.
  assert (forall mrs e,
            match c - E with
            | Zpos p => (iter_pos shr_1 p mrs, e + (c - E))
            | _ => (mrs, e)
            end = (mrs, e)) as Hnone
    by (intros; destruct (c - E); [reflexivity | lia | reflexivity]).
  rewrite Hnone. cbn [shr_record_of_loc shr_m loc_of_shr_record
                      round_nearest_even Zdigits2].
  fold c. rewrite Hnone. cbn [shr_m shr_record_of_loc]. reflexivity.
Qed.

Lemma shift_digits (N : positive) (k : Z) :
  0 <= k ->
  exists M : positive,
    Zpos M = Zpos N * 2 ^ k /\
    Zpos (digits2_pos M) = Zpos (digits2_pos N) + k.
Proof.
  intro Hk. exists (Nat.iter (Z.to_nat k) xO N).
  rewrite iter_xO_value, iter_xO_digits, Z2Nat.id by lia. auto.
Qed.

(** [binary_round] is [finish] of [shifted]. *)
Lemma binary_round_closed (s : bool) (N : positive) (E : Z) :
  let c := fexp prec emax (Zpos (digits2_pos N) + E) in
  binary_round prec emax s N E = finish s (shifted (Zpos N) (c - E)) c /\
  0 <= shifted (Zpos N) (c - E) <= 2 ^ 53 /\
  (-1074 < c -> 2 ^ 52 <= shifted (Zpos N) (c - E)).
Proof.
  intro c. pose proof (digits2_bounds N) as [Dlo Dhi].
  set (d := Zpos (digits2_pos N)) in *.
  assert (0 < d) as Hd by (unfold d; lia).
  assert (c = Z.max (d + E - 53) (-1074)) as Hc by reflexivity.
  unfold binary_round, shl_align. fold d. fold c. unfold shifted.
  destruct (Z.leb_spec (c - E) 0) as [Hle|Hgt].
  - (* no rounding: the integer is shifted left to the exponent [c] *)
    destruct (shift_digits N (- (c - E)) ltac:(lia)) as (M & HM & HdM).
    fold d in HdM.
    assert (Zpos M < 2 ^ 53) as HM53.
    { pose proof (digits2_bounds M) as [_ Mhi].
      assert (2 ^ Zpos (digits2_pos M) <= 2 ^ 53)
        by (apply Z.pow_le_mono_r; lia).
      lia. }
    assert (binary_round_aux prec emax s (Zpos M) c loc_Exact =
            finish s (Zpos M) c) as Hr.
    { rewrite round_unshifted.
      - unfold finish. destruct (Z.eqb_spec (Zpos M) (2 ^ 53)); [lia|].
        reflexivity.
      - rewrite HdM, fexp_eq. lia. }
    rewrite <- HM. split; [|split; [lia|]].
    + destruct (c - E) as [|p|p] eqn:Hce; try lia.
      * assert (M = N) as -> by (cbn in HM; lia).
        replace E with c by lia. exact Hr.
      * assert (Pos.iter xO N p = M) as ->
          by (apply Pos2Z.inj; rewrite iter_xO, HM; reflexivity).
        exact Hr.
    + intro Hn. pose proof (digits2_bounds M) as [Mlo _].
      assert (Zpos (digits2_pos M) = 53) as H53 by lia.
      rewrite H53 in Mlo. exact Mlo.
  - destruct (round_closed s N E c eq_refl Hgt) as [Hr Hb].
    split; [|split; [exact Hb|]].
    + destruct (c - E) as [|p|p] eqn:Hce; try lia. exact Hr.
    + intro Hn. pose proof (rne_range (Zpos N) (c - E)) as [Hq _].
      assert (c - E = d - 53) as Hsh by lia.
      assert (0 < 2 ^ (c - E)) by (apply Z.pow_pos_nonneg; lia).
      assert (2 ^ 52 <= Zpos N / 2 ^ (c - E)).
      { apply Z.div_le_lower_bound; [lia|].
        rewrite Hsh, <- Z.pow_add_r by lia.
        replace (d - 53 + 52) with (d - 1) by lia. exact Dlo. }
      lia.
Qed.


Lemma shifted_mono (N1 N2 sh : Z) :
  0 <= N1 <= N2 -> shifted N1 sh <= shifted N2 sh.
Proof.
  intros [H0 H12]. unfold shifted.
  destruct (Z.leb_spec sh 0) as [Hle|Hgt].
  - assert (0 < 2 ^ (- sh)) by (apply Z.pow_pos_nonneg; lia). nia.
  - apply rne_mono; lia.
Qed.

Lemma rne_exact (M sh : Z) : 0 < sh -> rne (M * 2 ^ sh) sh = M.
Proof.
  intro Hsh. assert (0 < 2 ^ sh) by (apply Z.pow_pos_nonneg; lia).
  unfold rne, loc_of_rem. rewrite Z.mod_mul, Z.div_mul by lia. reflexivity.
Qed.

Lemma rne_scale (N sh : Z) (k : nat) :
  0 < sh -> 0 <= N -> rne (N * 2 ^ Z.of_nat k) (sh + Z.of_nat k) = rne N sh.
Proof.
  intros Hsh HN. induction k as [|k IH].
  - cbn [Z.of_nat]. rewrite Z.mul_1_r, Z.add_0_r. reflexivity.
  - rewrite Nat2Z.inj_succ, Z.pow_succ_r by lia.
    replace (N * (2 * 2 ^ Z.of_nat k)) with (2 * (N * 2 ^ Z.of_nat k)) by lia.
    replace (sh + Z.succ (Z.of_nat k)) with (sh + Z.of_nat k + 1) by lia.
    rewrite rne_double; [exact IH | lia |].
    assert (0 < 2 ^ Z.of_nat k) by (apply Z.pow_pos_nonneg; lia). nia.
Qed.

(** Multiplying the integer by [2^k] and asking for [k] more places gives
    the same. *)
Lemma shifted_scale (N sh k : Z) :
  0 <= N -> 0 <= k -> shifted (N * 2 ^ k) (sh + k) = shifted N sh.
Proof.
  intros HN Hk. unfold shifted.
  destruct (Z.leb_spec sh 0) as [Hle|Hgt];
    destruct (Z.leb_spec (sh + k) 0) as [Hle'|Hgt']; try lia.
  - rewrite <- Z.mul_assoc, <- Z.pow_add_r by lia. f_equal. f_equal. lia.
  - replace (N * 2 ^ k) with (N * 2 ^ (- sh) * 2 ^ (sh + k)).
    + apply rne_exact. exact Hgt'.
    + rewrite <- Z.mul_assoc, <- Z.pow_add_r by lia. f_equal. f_equal. lia.
  - rewrite <- (Z2Nat.id k Hk). apply rne_scale; assumption.
Qed.

Lemma binary_round_scale (s : bool) (N M : positive) (E k : Z) :
  0 <= k -> Zpos M = Zpos N * 2 ^ k ->
  binary_round prec emax s M (E - k) = binary_round prec emax s N E.
Proof.
  intros Hk HM.
  destruct (binary_round_closed s M (E - k)) as [-> _].
  destruct (binary_round_closed s N E) as [-> _].
  destruct (shift_digits N k Hk) as (M' & HM' & Hd).
  assert (M' = M) as -> by (apply Pos2Z.inj; congruence).
  rewrite Hd.
  replace (Zpos (digits2_pos N) + k + (E - k)) with (Zpos (digits2_pos N) + E)
    by lia.
  set (c := fexp prec emax (Zpos (digits2_pos N) + E)).
  rewrite HM. replace (c - (E - k)) with (c - E + k) by lia.
  rewrite shifted_scale by lia. reflexivity.
Qed.

(** Rounding keeps the order of the integers. *)
Lemma binary_round_mono (N1 N2 : positive) (E : Z) :
  Zpos N1 <= Zpos N2 ->
  SFleb (binary_round prec emax false N1 E) (binary_round prec emax false N2 E)
    = true /\
  SFleb (binary_round prec emax true N2 E) (binary_round prec emax true N1 E)
    = true.
Proof.
  intro HN. pose proof (digits2_mono N1 N2 HN) as Hd.
  destruct (binary_round_closed false N1 E) as (-> & B1 & _).
  destruct (binary_round_closed false N2 E) as (-> & B2 & L2).
  destruct (binary_round_closed true N1 E) as (-> & _ & _).
  destruct (binary_round_closed true N2 E) as (-> & _ & _).
  set (c1 := fexp prec emax (Zpos (digits2_pos N1) + E)) in *.
  set (c2 := fexp prec emax (Zpos (digits2_pos N2) + E)) in *.
  assert (c1 <= c2) as Hc by (unfold c1, c2; rewrite !fexp_eq; lia).
  assert (-1074 <= c1) as Hmin by apply fexp_ge_emin.
  apply finish_order; [exact B1 | exact B2 |].
  destruct (Z_lt_le_dec c1 c2) as [Hlt|Hge].
  - right. split; [exact Hlt | apply L2; lia].
  - left. split; [lia|]. replace c2 with c1 by lia.
    apply shifted_mono. lia.
Qed.

(** The result of [binary_round] carries the sign asked for. *)
Lemma binary_round_class (s : bool) (N : positive) (E : Z) :
  binary_round prec emax s N E = S754_zero s \/
  binary_round prec emax s N E = S754_infinity s \/
  exists m e, binary_round prec emax s N E = S754_finite s m e.
Proof.
  destruct (binary_round_closed s N E) as (-> & [B _] & _).
  unfold finish.
  destruct (shifted _ _) as [|p|p]; [auto| |lia].
  destruct (Zpos p =? 2 ^ 53);
    match goal with |- context [Z.leb ?a ?b] => destruct (Z.leb a b) end;
    eauto.
Qed.

(** *** Sums and differences *)

(** [binary_normalize] keeps the order of the integers. *)
Lemma normalize_mono (z1 z2 E : Z) :
  z1 <= z2 ->
  SFleb (binary_normalize prec emax z1 E false)
        (binary_normalize prec emax z2 E false) = true.
Proof.
  intro Hz. unfold binary_normalize.
  destruct z1 as [|p1|p1], z2 as [|p2|p2]; try lia; try reflexivity.
  - destruct (binary_round_class false p2 E) as [-> | [-> | (m & e & ->)]];
      reflexivity.
  - apply binary_round_mono. exact Hz.
  - destruct (binary_round_class true p1 E) as [-> | [-> | (m & e & ->)]];
      reflexivity.
  - destruct (binary_round_class true p1 E) as [-> | [-> | (m & e & ->)]];
      destruct (binary_round_class false p2 E) as [-> | [-> | (m' & e' & ->)]];
      reflexivity.
  - apply binary_round_mono. lia.
Qed.

Lemma normalize_scale (z E k : Z) :
  0 <= k ->
  binary_normalize prec emax (z * 2 ^ k) (E - k) false =
  binary_normalize prec emax z E false.
Proof.
  intro Hk. destruct z as [|p|p].
  - reflexivity.
  - destruct (shift_digits p k Hk) as (M & HM & _).
    rewrite <- HM. cbn [binary_normalize].
    apply binary_round_scale; assumption.
  - destruct (shift_digits p k Hk) as (M & HM & _).
    replace (Zneg p * 2 ^ k) with (Zneg M) by lia. cbn [binary_normalize].
    apply binary_round_scale; assumption.
Qed.

(** A double is what rounding its own multiple of [2^-1074] gives. *)
Lemma normalize_canonical (s : bool) (m : positive) (e : Z) :
  bounded prec emax m e = true ->
  binary_normalize prec emax (cond_Zopp s (Zpos m * 2 ^ (e + 1074))) (-1074)
    false = S754_finite s m e.
Proof.
  intro Hb.
  destruct (bounded_canonical m e Hb) as ([Hmin Hmax] & Hm & _ & Hcan).
  replace (cond_Zopp s (Zpos m * 2 ^ (e + 1074)))
    with (cond_Zopp s (Zpos m) * 2 ^ (e + 1074))
    by (destruct s; cbn [cond_Zopp]; lia).
  replace (-1074) with (e - (e + 1074)) by lia.
  rewrite normalize_scale by lia.
  assert (binary_round prec emax s m e = S754_finite s m e) as Hr.
  { destruct (binary_round_closed s m e) as [-> _].
    rewrite Hcan, Z.sub_diag. unfold shifted. cbn [Z.leb Z.compare Z.opp].
    change (2 ^ 0) with 1. rewrite Z.mul_1_r. unfold finish.
    destruct (Z.eqb_spec (Zpos m) (2 ^ 53)); [lia|].
    destruct (Z.leb_spec e 971); [reflexivity | lia]. }
  destruct s; cbn [cond_Zopp binary_normalize Z.opp]; exact Hr.
Qed.


(** *** The order of doubles as integers *)

Lemma key_finite_bound (m : positive) (e : Z) :
  bounded prec emax m e = true ->
  0 < Zpos m * 2 ^ (e + 1074) < 2 ^ 2200.
Proof.
  intro Hb. destruct (bounded_canonical m e Hb) as ([Hmin Hmax] & Hm & _).
  assert (0 < 2 ^ (e + 1074)) by (apply Z.pow_pos_nonneg; lia).
  assert (2 ^ (e + 1074) <= 2 ^ 2045) by (apply Z.pow_le_mono_r; lia).
  assert (2 ^ 53 * 2 ^ 2045 < 2 ^ 2200)
    by (rewrite <- Z.pow_add_r by lia; apply Z.pow_lt_mono_r; lia).
  split; [lia|]. nia.
Qed.

(** Doubles that are not NaN compare as their keys do. *)
Lemma key_compare (x y : spec_float) :
  valid_binary x = true -> valid_binary y = true ->
  x <> S754_nan -> y <> S754_nan ->
  SFcompare x y = Some (key x ?= key y).
Proof.
  intros Vx Vy Nx Ny.
  assert (0 < 2 ^ 2200) as Hinf by (apply Z.pow_pos_nonneg; lia).
  destruct x as [sx|sx| |sx mx ex], y as [sy|sy| |sy my ey];
    try congruence; cbn [valid_binary] in Vx, Vy;
    try pose proof (key_finite_bound mx ex Vx) as Bx;
    try pose proof (key_finite_bound my ey Vy) as By;
    cbn [key].
  - reflexivity.
  - cbn [SFcompare]. f_equal. symmetry.
    destruct sy; cbn [cond_Zopp];
      [apply Z.compare_gt_iff | apply Z.compare_lt_iff]; lia.
  - cbn [SFcompare]. f_equal. symmetry.
    destruct sy; cbn [cond_Zopp];
      [apply Z.compare_gt_iff | apply Z.compare_lt_iff]; lia.
  - cbn [SFcompare]. f_equal. symmetry.
    destruct sx; cbn [cond_Zopp];
      [apply Z.compare_lt_iff | apply Z.compare_gt_iff]; lia.
  - cbn [SFcompare]. f_equal. symmetry.
    destruct sx, sy; cbn [cond_Zopp];
      [apply Z.compare_eq_iff | apply Z.compare_lt_iff
      | apply Z.compare_gt_iff | apply Z.compare_eq_iff]; lia.
  - cbn [SFcompare]. f_equal. symmetry.
    destruct sx, sy; cbn [cond_Zopp];
      [apply Z.compare_lt_iff | apply Z.compare_lt_iff
      | apply Z.compare_gt_iff | apply Z.compare_gt_iff]; lia.
  - cbn [SFcompare]. f_equal. symmetry.
    destruct sx; cbn [cond_Zopp];
      [apply Z.compare_lt_iff | apply Z.compare_gt_iff]; lia.
  - cbn [SFcompare]. f_equal. symmetry.
    destruct sx, sy; cbn [cond_Zopp];
      [apply Z.compare_gt_iff | apply Z.compare_lt_iff
      | apply Z.compare_gt_iff | apply Z.compare_lt_iff]; lia.
  - rewrite (SFcompare_aligned sx sy mx my ex ey Vx Vy). cbv zeta. f_equal.
    destruct (bounded_canonical mx ex Vx) as ([Hxmin _] & _).
    destruct (bounded_canonical my ey Vy) as ([Hymin _] & _).
    set (ez := Z.min ex ey).
    rewrite !shl_align_value by (unfold ez; lia).
    assert (0 < 2 ^ (ez + 1074))
      by (apply Z.pow_pos_nonneg; unfold ez; lia).
    rewrite (Zmult_compare_compat_r _ _ (2 ^ (ez + 1074))) by lia.
    f_equal.
    + replace (ex + 1074) with (ex - ez + (ez + 1074)) by lia.
      rewrite (Z.pow_add_r 2 (ex - ez) (ez + 1074)) by (unfold ez; lia).
      destruct sx; cbn [cond_Zopp]; ring.
    + replace (ey + 1074) with (ey - ez + (ez + 1074)) by lia.
      rewrite (Z.pow_add_r 2 (ey - ez) (ez + 1074)) by (unfold ez; lia).
      destruct sy; cbn [cond_Zopp]; ring.
Qed.

Lemma key_leb (x y : spec_float) :
  valid_binary x = true -> valid_binary y = true ->
  SFleb x y = true -> x <> S754_nan /\ y <> S754_nan /\ key x <= key y.
Proof.
  intros Vx Vy H.
  assert (x <> S754_nan /\ y <> S754_nan) as [Nx Ny].
  { split; intro Hn; subst; [|destruct x]; discriminate H. }
  split; [exact Nx|]. split; [exact Ny|].
  unfold SFleb in H. rewrite (key_compare x y Vx Vy Nx Ny) in H.
  destruct (Z.compare_spec (key x) (key y)); [lia | lia | discriminate H].
Qed.

Lemma leb_key (x y : spec_float) :
  valid_binary x = true -> valid_binary y = true ->
  x <> S754_nan -> y <> S754_nan -> key x <= key y -> SFleb x y = true.
Proof.
  intros Vx Vy Nx Ny H. unfold SFleb. rewrite (key_compare x y Vx Vy Nx Ny).
  destruct (Z.compare_spec (key x) (key y)); [reflexivity | reflexivity | lia].
Qed.

(** *** A difference, as the rounding of a difference of integers *)

Lemma normalize_class (z E : Z) :
  binary_normalize prec emax z E false <> S754_nan.
Proof.
  destruct z as [|p|p]; cbn [binary_normalize]; [discriminate| |].
  - destruct (binary_round_class false p E) as [-> | [-> | (m & e & ->)]];
      discriminate.
  - destruct (binary_round_class true p E) as [-> | [-> | (m & e & ->)]];
      discriminate.
Qed.

(** The difference of two finite doubles is the rounding of the difference
    of their keys, up to the sign of a zero. *)
Lemma SFsub_key (x y : spec_float) :
  valid_binary x = true -> valid_binary y = true ->
  (exists s, x = S754_zero s) \/ (exists s m e, x = S754_finite s m e) ->
  (exists s, y = S754_zero s) \/ (exists s m e, y = S754_finite s m e) ->
  SFsub prec emax x y =
    binary_normalize prec emax (key x - key y) (-1074) false \/
  (exists s, SFsub prec emax x y = S754_zero s) /\
  binary_normalize prec emax (key x - key y) (-1074) false = S754_zero false.
Proof.
  intros Vx Vy [(sx & ->)|(sx & mx & ex & ->)] [(sy & ->)|(sy & my & ey & ->)];
    cbn [valid_binary] in Vx, Vy; cbn [key SFsub].
  - right. split; [destruct sx, sy; eauto | reflexivity].
  - left. rewrite Z.sub_0_l.
    replace (- cond_Zopp sy (Zpos my * 2 ^ (ey + 1074)))
      with (cond_Zopp (negb sy) (Zpos my * 2 ^ (ey + 1074)))
      by (destruct sy; cbn [cond_Zopp negb]; lia).
    symmetry. apply normalize_canonical. exact Vy.
  - left. rewrite Z.sub_0_r. symmetry. apply normalize_canonical. exact Vx.
  - left.
    destruct (bounded_canonical mx ex Vx) as ([Hxmin _] & _).
    destruct (bounded_canonical my ey Vy) as ([Hymin _] & _).
    set (ez := Z.min ex ey).
    rewrite !shl_align_value by (unfold ez; lia).
    rewrite <- (normalize_scale _ ez (ez + 1074)) by (unfold ez; lia).
    replace (ez - (ez + 1074)) with (-1074) by lia.
    f_equal.
    assert (0 < 2 ^ (ez + 1074)) by (apply Z.pow_pos_nonneg; unfold ez; lia).
    replace (ex + 1074) with (ex - ez + (ez + 1074)) by lia.
    replace (ey + 1074) with (ey - ez + (ez + 1074)) by lia.
    rewrite (Z.pow_add_r 2 (ex - ez) (ez + 1074)) by (unfold ez; lia).
    rewrite (Z.pow_add_r 2 (ey - ez) (ez + 1074)) by (unfold ez; lia).
    destruct sx, sy; cbn [cond_Zopp]; ring.
Qed.

Lemma SFleb_transfer (a b n1 n2 : spec_float) :
  a = n1 \/ (exists s, a = S754_zero s) /\ n1 = S754_zero false ->
  b = n2 \/ (exists s, b = S754_zero s) /\ n2 = S754_zero false ->
  SFleb n1 n2 = true -> SFleb a b = true.
Proof.
  intros [->|[(s & ->) ->]] [->|[(s' & ->) ->]] H; exact H.
Qed.

Lemma SFsub_not_nan (x y : spec_float) :
  valid_binary x = true -> valid_binary y = true ->
  (exists s, x = S754_zero s) \/ (exists s m e, x = S754_finite s m e) ->
  (exists s, y = S754_zero s) \/ (exists s m e, y = S754_finite s m e) ->
  SFsub prec emax x y <> S754_nan.
Proof.
  intros Vx Vy Fx Fy.
  destruct (SFsub_key x y Vx Vy Fx Fy) as [-> | [(s & ->) _]];
    [apply normalize_class | discriminate].
Qed.


(** A double that is neither infinite nor a NaN. *)
Lemma is_finite_binary64 (x : float) :
  PrimFloat.is_finite x = true ->
  (exists s, Prim2SF x = S754_zero s) \/
  (exists s m e, Prim2SF x = S754_finite s m e).
Proof.
  unfold PrimFloat.is_finite, PrimFloat.is_nan, PrimFloat.is_infinity.
  rewrite !FloatAxioms.eqb_spec, FloatAxioms.abs_spec.
  change (Prim2SF infinity) with (S754_infinity false).
  destruct (Prim2SF x) as [s|s| |s m e]; intro H; eauto.
  - destruct s; discriminate H.
  - discriminate H.
Qed.

Lemma SFleb_neg_inf (x : spec_float) :
  x <> S754_nan -> SFleb (S754_infinity true) x = true.
Proof. destruct x as [?|[]| |[] ? ?]; intro H; congruence || reflexivity. Qed.

Lemma SFleb_pos_inf (x : spec_float) :
  x <> S754_nan -> SFleb x (S754_infinity false) = true.
Proof. destruct x as [?|[]| |[] ? ?]; intro H; congruence || reflexivity. Qed.

Lemma SFsub_inf_l (s : bool) (c : spec_float) :
  (exists s, c = S754_zero s) \/ (exists s m e, c = S754_finite s m e) ->
  SFsub prec emax (S754_infinity s) c = S754_infinity s.
Proof. intros [(s' & ->)|(s' & m & e & ->)]; reflexivity. Qed.

Lemma SFsub_inf_r (s : bool) (c : spec_float) :
  (exists s, c = S754_zero s) \/ (exists s m e, c = S754_finite s m e) ->
  SFsub prec emax c (S754_infinity s) = S754_infinity (negb s).
Proof. intros [(s' & ->)|(s' & m & e & ->)]; reflexivity. Qed.

Lemma not_nan_cases (x : spec_float) :
  x <> S754_nan ->
  (exists s, x = S754_infinity s) \/
  (exists s, x = S754_zero s) \/ (exists s m e, x = S754_finite s m e).
Proof.
  destruct x as [s|s| |s m e]; intro H;
    [right; left; eauto | left; eauto | congruence | right; right; eauto].
Qed.

Lemma SFleb_inf_l (x : spec_float) :
  SFleb (S754_infinity false) x = true -> x = S754_infinity false.
Proof. destruct x as [?|[]| |[] ? ?]; intro H; discriminate H || reflexivity. Qed.

Lemma SFleb_inf_r (x : spec_float) :
  SFleb x (S754_infinity true) = true -> x = S754_infinity true.
Proof. destruct x as [?|[]| |[] ? ?]; intro H; discriminate H || reflexivity. Qed.

(** Subtracting a finite double keeps the order. *)
Lemma SFsub_mono_left (a b c : spec_float) :
  valid_binary a = true -> valid_binary b = true -> valid_binary c = true ->
  (exists s, c = S754_zero s) \/ (exists s m e, c = S754_finite s m e) ->
  SFleb a b = true ->
  SFleb (SFsub prec emax a c) (SFsub prec emax b c) = true.
Proof.
  intros Va Vb Vc Fc Hab.
  destruct (key_leb a b Va Vb Hab) as (Na & Nb & Hk).
  destruct (not_nan_cases a Na) as [(sa & ->)|Fa].
  - destruct sa.
    + rewrite SFsub_inf_l by exact Fc. apply SFleb_neg_inf.
      destruct (not_nan_cases b Nb) as [(sb & ->)|Fb].
      * rewrite SFsub_inf_l by exact Fc. discriminate.
      * apply SFsub_not_nan; assumption.
    + rewrite (SFleb_inf_l b Hab). rewrite SFsub_inf_l by exact Fc. reflexivity.
  - destruct (not_nan_cases b Nb) as [(sb & ->)|Fb].
    + destruct sb.
      * rewrite (SFleb_inf_r a Hab). rewrite SFsub_inf_l by exact Fc.
        reflexivity.
      * rewrite (SFsub_inf_l false c Fc). apply SFleb_pos_inf.
        apply SFsub_not_nan; assumption.
    + eapply SFleb_transfer;
        [apply (SFsub_key a c Va Vc Fa Fc) | apply (SFsub_key b c Vb Vc Fb Fc) |].
      apply normalize_mono. lia.
Qed.

(** Subtracting from a finite double reverses the order. *)
Lemma SFsub_mono_right (a b c : spec_float) :
  valid_binary a = true -> valid_binary b = true -> valid_binary c = true ->
  (exists s, c = S754_zero s) \/ (exists s m e, c = S754_finite s m e) ->
  SFleb a b = true ->
  SFleb (SFsub prec emax c b) (SFsub prec emax c a) = true.
Proof.
  intros Va Vb Vc Fc Hab.
  destruct (key_leb a b Va Vb Hab) as (Na & Nb & Hk).
  destruct (not_nan_cases a Na) as [(sa & ->)|Fa].
  - destruct sa.
    + rewrite (SFsub_inf_r true c Fc). apply SFleb_pos_inf.
      destruct (not_nan_cases b Nb) as [(sb & ->)|Fb].
      * rewrite SFsub_inf_r by exact Fc. discriminate.
      * apply SFsub_not_nan; assumption.
    + rewrite (SFleb_inf_l b Hab). rewrite SFsub_inf_r by exact Fc. reflexivity.
  - destruct (not_nan_cases b Nb) as [(sb & ->)|Fb].
    + destruct sb.
      * rewrite (SFleb_inf_r a Hab). rewrite SFsub_inf_r by exact Fc.
        reflexivity.
      * rewrite (SFsub_inf_r false c Fc). apply SFleb_neg_inf.
        apply SFsub_not_nan; assumption.
    + eapply SFleb_transfer;
        [apply (SFsub_key c b Vc Vb Fc Fb) | apply (SFsub_key c a Vc Va Fc Fa) |].
      apply normalize_mono. lia.
Qed.

Lemma sub_mono_left (a b c : float) :
  PrimFloat.is_finite c = true -> PrimFloat.leb a b = true ->
  PrimFloat.leb (PrimFloat.sub a c) (PrimFloat.sub b c) = true.
Proof.
  intros Hc. rewrite !FloatAxioms.leb_spec, !FloatAxioms.sub_spec.
  apply SFsub_mono_left; try apply Prim2SF_valid.
  apply is_finite_binary64, Hc.
Qed.

Lemma sub_mono_right (a b c : float) :
  PrimFloat.is_finite c = true -> PrimFloat.leb a b = true ->
  PrimFloat.leb (PrimFloat.sub c b) (PrimFloat.sub c a) = true.
Proof.
  intros Hc. rewrite !FloatAxioms.leb_spec, !FloatAxioms.sub_spec.
  apply SFsub_mono_right; try apply Prim2SF_valid.
  apply is_finite_binary64, Hc.
Qed.


(** *** The payoff and the market price *)

(** [std::max(0.0, x)] is not below zero, whatever [x]. *)
Lemma std_max_nonneg (d : float) :
  PrimFloat.leb 0 (std_max (of_int 0) d) = true.
Proof.
  unfold std_max. change (@of_int float binary64_ops 0) with 0%float.
  change (@dlt float binary64_ops) with PrimFloat.ltb.
  destruct (PrimFloat.ltb 0 d) eqn:H; [apply positive_leb, H | reflexivity].
Qed.

(** [std::max(0.0, x)] grows with [x]. *)
Lemma std_max_mono (d1 d2 : float) :
  PrimFloat.leb d1 d2 = true ->
  PrimFloat.leb (std_max (of_int 0) d1) (std_max (of_int 0) d2) = true.
Proof.
  intro H. unfold std_max. change (@of_int float binary64_ops 0) with 0%float.
  change (@dlt float binary64_ops) with PrimFloat.ltb.
  destruct (PrimFloat.ltb 0 d1) eqn:H1, (PrimFloat.ltb 0 d2) eqn:H2.
  - exact H.
  - exfalso.
    rewrite FloatAxioms.leb_spec in H. rewrite FloatAxioms.ltb_spec in H1, H2.
    change (Prim2SF 0) with (S754_zero false) in H1, H2.
    destruct (key_leb _ _ (Prim2SF_valid d1) (Prim2SF_valid d2) H)
      as (N1 & N2 & Hk).
    unfold SFltb in H1, H2.
    rewrite (key_compare (S754_zero false) _ eq_refl (Prim2SF_valid d1)
               ltac:(discriminate) N1) in H1.
    rewrite (key_compare (S754_zero false) _ eq_refl (Prim2SF_valid d2)
               ltac:(discriminate) N2) in H2.
    cbn [key] in H1, H2.
    destruct (Z.compare_spec 0 (key (Prim2SF d1))); try discriminate H1.
    destruct (Z.compare_spec 0 (key (Prim2SF d2))); try discriminate H2; lia.
  - apply positive_leb, H2.
  - reflexivity.
Qed.

(** In double arithmetic the payoff of a call never falls when the market
    price rises, and the payoff of a put never rises, for a strike and a
    premium that are finite doubles: no rounding reverses the order. *)
Theorem calculatePayoff_monotone (K P M1 M2 : float) (E : string) :
  PrimFloat.is_finite K = true ->
  PrimFloat.is_finite P = true ->
  PrimFloat.leb M1 M2 = true ->
  PrimFloat.leb (calculatePayoff (CallOption K P E) M1)
                (calculatePayoff (CallOption K P E) M2) = true /\
  PrimFloat.leb (calculatePayoff (PutOption K P E) M2)
                (calculatePayoff (PutOption K P E) M1) = true.
Proof.
  intros HK HP HM. unfold calculatePayoff.
  cbn [kind CallOption PutOption strikePrice premium].
  change (@dsub float binary64_ops) with PrimFloat.sub.
  split; apply sub_mono_left; try exact HP; apply std_max_mono.
  - apply sub_mono_left; assumption.
  - apply sub_mono_right; assumption.
Qed.

(** In double arithmetic the loss is capped by the premium: for a finite
    premium [P] the payoff of a call or a put is never below [0.0 - P],
    whatever the strike and the market price (infinite or NaN included). *)
Theorem calculatePayoff_floor (o : Option float) (M : float) :
  PrimFloat.is_finite (premium o) = true ->
  PrimFloat.leb (dsub (of_int 0) (premium o)) (calculatePayoff o M) = true.
Proof.
  intro HP. unfold calculatePayoff.
  change (@dsub float binary64_ops) with PrimFloat.sub.
  destruct (kind o); apply sub_mono_left; try exact HP; apply std_max_nonneg.
Qed.

End Binary64More.

(** ** Instances of the further properties *)

Section MoreRuns.

Local Open Scope string_scope.
Local Open Scope list_scope.

Lemma execute_valid_type_witness :
  ((Put = Call /\ in_optionType (short_put (double := float)) = "Call") \/
   (Put = Put /\ in_optionType (short_put (double := float)) = "Put")) /\
  options (chain (exec (execute short_put) main_world64)) =
    options (chain main_world64) ++
    [mkOption Put (of_int 100) (of_int (-4)) "2024-12-31"].
Proof.
  assert ((Put = Call /\ in_optionType (short_put (double := float)) = "Call") \/
          (Put = Put /\ in_optionType (short_put (double := float)) = "Put"))
    as Hk by (right; split; reflexivity).
  split; [exact Hk|].
  exact (proj1 (execute_valid_type short_put main_world64 Put Hk)).
Defined.

Lemma main_turn_other_witness :
  "3"%char <> "1"%char /\ "3"%char <> "2"%char /\
  chain (exec (main_turn 1%nat "3" straddle) main_world64) = chain main_world64.
Proof.
  assert ("3"%char <> "1"%char) as H1 by discriminate.
  assert ("3"%char <> "2"%char) as H2 by discriminate.
  split; [exact H1|]. split; [exact H2|].
  exact (f_equal (@chain float)
           (main_turn_other 1%nat "3"%char straddle main_world64 H1 H2)).
Defined.

Lemma main_loop_exit_witness :
  Forall (fun t : Turn float => fst t <> "3"%char)
    [("1"%char, straddle); ("2"%char, short_put)] /\
  fst (main_loop 1%nat
         ([("1"%char, straddle); ("2"%char, short_put)] ++
          ("3"%char, straddle) :: [("1"%char, straddle)]) main_world64) = true.
Proof.
  assert (Forall (fun t : Turn float => fst t <> "3"%char)
            [("1"%char, straddle); ("2"%char, short_put)]) as Hb
    by (repeat constructor; discriminate).
  split; [exact Hb|].
  exact (proj1 (proj2 (main_loop_exit 1%nat
                         [("1"%char, straddle); ("2"%char, short_put)]
                         [("1"%char, straddle)] straddle main_world64 Hb))).
Defined.

Lemma updateMarket_silent_witness :
  observers (chain (call_world64 (always 9))) = [] /\
  trace (exec updateMarket (call_world64 (always 9))) =
    trace (call_world64 (always 9)).
Proof.
  split; [reflexivity|].
  exact (proj1 (updateMarket_silent (call_world64 (always 9)) eq_refl)).
Defined.

Lemma drift_monotone_witness :
  rand_ok (call_world64 (always 0)) /\
  rand_ok (call_world64 (always 9)) /\
  (Z.rem 0 10 <= Z.rem 9 10)%Z /\
  PrimFloat.leb 0 (of_int 5) = true /\
  exists o1 o2,
    nth_error (options (chain (exec updateOptionPrices (call_world64 (always 0))))) 0
      = Some o1 /\
    nth_error (options (chain (exec updateOptionPrices (call_world64 (always 9))))) 0
      = Some o2 /\
    PrimFloat.leb (premium o1) (premium o2) = true.
Proof.
  assert (rand_ok (call_world64 (always 0))) as H0 by (apply always_ok; lia).
  assert (rand_ok (call_world64 (always 9))) as H9 by (apply always_ok; lia).
  assert (Z.rem 0 10 <= Z.rem 9 10)%Z as Hle by (vm_compute; discriminate).
  split; [exact H0|]. split; [exact H9|]. split; [exact Hle|].
  split; [reflexivity|].
  destruct (drift_monotone (call_world64 (always 0)) (call_world64 (always 9))
              0%nat (CallOption (of_int 100) (of_int 5) "2024-12-31")
              H0 H9 eq_refl eq_refl Hle) as (o1 & o2 & E1 & E2 & Hpos & _).
  exists o1, o2. split; [exact E1|]. split; [exact E2|].
  exact (Hpos eq_refl).
Defined.

Lemma updateOptionPrices_unchanged_witness :
  Z.rem (always 5 0%nat) 10 = 5%Z /\
  PrimFloat.is_nan (of_int 5) = false /\
  nth_error (options (chain (exec updateOptionPrices (call_world64 (always 5))))) 0 =
    Some (CallOption (of_int 100) (of_int 5) "2024-12-31").
Proof.
  split; [reflexivity|]. split; [reflexivity|].
  destruct (updateOptionPrices_unchanged (call_world64 (always 5)) 0%nat
              (CallOption (of_int 100) (of_int 5) "2024-12-31") eq_refl eq_refl)
    as (o' & Hi & _ & Hsame & _).
  rewrite Hi. f_equal. exact (proj2 (Hsame eq_refl)).
Defined.

Lemma premium_sign_kept_witness :
  rand_ok main_world64 /\
  PrimFloat.ltb 0 (of_int 5) = true /\
  exists o',
    nth_error (options (chain (updates 100 main_world64))) 0 = Some o' /\
    PrimFloat.ltb 0 (premium o') = true.
Proof.
  assert (rand_ok main_world64) as Hok by (apply always_ok; lia).
  split; [exact Hok|]. split; [reflexivity|].
  destruct (premium_sign_kept 100%nat main_world64 0%nat
              (CallOption (of_int 100) (of_int 5) "2024-12-31") Hok eq_refl)
    as (o' & Hi & Hpos & _).
  exists o'. split; [exact Hi | exact (Hpos eq_refl)].
Defined.

Lemma calculatePayoff_nan_price_witness :
  PrimFloat.is_nan nan_price = true /\
  calculatePayoff (CallOption (of_int 100) (of_int 5) "2024-12-31") nan_price =
    dsub (of_int 0) (of_int 5).
Proof.
  split; [reflexivity|].
  exact (calculatePayoff_nan_price
           (CallOption (of_int 100) (of_int 5) "2024-12-31") nan_price
           (or_introl eq_refl)).
Defined.

Lemma main_quote_positive_witness :
  (forall n, (0 <= always 9 n)%Z) /\
  exists p rest,
    options (chain (snd (main 1%nat session (start (always 9))))) =
      CallOption (of_int 100) p "2024-12-31" :: rest /\
    PrimFloat.ltb 0 p = true.
Proof.
  assert (forall n, (0 <= always 9 n)%Z) as Hseq by (intro n; discriminate).
  split; [exact Hseq|].
  exact (main_quote_positive 1%nat session (always 9) Hseq).
Defined.

Lemma main_ignores_quantity_witness :
  Forall2 (fun t t' : Turn float =>
             fst t' = fst t /\
             is_int (in_quantity (snd t)) /\
             exists q, is_int q /\ snd t' = with_quantity (snd t) q)
    [("2"%char, short_put); ("3"%char, straddle)]
    [("2"%char, with_quantity short_put 250); ("3"%char, straddle)] /\
  fst (main 1%nat [("2"%char, short_put); ("3"%char, straddle)]
         (start (always 9))) = true /\
  main 1%nat [("2"%char, with_quantity short_put 250); ("3"%char, straddle)]
    (start (always 9)) =
  main 1%nat [("2"%char, short_put); ("3"%char, straddle)] (start (always 9)).
Proof.
  assert (is_int 1 /\ is_int 250) as [H1 H250]
    by (unfold is_int; split; split; vm_compute; congruence).
  assert (Forall2 (fun t t' : Turn float =>
                     fst t' = fst t /\
                     is_int (in_quantity (snd t)) /\
                     exists q, is_int q /\ snd t' = with_quantity (snd t) q)
            [("2"%char, short_put); ("3"%char, straddle)]
            [("2"%char, with_quantity short_put 250); ("3"%char, straddle)])
    as Hq.
  { constructor; [|constructor; [|constructor]].
    - split; [reflexivity|]. split; [exact H1|].
      exists 250%Z. split; [exact H250 | reflexivity].
    - split; [reflexivity|]. split; [exact H1|].
      exists 1%Z. split; [exact H1 | reflexivity]. }
  split; [exact Hq|]. split; [reflexivity|].
  exact (main_ignores_quantity 1%nat _ _ (start (always 9)) Hq eq_refl).
Defined.

Lemma main_redraws_witness :
  fst (main 1%nat
         [("1"%char, straddle); ("2"%char, short_put); ("1"%char, straddle);
          ("3"%char, straddle)]
         (start (always 9))) = true /\
  update_calls
    (trace (snd (main 1%nat
                   [("1"%char, straddle); ("2"%char, short_put);
                    ("1"%char, straddle); ("3"%char, straddle)]
                   (start (always 9))))) =
  [1%nat; 1%nat; 1%nat; 1%nat].
Proof.
  split; [reflexivity|].
  exact (main_redraws 1%nat
           [("1"%char, straddle); ("2"%char, short_put); ("1"%char, straddle);
            ("3"%char, straddle)]
           (always 9) eq_refl).
Defined.

Lemma premium_between_extremes_witness :
  rand_ok (call_world64 (always 3)) /\
  exists p lo hi,
    options (chain (updates 7 (call_world64 (always 3)))) =
      [CallOption (of_int 100) p "2024-12-31"] /\
    options (chain (updates 7 (call_world64 (always 0)))) =
      [CallOption (of_int 100) lo "2024-12-31"] /\
    options (chain (updates 7 (call_world64 (always 9)))) =
      [CallOption (of_int 100) hi "2024-12-31"] /\
    PrimFloat.leb lo p = true /\ PrimFloat.leb p hi = true.
Proof.
  assert (rand_ok (call_world64 (always 3))) as Hok by (apply always_ok; lia).
  split; [exact Hok|].
  exact (premium_between_extremes 7 (call_world64 (always 3)) "2024-12-31"
           Hok eq_refl).
Defined.

Lemma premium_bounds_100_binary64_witness :
  rand_ok (call_world64 (always 3)) /\
  (40 <= 100)%nat /\
  exists p,
    options (chain (updates 40 (call_world64 (always 3)))) =
      [CallOption (of_int 100) p "2024-12-31"] /\
    PrimFloat.leb least_premium_100 p = true /\
    PrimFloat.leb p greatest_premium_100 = true.
Proof.
  assert (rand_ok (call_world64 (always 3))) as Hok by (apply always_ok; lia).
  assert (40 <= 100)%nat as Hn by lia.
  split; [exact Hok|]. split; [exact Hn|].
  exact (proj1 (premium_bounds_100_binary64 40 (call_world64 (always 3))
                  "2024-12-31" Hok eq_refl Hn)).
Defined.

Lemma calculatePayoff_monotone_witness :
  PrimFloat.is_finite (of_int 100) = true /\
  PrimFloat.is_finite (of_int 5) = true /\
  PrimFloat.leb (of_int 90) (of_int 110) = true /\
  PrimFloat.leb
    (calculatePayoff (CallOption (of_int 100) (of_int 5) "2024-12-31") (of_int 90))
    (calculatePayoff (CallOption (of_int 100) (of_int 5) "2024-12-31") (of_int 110))
    = true.
Proof.
  split; [reflexivity|]. split; [reflexivity|]. split; [reflexivity|].
  exact (proj1 (calculatePayoff_monotone (of_int 100) (of_int 5) (of_int 90)
                  (of_int 110) "2024-12-31" eq_refl eq_refl eq_refl)).
Defined.

Lemma calculatePayoff_floor_witness :
  PrimFloat.is_finite (of_int 5) = true /\
  PrimFloat.leb (dsub (of_int 0) (of_int 5))
    (calculatePayoff (CallOption (of_int 100) (of_int 5) "2024-12-31") nan_price)
    = true.
Proof.
  split; [reflexivity|].
  exact (calculatePayoff_floor
           (CallOption (of_int 100) (of_int 5) "2024-12-31") nan_price eq_refl).
Defined.

Lemma updateOptionPrices_draws_witness :
  rand_calls (updates 3 main_world64) = 6%nat /\
  exists o,
    nth_error (options (chain (updates 3 main_world64))) 1 = Some o /\
    nth_error (options (chain (updates 4 main_world64))) 1 =
      Some (setPremium o
              (dmul (premium o)
                 (dadd (of_int 1)
                    (ddiv (of_int (Z.rem (always 9 7%nat) 10 - 5)) (of_int 100))))).
Proof.
  destruct (updateOptionPrices_draws 3 main_world64) as (Hcalls & _ & Hnth).
  split; [exact Hcalls|].
  destruct (nth_error (options (chain (updates 3 main_world64))) 1)
    as [o|] eqn:Ho; [|discriminate Ho].
  exists o. split; [reflexivity|].
  exact (Hnth 1%nat o Ho).
Defined.

Lemma main_turn_quote_witness :
  observers (chain main_world64) = [1%nat] /\
  update_calls (trace (exec (main_turn 1%nat "1" straddle) main_world64)) =
    [1%nat; 1%nat].
Proof.
  split; [reflexivity|].
  destruct (main_turn_quote 1%nat straddle main_world64) as (_ & _ & _ & Htwice).
  rewrite (Htwice eq_refl). reflexivity.
Defined.

End MoreRuns.
